(** * Radial layout and edge geometry of the FSM diagram editor

    A shallow embedding of [getRadialLayoutElements] (layout utilities) and
    of the geometry in [RadialEdge] (custom edges), with the properties of
    the layout specification stated and proved over it.

    Conventions of the embedding:
    - JavaScript strings are [string]; [undefined] is [None].
    - A JavaScript [number] that counts or indexes is [nat] or [Z]; a
      coordinate, angle or length is a real number [R] (rounding of IEEE
      doubles is not part of the model).
    - [Set<string>] is [gset string]; a [Record<string, number>] is
      [gmap string nat]. *)

From Stdlib Require Import Reals Lra Lia ZArith Ascii String Sorted.
From Equations Require Import Equations.
From stdpp Require Import gmap strings list pretty.

#[local] Set Warnings "-clear-no-such-hyp,-level-tolerance".

Local Open Scope string_scope.
Local Open Scope nat_scope.

(** ** JavaScript built-ins used by the layout code *)

Module JS.

(** [String.prototype.toUpperCase] on ASCII text: the letters [a-z] become
    [A-Z] and every other character is kept.  (The few non-ASCII characters
    whose upper case is an ASCII letter are outside the model.) *)
Definition upper_ascii (c : ascii) : ascii :=
  let n := nat_of_ascii c in
  if (97 <=? n)%nat && (n <=? 122)%nat then ascii_of_nat (n - 32) else c.

Fixpoint toUpperCase (s : string) : string :=
  match s with
  | EmptyString => EmptyString
  | String c s' => String (upper_ascii c) (toUpperCase s')
  end.

(** Truthiness of a value of type [string | undefined]: both [undefined]
    and the empty string are falsy. *)
Definition truthy (v : option string) : bool :=
  match v with
  | Some s => negb (String.eqb s "")
  | None => false
  end.

(** [v || d] for [v : string | undefined] and [d : string]. *)
Definition or_else (v : option string) (d : string) : string :=
  match v with
  | Some s => if String.eqb s "" then d else s
  | None => d
  end.

(** [Array.prototype.sort(cmp)].  ECMAScript requires the sort to be
    stable, so for a consistent comparator the result does not depend on
    the engine's algorithm; insertion from the right is one stable sort. *)
Section Sort.
Context {A : Type} (cmp : A → A → Z).

Fixpoint sort_insert (x : A) (l : list A) : list A :=
  match l with
  | [] => [x]
  | y :: l' => if (cmp x y <=? 0)%Z then x :: y :: l' else y :: sort_insert x l'
  end.

Definition sort (l : list A) : list A := foldr sort_insert [] l.
End Sort.

(** [Array.prototype.findIndex]: [-1] when no element satisfies [P]. *)
Definition findIndex {A : Type} (P : A → Prop) `{!∀ x, Decision (P x)}
    (l : list A) : Z :=
  match list_find P l with
  | Some (i, _) => Z.of_nat i
  | None => (-1)%Z
  end.

(** [Array.prototype.find]. *)
Definition find {A : Type} (P : A → Prop) `{!∀ x, Decision (P x)}
    (l : list A) : option A :=
  snd <$> list_find P l.

End JS.

(** ** Data model ([types.ts]) *)

Inductive NodeType := INITIAL | STATE.

#[global] Instance NodeType_eq_dec : EqDecision NodeType.
Proof. solve_decision. Defined.

Module FSMState.
Record t := mk {
  id : string;
  label : string;
  type : option NodeType;
  description : option string
}.
End FSMState.

Module FSMTransition.
Record t := mk {
  source : string;
  target : string;
  condition : string;
  action : option string
}.
End FSMTransition.

Module FSMData.
Record t := mk {
  moduleName : string;
  clockSignal : option string;
  resetSignal : option string;
  states : list FSMState.t;
  transitions : list FSMTransition.t
}.
End FSMData.

(** ** Hub detection *)

Definition getDegree (nodeId : string) (transitions : list FSMTransition.t) : nat :=
  length (filter (λ t, FSMTransition.source t = nodeId ∨ FSMTransition.target t = nodeId)
                 transitions).

Definition hubLabels : list string := ["IDLE"; "RESET"; "WAIT"; "MAIN"; "ST_IDLE"].

Definition hubByLabel (fsmData : FSMData.t) : option string :=
  FSMState.id <$>
    JS.find (λ s, JS.toUpperCase (FSMState.label s) ∈ hubLabels) (FSMData.states fsmData).

Definition sortedByDegree (fsmData : FSMData.t) : list FSMState.t :=
  JS.sort (λ a b,
      let degA := getDegree (FSMState.id a) (FSMData.transitions fsmData) in
      let degB := getDegree (FSMState.id b) (FSMData.transitions fsmData) in
      (Z.of_nat degB - Z.of_nat degA)%Z)
    (FSMData.states fsmData).

Definition hubId (fsmData : FSMData.t) : option string :=
  if JS.truthy (hubByLabel fsmData) then hubByLabel fsmData
  else FSMState.id <$> head (sortedByDegree fsmData).

(** ** Rim sorting *)

Definition rimNodes (fsmData : FSMData.t) : list FSMState.t :=
  filter (λ s, Some (FSMState.id s) ≠ hubId fsmData) (FSMData.states fsmData).

Definition startCandidates (fsmData : FSMData.t) : list string :=
  FSMTransition.target <$>
    filter (λ t, Some (FSMTransition.source t) = hubId fsmData
                 ∧ Some (FSMTransition.target t) ≠ hubId fsmData)
           (FSMData.transitions fsmData).

(** The variables that the greedy traversal loop updates. *)
Record RimLoop := mkRimLoop {
  visited : gset string;
  sortedRimNodes : list FSMState.t;
  currentId : string
}.

Section RimLoop.
Context (fsmData : FSMData.t).

Definition neighbors (vis : gset string) (cur : string) : list string :=
  FSMTransition.target <$>
    filter (λ t, FSMTransition.source t = cur
                 ∧ (FSMTransition.target t ∉ vis)
                 ∧ Some (FSMTransition.target t) ≠ hubId fsmData)
           (FSMData.transitions fsmData).

(** "Add current": the first half of the loop body. *)
Definition addCurrent (st : RimLoop) : RimLoop :=
  if decide (currentId st ∈ visited st) then st
  else
    {| visited := {[currentId st]} ∪ visited st;
       sortedRimNodes :=
         match JS.find (λ n, FSMState.id n = currentId st) (rimNodes fsmData) with
         | Some node => sortedRimNodes st ++ [node]
         | None => sortedRimNodes st
         end;
       currentId := currentId st |}.

(** One pass through the loop body: [inl] continues with the next
    iteration, [inr] is the [break]. *)
Definition rimBody (st : RimLoop) : RimLoop + RimLoop :=
  let st1 := addCurrent st in
  match neighbors (visited st1) (currentId st1) with
  | next :: _ =>
      inl {| visited := visited st1; sortedRimNodes := sortedRimNodes st1;
             currentId := next |}
  | [] =>
      match JS.find (λ n, FSMState.id n ∉ visited st1) (rimNodes fsmData) with
      | None => inr st1
      | Some unvisited =>
          inl {| visited := visited st1; sortedRimNodes := sortedRimNodes st1;
                 currentId := FSMState.id unvisited |}
      end
  end.

Definition rimGuard (st : RimLoop) : Prop :=
  size (visited st) < length (rimNodes fsmData).

(** The variant of the loop: twice the number of ids still missing from
    [visited], plus one when the current id has already been visited. *)
Definition rimVariant (st : RimLoop) : nat :=
  2 * (length (rimNodes fsmData) - size (visited st))
  + (if decide (currentId st ∈ visited st) then 1 else 0).

#[global] Instance rimGuard_dec st : Decision (rimGuard st).
Proof. unfold rimGuard. apply _. Defined.
End RimLoop.

Definition inspect {A : Type} (a : A) : {b : A | a = b} := exist _ a eq_refl.

(** The [while] loop of the greedy chain traversal.  Its termination
    argument: every pass that continues decreases [rimVariant]. *)
Equations? rimWhile (fsmData : FSMData.t) (st : RimLoop) : RimLoop
  by wf (rimVariant fsmData st) lt :=
  rimWhile fsmData st with decide (rimGuard fsmData st) => {
    | right _ => st
    | left Hg with inspect (rimBody fsmData st) => {
        | exist _ (inl st') Hb => rimWhile fsmData st'
        | exist _ (inr st') Hb => st' } }.
Proof.
  clear rimWhile. revert Hg Hb.
  unfold rimGuard, rimBody, rimVariant, addCurrent. intros Hg Hb.
  destruct (decide (currentId st ∈ visited st)) as [Hin|Hnin]; simpl in Hb.
  - assert ((currentId st' ∉ visited st') ∧ visited st' = visited st) as [Hc Hv].
    { destruct (neighbors _ _ _) as [|next l] eqn:Hn.
      - destruct (JS.find _ _) as [u|] eqn:Hu; [|done].
        injection Hb as <-; simpl. split; [|done].
        unfold JS.find in Hu. destruct (list_find _ _) as [[k u']|] eqn:Hf; [|done].
        simpl in Hu. injection Hu as ->. by apply list_find_Some in Hf as (_ & ? & _).
      - injection Hb as <-; simpl. split; [|done].
        assert (next ∈ neighbors fsmData (visited st) (currentId st)) as Hm
          by (rewrite Hn; left).
        unfold neighbors in Hm. apply list_elem_of_fmap in Hm as (t & -> & Ht).
        apply list_elem_of_filter in Ht. tauto. }
    rewrite Hv in *. destruct (decide (currentId st' ∈ visited st)); [done|lia].
  - assert (visited st' = {[currentId st]} ∪ visited st) as ->.
    { simpl in Hb. destruct (neighbors _ _ _); [destruct (JS.find _ _)|];
        simplify_eq; done. }
    rewrite size_union by set_solver. rewrite size_singleton.
    destruct (decide (currentId st' ∈ _)); lia.
Qed.

(** The same loop run for at most [fuel] iterations; [None] when the guard
    still holds after [fuel] iterations. *)
Fixpoint rimRun (fsmData : FSMData.t) (fuel : nat) (st : RimLoop) : option RimLoop :=
  if decide (rimGuard fsmData st) then
    match fuel with
    | 0 => None
    | S fuel' =>
        match rimBody fsmData st with
        | inl st' => rimRun fsmData fuel' st'
        | inr st' => Some st'
        end
    end
  else Some st.

(** The loop variables on entry, given the first rim node. *)
Definition rimInit (fsmData : FSMData.t) (first : FSMState.t) : RimLoop :=
  {| visited := ∅;
     sortedRimNodes := [];
     currentId :=
       JS.or_else
         (JS.find (λ i, Exists (λ n, FSMState.id n = i) (rimNodes fsmData))
                  (startCandidates fsmData))
         (FSMState.id first) |}.

(** The value of [sortedRimNodes] after step 2 of the layout. *)
Definition rimSorting (fsmData : FSMData.t) : list FSMState.t :=
  match rimNodes fsmData with
  | [] => []
  | first :: _ => sortedRimNodes (rimWhile fsmData (rimInit fsmData first))
  end.

(** ** Positioning *)

Inductive Position := Left | Top | Right | Bottom.

Record XYPosition := mkXY { x : R; y : R }.

Module NodeData.
Record t := mk {
  label : string;
  description : option string;
  isInitial : option bool
}.
End NodeData.

Module Node.
Record t := mk {
  id : string;
  type : string;
  data : NodeData.t;
  position : XYPosition;
  sourcePosition : option Position;
  targetPosition : option Position
}.
End Node.

Definition RADIUS : R := 380%R.

Definition hubNodeData (fsmData : FSMData.t) : option FSMState.t :=
  JS.find (λ s, Some (FSMState.id s) = hubId fsmData) (FSMData.states fsmData).

Definition hubNode (hub : FSMState.t) : Node.t :=
  {| Node.id := FSMState.id hub;
     Node.type := "circular";
     Node.data :=
       {| NodeData.label := FSMState.label hub;
          NodeData.description := FSMState.description hub;
          NodeData.isInitial :=
            Some (bool_decide (FSMState.type hub = Some INITIAL)) |};
     Node.position := {| x := 0%R; y := 0%R |};
     Node.sourcePosition := Some Right;
     Node.targetPosition := Some Left |}.

(** The angle of the rim node at [index] among [len] rim nodes. *)
Definition finalAngle (len index : nat) : R :=
  let angle := ((2 * PI * INR index) / INR len)%R in
  (angle - PI / 2)%R.

Definition rimNode (len index : nat) (state : FSMState.t) : Node.t :=
  {| Node.id := FSMState.id state;
     Node.type := "circular";
     Node.data :=
       {| NodeData.label := FSMState.label state;
          NodeData.description := FSMState.description state;
          NodeData.isInitial := None |};
     Node.position :=
       {| x := (RADIUS * cos (finalAngle len index))%R;
          y := (RADIUS * sin (finalAngle len index))%R |};
     Node.sourcePosition := None;
     Node.targetPosition := None |}.

Definition layoutedNodes (fsmData : FSMData.t) : list Node.t :=
  let sorted := rimSorting fsmData in
  option_list (hubNode <$> hubNodeData fsmData)
  ++ imap (rimNode (length sorted)) sorted.

(** ** Edges with routing strategy *)

Module EdgeData.
Record t := mk {
  isManual : bool;
  id : string;
  sourceLabel : option string;
  targetLabel : option string;
  condition : string;
  action : option string;
  isHubConnection : bool;
  isSelfLoop : bool;
  isNeighbor : bool;
  hubId : option string;
  siblingCount : option nat;
  siblingIndex : option nat;
  isStraight : option bool
}.
End EdgeData.

(** The constant styling fields of an edge ([labelStyle], [labelBgStyle],
    [labelBgPadding], [labelBgBorderRadius], [style], [markerEnd]) carry no
    layout information and are left out of the record. *)
Module Edge.
Record t := mk {
  id : string;
  source : string;
  target : string;
  type : string;
  sourceHandle : string;
  targetHandle : string;
  label : string;
  zIndex : Z;
  data : EdgeData.t
}.
End Edge.

Definition edgeKey (trans : FSMTransition.t) : string :=
  FSMTransition.source trans ++ "->" ++ FSMTransition.target trans.

Definition edgeId (i : nat) : string := "radial_" ++ pretty i.

(** The two tables of the pre-processing pass: [edgeGroups] maps a key to
    the number of transitions seen with it, [edgeIndices] maps an edge id to
    its index within its group. *)
Record EdgeTables := mkEdgeTables {
  edgeGroups : gmap string nat;
  edgeIndices : gmap string nat
}.

(** One call of the [forEach] callback. *)
Definition groupStep (tabs : EdgeTables) (i : nat) (trans : FSMTransition.t) : EdgeTables :=
  let key := edgeKey trans in
  let groups0 :=
    match edgeGroups tabs !! key with
    | Some (S _) => edgeGroups tabs
    | _ => <[key := 0]> (edgeGroups tabs)
    end in
  let count := default 0 (groups0 !! key) in
  {| edgeIndices := <[edgeId i := count]> (edgeIndices tabs);
     edgeGroups := <[key := S count]> groups0 |}.

Fixpoint groupEdges (i : nat) (ts : list FSMTransition.t) (tabs : EdgeTables) : EdgeTables :=
  match ts with
  | [] => tabs
  | trans :: ts' => groupEdges (S i) ts' (groupStep tabs i trans)
  end.

Definition edgeTables (fsmData : FSMData.t) : EdgeTables :=
  groupEdges 0 (FSMData.transitions fsmData)
             {| edgeGroups := ∅; edgeIndices := ∅ |}.

(** "Determine adjacency for rim-to-rim". *)
Definition rimAdjacent (sorted : list FSMState.t) (src tgt : string) : bool :=
  let sIdx := JS.findIndex (λ n, FSMState.id n = src) sorted in
  let tIdx := JS.findIndex (λ n, FSMState.id n = tgt) sorted in
  if bool_decide (sIdx ≠ (-1)%Z ∧ tIdx ≠ (-1)%Z) then
    let diff := Z.abs (sIdx - tIdx) in
    let len := Z.of_nat (length sorted) in
    bool_decide (diff = 1%Z ∨ diff = (len - 1)%Z)
  else false.

Definition layoutedEdge (fsmData : FSMData.t) (i : nat) (trans : FSMTransition.t) : Edge.t :=
  let src := FSMTransition.source trans in
  let tgt := FSMTransition.target trans in
  let hub := hubId fsmData in
  let numericLabel := pretty (i + 1) in
  let isSelfLoop := bool_decide (src = tgt) in
  let isHubConnection := bool_decide (Some src = hub ∨ Some tgt = hub) in
  let isNeighbor :=
    if negb isHubConnection && negb isSelfLoop
    then rimAdjacent (rimSorting fsmData) src tgt
    else false in
  let key := edgeKey trans in
  let siblingCount :=
    match edgeGroups (edgeTables fsmData) !! key with
    | Some (S n) => S n
    | _ => 1
    end in
  let siblingIndex := default 0 (edgeIndices (edgeTables fsmData) !! edgeId i) in
  {| Edge.id := "radial_" ++ pretty i ++ "_" ++ src ++ "_" ++ tgt;
     Edge.source := src;
     Edge.target := tgt;
     Edge.type := "radial";
     Edge.sourceHandle := "center";
     Edge.targetHandle := "center-t";
     Edge.label := numericLabel;
     Edge.zIndex := 100;
     Edge.data :=
       {| EdgeData.isManual := true;
          EdgeData.id := numericLabel;
          EdgeData.sourceLabel :=
            (NodeData.label ∘ Node.data) <$>
              JS.find (λ n, Node.id n = src) (layoutedNodes fsmData);
          EdgeData.targetLabel :=
            (NodeData.label ∘ Node.data) <$>
              JS.find (λ n, Node.id n = tgt) (layoutedNodes fsmData);
          EdgeData.condition := FSMTransition.condition trans;
          EdgeData.action := FSMTransition.action trans;
          EdgeData.isHubConnection := isHubConnection;
          EdgeData.isSelfLoop := isSelfLoop;
          EdgeData.isNeighbor := isNeighbor;
          EdgeData.hubId := hub;
          EdgeData.siblingCount := Some siblingCount;
          EdgeData.siblingIndex := Some siblingIndex;
          EdgeData.isStraight := None |} |}.

Definition layoutedEdges (fsmData : FSMData.t) : list Edge.t :=
  imap (layoutedEdge fsmData) (FSMData.transitions fsmData).

Record Layout := mkLayout { nodes : list Node.t; edges : list Edge.t }.

Definition getRadialLayoutElements (fsmData : FSMData.t) : Layout :=
  {| nodes := layoutedNodes fsmData; edges := layoutedEdges fsmData |}.

(** ** Edge geometry ([RadialEdge])

    A JavaScript division never throws: with a zero divisor it yields [NaN]
    or an infinity.  To make such divisions visible, [jsdiv] returns [None]
    for a zero divisor, and the geometry functions that divide by a computed
    value live in the [option] monad: [None] stands for a result computed
    from a division by zero. *)

#[global] Instance R_eq_dec : EqDecision R := Req_dec_T.

Definition jsdiv (a b : R) : option R :=
  if decide (b = 0%R) then None else Some (a / b)%R.

Definition NODE_RADIUS : R := 48%R.

Definition normalize (x y : R) : option XYPosition :=
  let len := sqrt (x * x + y * y) in
  if decide (len = 0%R) then Some {| x := 0%R; y := 0%R |}
  else
    nx ← jsdiv x len;
    ny ← jsdiv y len;
    Some {| x := nx; y := ny |}.

Definition getPointOnCircle (centerX centerY targetX targetY : R) : option XYPosition :=
  let dx := (targetX - centerX)%R in
  let dy := (targetY - centerY)%R in
  n ← normalize dx dy;
  Some {| x := (centerX + x n * NODE_RADIUS)%R;
          y := (centerY + y n * NODE_RADIUS)%R |}.

Definition getMultiEdgeCurvatureOffset (index count : nat) (spacing : option R) : R :=
  let spacing := default 50%R spacing in
  if (count <=? 1)%nat then 0%R
  else
    let centeredIndex := (INR index - (INR count - 1) / 2)%R in
    (centeredIndex * spacing)%R.

(** The SVG path of an edge, as the list of its drawing commands. *)
Inductive PathCommand :=
  | MoveTo (px py : R)
  | LineTo (px py : R)
  | QuadTo (cx cy px py : R)
  | CubicTo (c1x c1y c2x c2y px py : R).

Record EdgeGeometry := mkGeometry {
  path : list PathCommand;
  labelX : R;
  labelY : R
}.

Definition OFFSET_ANGLE : R := (6 / 10)%R.

Definition selfLoopGeometry (sourceX sourceY : R) (siblingIndex : nat) : option EdgeGeometry :=
  n ← normalize sourceX sourceY;
  let nx := x n in
  let ny := y n in
  let LOOP_SIZE := (70 + INR siblingIndex * 15)%R in
  let cosA := cos OFFSET_ANGLE in
  let sinA := sin OFFSET_ANGLE in
  let sx := (nx * cosA + ny * sinA)%R in
  let sy := (- nx * sinA + ny * cosA)%R in
  let ex := (nx * cosA - ny * sinA)%R in
  let ey := (nx * sinA + ny * cosA)%R in
  let startX := (sourceX + sx * NODE_RADIUS)%R in
  let startY := (sourceY + sy * NODE_RADIUS)%R in
  let endX := (sourceX + ex * NODE_RADIUS)%R in
  let endY := (sourceY + ey * NODE_RADIUS)%R in
  let c1x := (startX + sx * LOOP_SIZE)%R in
  let c1y := (startY + sy * LOOP_SIZE)%R in
  let c2x := (endX + ex * LOOP_SIZE)%R in
  let c2y := (endY + ey * LOOP_SIZE)%R in
  Some {| path := [MoveTo startX startY; CubicTo c1x c1y c2x c2y endX endY];
          labelX := (0.125 * startX + 0.375 * c1x + 0.375 * c2x + 0.125 * endX)%R;
          labelY := (0.125 * startY + 0.375 * c1y + 0.375 * c2y + 0.125 * endY)%R |}.

Definition connectionGeometry (sourceX sourceY targetX targetY : R)
    (isStraight : bool) (curvatureOffset : R) : option EdgeGeometry :=
  start ← getPointOnCircle sourceX sourceY targetX targetY;
  end_ ← getPointOnCircle targetX targetY sourceX sourceY;
  if isStraight then
    Some {| path := [MoveTo (x start) (y start); LineTo (x end_) (y end_)];
            labelX := ((x start + x end_) / 2)%R;
            labelY := ((y start + y end_) / 2)%R |}
  else
    let mx := ((x start + x end_) / 2)%R in
    let my := ((y start + y end_) / 2)%R in
    let dx := (x end_ - x start)%R in
    let dy := (y end_ - y start)%R in
    let len := sqrt (dx * dx + dy * dy) in
    nx ← jsdiv (- dy) len;
    ny ← jsdiv dx len;
    let archHeight := (Rmin 80 (Rmax 30 (len * 0.15)) + curvatureOffset)%R in
    let cx := (mx + nx * archHeight)%R in
    let cy := (my + ny * archHeight)%R in
    Some {| path := [MoveTo (x start) (y start); QuadTo cx cy (x end_) (y end_)];
            labelX := (0.25 * x start + 0.5 * cx + 0.25 * x end_)%R;
            labelY := (0.25 * y start + 0.5 * cy + 0.25 * y end_)%R |}.

(** The path and label anchor computed by [RadialEdge] for defined
    coordinates; [data] is [None] when the edge carries no data object. *)
Definition radialEdgeGeometry (sourceX sourceY targetX targetY : R)
    (data : option EdgeData.t) : option EdgeGeometry :=
  let isSelfLoop := default false (EdgeData.isSelfLoop <$> data) in
  let siblingCount := default 1 (data ≫= EdgeData.siblingCount) in
  let siblingIndex := default 0 (data ≫= EdgeData.siblingIndex) in
  let isStraight := default false (data ≫= EdgeData.isStraight) in
  let curvatureOffset := getMultiEdgeCurvatureOffset siblingIndex siblingCount None in
  if isSelfLoop then selfLoopGeometry sourceX sourceY siblingIndex
  else connectionGeometry sourceX sourceY targetX targetY isStraight curvatureOffset.

(** What [RadialEdge] draws. *)
Inductive Rendered :=
  | RenderNull
  | RenderPath (g : EdgeGeometry)
  | RenderDivisionByZero.

Definition RadialEdge (sourceX sourceY targetX targetY : option R)
    (data : option EdgeData.t) : Rendered :=
  match sourceX, sourceY, targetX, targetY with
  | Some sX, Some sY, Some tX, Some tY =>
      match radialEdgeGeometry sX sY tX tY data with
      | Some g => RenderPath g
      | None => RenderDivisionByZero
      end
  | _, _, _, _ => RenderNull
  end.

(** ** The linear layout ([getLayoutedElements]) *)

Module StubData.
Record t := mk {
  id : string;
  condition : string;
  action : option string
}.
End StubData.

Module StubLayoutEdge.
Record t := mk {
  id : string;
  source : string;
  target : string;
  sourceHandle : string;
  targetHandle : string;
  type : string;
  label : string;
  data : StubData.t
}.
End StubLayoutEdge.

Definition linearNode (i : nat) (state : FSMState.t) : Node.t :=
  {| Node.id := FSMState.id state;
     Node.type := "circular";
     Node.data :=
       {| NodeData.label := FSMState.label state;
          NodeData.description := FSMState.description state;
          NodeData.isInitial :=
            Some (bool_decide (FSMState.type state = Some INITIAL)) |};
     Node.position := {| x := (100 + INR i * 250)%R; y := 300%R |};
     Node.sourcePosition := None;
     Node.targetPosition := None |}.

Definition linearEdge (i : nat) (trans : FSMTransition.t) : StubLayoutEdge.t :=
  {| StubLayoutEdge.id := "stub_" ++ pretty i;
     StubLayoutEdge.source := FSMTransition.source trans;
     StubLayoutEdge.target := FSMTransition.target trans;
     StubLayoutEdge.sourceHandle := "right";
     StubLayoutEdge.targetHandle := "left-t";
     StubLayoutEdge.type := "stub";
     StubLayoutEdge.label := pretty (i + 1);
     StubLayoutEdge.data :=
       {| StubData.id := pretty (i + 1);
          StubData.condition := FSMTransition.condition trans;
          StubData.action := FSMTransition.action trans |} |}.

Record LinearLayout := mkLinearLayout {
  linearNodes : list Node.t;
  linearEdges : list StubLayoutEdge.t
}.

Definition getLayoutedElements (fsmData : FSMData.t) : LinearLayout :=
  {| linearNodes := imap linearNode (FSMData.states fsmData);
     linearEdges := imap linearEdge (FSMData.transitions fsmData) |}.

(** ** The bus path of draggable edges ([getBusPath])

    The two branches that delegate to the path functions of the rendering
    library are represented by a tag; the bus route is computed here.  The
    corner radius is a real number in this model, so that the fallback for
    a radius that is not a number is never taken. *)

Inductive BusPath :=
  | BusEmpty
  | BusBezier
  | BusSmoothStep
  | BusRoute (g : EdgeGeometry).

Definition isBus (sourcePosition targetPosition : Position) : bool :=
  match sourcePosition, targetPosition with
  | Top, Top | Bottom, Bottom => true
  | _, _ => false
  end.

Definition busRoute (sourceX sourceY targetX targetY offset borderRadius : R)
    : EdgeGeometry :=
  let busY := (sourceY + offset)%R in
  let dirY := if Rlt_dec busY sourceY then (-1)%R else 1%R in
  let width := Rabs (targetX - sourceX) in
  let r := Rmin borderRadius (Rmin (width / 2) (Rabs (busY - sourceY) / 2)) in
  let isLeftToRight := Rlt_dec sourceX targetX in
  let xDir := if isLeftToRight then 1%R else (-1)%R in
  let safeR := r in
  {| path :=
       [MoveTo sourceX sourceY;
        LineTo sourceX (busY - dirY * safeR);
        QuadTo sourceX busY (sourceX + xDir * safeR) busY;
        LineTo (targetX - xDir * safeR) busY;
        QuadTo targetX busY targetX (busY - dirY * safeR);
        LineTo targetX targetY];
     labelX := ((sourceX + targetX) / 2)%R;
     labelY := busY |}.

Definition getBusPath (sourceX : option R) (sourceY : R) (targetX : option R)
    (targetY : R) (sourcePosition targetPosition : Position) (offset : R)
    (borderRadius : option R) : BusPath :=
  match sourceX, targetX with
  | Some sX, Some tX =>
      match sourcePosition, targetPosition with
      | Right, Left => BusBezier
      | _, _ =>
          if isBus sourcePosition targetPosition
          then BusRoute (busRoute sX sourceY tX targetY offset
                                  (default 15%R borderRadius))
          else BusSmoothStep
      end
  | _, _ => BusEmpty
  end.

(** ** Handles of a circular node ([CustomNodes]) *)

Definition SIZE : R := 96%R.
Definition handleR : R := (SIZE / 2)%R.
Definition handleC : R := (SIZE / 2)%R.

(** [getPos]: the [left] and [top] offsets of the handle at [angleDeg]
    (the second argument of [getPos] is not used by it). *)
Definition getPos (angleDeg : R) : R * R :=
  let rad := (angleDeg * PI / 180)%R in
  ((handleC + handleR * cos rad)%R, (handleC + handleR * sin rad)%R).

Module HandleSpec.
Record t := mk { id : string; angle : R; pos : Position }.
End HandleSpec.

Definition handles : list HandleSpec.t :=
  [ HandleSpec.mk "top-0" (-110) Top;
    HandleSpec.mk "top" (-90) Top;
    HandleSpec.mk "top-1" (-70) Top;
    HandleSpec.mk "right-0" (-20) Right;
    HandleSpec.mk "right" 0 Right;
    HandleSpec.mk "right-1" 20 Right;
    HandleSpec.mk "bottom-0" 70 Bottom;
    HandleSpec.mk "bottom" 90 Bottom;
    HandleSpec.mk "bottom-1" 110 Bottom;
    HandleSpec.mk "left-0" 160 Left;
    HandleSpec.mk "left" 180 Left;
    HandleSpec.mk "left-1" 200 Left ].

(** The ids of the handles that [CircularNode] renders: the centre
    handles, and for every rim handle a source handle and a hidden target
    handle. *)
Definition sourceHandleIds : list string :=
  "center" :: map HandleSpec.id handles.

Definition targetHandleIds : list string :=
  "center-t" :: map (λ h, HandleSpec.id h ++ "-t") handles.

(** ** Undo and redo ([App])

    The history keeps snapshots of the node and edge collections.  [N] and
    [E] stand for the node and edge types of the canvas. *)

Module History.
Section History.
Context {N E : Type}.

Record Snapshot := mkSnapshot { snapNodes : list N; snapEdges : list E }.

Record t := mk {
  past : list Snapshot;
  future : list Snapshot;
  nodes : list N;
  edges : list E
}.

Definition current (h : t) : Snapshot :=
  {| snapNodes := nodes h; snapEdges := edges h |}.

Definition takeSnapshot (h : t) : t :=
  {| past := past h ++ [current h];
     future := [];
     nodes := nodes h;
     edges := edges h |}.

Definition undo (h : t) : t :=
  if bool_decide (length (past h) = 0) then h
  else
    match past h !! (length (past h) - 1) with
    | Some previousState =>
        {| past := take (length (past h) - 1) (past h);
           future := current h :: future h;
           nodes := snapNodes previousState;
           edges := snapEdges previousState |}
    | None => h
    end.

Definition redo (h : t) : t :=
  if bool_decide (length (future h) = 0) then h
  else
    match future h !! 0 with
    | Some nextState =>
        {| past := past h ++ [current h];
           future := drop 1 (future h);
           nodes := snapNodes nextState;
           edges := snapEdges nextState |}
    | None => h
    end.

(** An action that replaces the graph after taking a snapshot, as the
    auto-wire, delete, group and connect handlers do. *)
Definition act (newNodes : list N) (newEdges : list E) (h : t) : t :=
  let h' := takeSnapshot h in
  {| past := past h'; future := future h';
     nodes := newNodes; edges := newEdges |}.
End History.
Arguments Snapshot : clear implicits.
Arguments t : clear implicits.
End History.

(** ** The hierarchical layout ([getAutoLayoutedElements])

    The coordinates are computed by the graph layout library: [dagreNode]
    stands for the centre that it assigns to the node with a given id in
    the graph built from the states and transitions.  Everything else is
    computed here. *)

Module AutoEdgeData.
Record t := mk {
  isManual : bool;
  id : string;
  sourceLabel : option string;
  targetLabel : option string;
  condition : string;
  action : option string
}.
End AutoEdgeData.

Module AutoEdge.
Record t := mk {
  id : string;
  source : string;
  target : string;
  sourceHandle : string;
  targetHandle : string;
  type : string;
  label : string;
  zIndex : Z;
  data : AutoEdgeData.t
}.
End AutoEdge.

Section AutoLayout.
Variable dagreNode : FSMData.t → string → XYPosition.

Definition autoNode (fsmData : FSMData.t) (state : FSMState.t) : Node.t :=
  let nodeWithPosition := dagreNode fsmData (FSMState.id state) in
  {| Node.id := FSMState.id state;
     Node.type := "circular";
     Node.data :=
       {| NodeData.label :=
            JS.or_else (Some (FSMState.label state)) (FSMState.id state);
          NodeData.description := FSMState.description state;
          NodeData.isInitial :=
            Some (bool_decide (FSMState.type state = Some INITIAL)) |};
     Node.position := {| x := (x nodeWithPosition - 40)%R;
                         y := (y nodeWithPosition - 40)%R |};
     Node.sourcePosition := Some Bottom;
     Node.targetPosition := Some Top |}.

Definition autoNodes (fsmData : FSMData.t) : list Node.t :=
  map (autoNode fsmData) (FSMData.states fsmData).

Definition autoEdge (fsmData : FSMData.t) (i : nat) (trans : FSMTransition.t) : AutoEdge.t :=
  let src := FSMTransition.source trans in
  let tgt := FSMTransition.target trans in
  let numericLabel := pretty (i + 1) in
  let isSelfLoop := bool_decide (src = tgt) in
  {| AutoEdge.id := "auto_" ++ pretty i ++ "_" ++ src ++ "_" ++ tgt;
     AutoEdge.source := src;
     AutoEdge.target := tgt;
     AutoEdge.sourceHandle := if isSelfLoop then "right-0" else "bottom";
     AutoEdge.targetHandle := if isSelfLoop then "top-1-t" else "top";
     AutoEdge.type := "default";
     AutoEdge.label := numericLabel;
     AutoEdge.zIndex := 100;
     AutoEdge.data :=
       {| AutoEdgeData.isManual := true;
          AutoEdgeData.id := numericLabel;
          AutoEdgeData.sourceLabel :=
            (NodeData.label ∘ Node.data) <$>
              JS.find (λ n, Node.id n = src) (autoNodes fsmData);
          AutoEdgeData.targetLabel :=
            (NodeData.label ∘ Node.data) <$>
              JS.find (λ n, Node.id n = tgt) (autoNodes fsmData);
          AutoEdgeData.condition := FSMTransition.condition trans;
          AutoEdgeData.action := FSMTransition.action trans |} |}.

Definition autoEdges (fsmData : FSMData.t) : list AutoEdge.t :=
  imap (autoEdge fsmData) (FSMData.transitions fsmData).

Definition getAutoLayoutedElements (fsmData : FSMData.t)
    : list Node.t * list AutoEdge.t :=
  (autoNodes fsmData, autoEdges fsmData).
End AutoLayout.

(** ** The graph on the canvas ([App])

    A node on the canvas has, besides what the layouts give it, the fields
    that grouping reads and writes.  The interaction fields that [App] adds
    to the data of a node (the connect mode and the click handler) and the
    stroke styling of nodes and edges are outside the model. *)

Record BoxStyle := mkBoxStyle { boxWidth : R; boxHeight : R; boxZIndex : Z }.

Module CanvasNode.
Record t := mk {
  id : string;
  type : option string;
  data : NodeData.t;
  position : XYPosition;
  sourcePosition : option Position;
  targetPosition : option Position;
  parentNode : option string;
  extent : option string;
  selected : option bool;
  width : option R;
  height : option R;
  style : option BoxStyle
}.

Definition ofNode (n : Node.t) : t :=
  {| id := Node.id n;
     type := Some (Node.type n);
     data := Node.data n;
     position := Node.position n;
     sourcePosition := Node.sourcePosition n;
     targetPosition := Node.targetPosition n;
     parentNode := None;
     extent := None;
     selected := None;
     width := None;
     height := None;
     style := None |}.
End CanvasNode.

(** [v || d] for [v : number | undefined]: zero is falsy. *)
Definition numberOr (v : option R) (d : R) : R :=
  match v with
  | Some w => if decide (w = 0%R) then d else w
  | None => d
  end.

Definition PADDING : R := 40%R.

(** [Math.min(...)] and [Math.max(...)] of a list with first element
    [first]. *)
Definition minOf (first : R) (rest : list R) : R := foldr Rmin first rest.
Definition maxOf (first : R) (rest : list R) : R := foldr Rmax first rest.

Definition nodesToGroup (selectedNodeIds : list string) (nodes : list CanvasNode.t)
    : list CanvasNode.t :=
  filter (λ n, CanvasNode.id n ∈ selectedNodeIds
               ∧ CanvasNode.type n ≠ Some "group"
               ∧ JS.truthy (CanvasNode.parentNode n) = false) nodes.

Definition otherNodes (selectedNodeIds : list string) (nodes : list CanvasNode.t)
    : list CanvasNode.t :=
  filter (λ n, CanvasNode.id n ∉ selectedNodeIds) nodes.

Definition groupNode (groupId : string) (groupX groupY groupWidth groupHeight : R)
    : CanvasNode.t :=
  {| CanvasNode.id := groupId;
     CanvasNode.type := Some "group";
     CanvasNode.data := {| NodeData.label := "Cluster";
                           NodeData.description := None;
                           NodeData.isInitial := None |};
     CanvasNode.position := {| x := groupX; y := groupY |};
     CanvasNode.sourcePosition := None;
     CanvasNode.targetPosition := None;
     CanvasNode.parentNode := None;
     CanvasNode.extent := None;
     CanvasNode.selected := None;
     CanvasNode.width := None;
     CanvasNode.height := None;
     CanvasNode.style := Some {| boxWidth := groupWidth;
                                 boxHeight := groupHeight;
                                 boxZIndex := (-1)%Z |} |}.

Definition updatedChild (groupId : string) (groupX groupY : R) (node : CanvasNode.t)
    : CanvasNode.t :=
  {| CanvasNode.id := CanvasNode.id node;
     CanvasNode.type := CanvasNode.type node;
     CanvasNode.data := CanvasNode.data node;
     CanvasNode.position :=
       {| x := (x (CanvasNode.position node) - groupX)%R;
          y := (y (CanvasNode.position node) - groupY)%R |};
     CanvasNode.sourcePosition := CanvasNode.sourcePosition node;
     CanvasNode.targetPosition := CanvasNode.targetPosition node;
     CanvasNode.parentNode := Some groupId;
     CanvasNode.extent := Some "parent";
     CanvasNode.selected := Some false;
     CanvasNode.width := CanvasNode.width node;
     CanvasNode.height := CanvasNode.height node;
     CanvasNode.style := CanvasNode.style node |}.

Definition rightOf (n : CanvasNode.t) : R :=
  (x (CanvasNode.position n) + numberOr (CanvasNode.width n) 96)%R.

Definition bottomOf (n : CanvasNode.t) : R :=
  (y (CanvasNode.position n) + numberOr (CanvasNode.height n) 96)%R.

(** The node list that [handleGroupNodes] installs, or [None] when it
    returns without a change. *)
Definition groupedNodes (groupId : string) (selectedNodeIds : list string)
    (nodes : list CanvasNode.t) : option (list CanvasNode.t) :=
  match nodesToGroup selectedNodeIds nodes with
  | first :: (_ :: _) as rest =>
      let toGroup := first :: rest in
      let minX := minOf (x (CanvasNode.position first))
                        (map (λ n, x (CanvasNode.position n)) rest) in
      let maxX := maxOf (rightOf first) (map rightOf rest) in
      let minY := minOf (y (CanvasNode.position first))
                        (map (λ n, y (CanvasNode.position n)) rest) in
      let maxY := maxOf (bottomOf first) (map bottomOf rest) in
      let groupX := (minX - PADDING)%R in
      let groupY := (minY - PADDING)%R in
      let groupWidth := ((maxX - minX) + (PADDING * 2))%R in
      let groupHeight := ((maxY - minY) + (PADDING * 2))%R in
      Some (otherNodes selectedNodeIds nodes
            ++ groupNode groupId groupX groupY groupWidth groupHeight
               :: map (updatedChild groupId groupX groupY) toGroup)%list
  | _ => None
  end.

Definition restoredChild (group child : CanvasNode.t) : CanvasNode.t :=
  {| CanvasNode.id := CanvasNode.id child;
     CanvasNode.type := CanvasNode.type child;
     CanvasNode.data := CanvasNode.data child;
     CanvasNode.position :=
       {| x := (x (CanvasNode.position group) + x (CanvasNode.position child))%R;
          y := (y (CanvasNode.position group) + y (CanvasNode.position child))%R |};
     CanvasNode.sourcePosition := CanvasNode.sourcePosition child;
     CanvasNode.targetPosition := CanvasNode.targetPosition child;
     CanvasNode.parentNode := None;
     CanvasNode.extent := None;
     CanvasNode.selected := CanvasNode.selected child;
     CanvasNode.width := CanvasNode.width child;
     CanvasNode.height := CanvasNode.height child;
     CanvasNode.style := CanvasNode.style child |}.

(** One call of the [forEach] callback of [handleUngroupNodes]. *)
Definition ungroupStep (newNodes : list CanvasNode.t) (group : CanvasNode.t)
    : list CanvasNode.t :=
  let children :=
    filter (λ n, CanvasNode.parentNode n = Some (CanvasNode.id group)) newNodes in
  let restoredChildren := map (restoredChild group) children in
  (filter (λ n, CanvasNode.id n ≠ CanvasNode.id group
                ∧ CanvasNode.parentNode n ≠ Some (CanvasNode.id group)) newNodes
   ++ restoredChildren)%list.

Definition selectedGroups (selectedNodeIds : list string) (nodes : list CanvasNode.t)
    : list CanvasNode.t :=
  filter (λ n, CanvasNode.id n ∈ selectedNodeIds
               ∧ CanvasNode.type n = Some "group") nodes.

(** The node list that [handleUngroupNodes] installs, or [None] when it
    returns without a change. *)
Definition ungroupedNodes (selectedNodeIds : list string) (nodes : list CanvasNode.t)
    : option (list CanvasNode.t) :=
  match selectedGroups selectedNodeIds nodes with
  | [] => None
  | groups => Some (foldl ungroupStep nodes groups)
  end.

(** [{ ...e, data: { ...e.data, isStraight: v } }] *)
Definition withIsStraight (v : bool) (e : Edge.t) : Edge.t :=
  let d := Edge.data e in
  {| Edge.id := Edge.id e;
     Edge.source := Edge.source e;
     Edge.target := Edge.target e;
     Edge.type := Edge.type e;
     Edge.sourceHandle := Edge.sourceHandle e;
     Edge.targetHandle := Edge.targetHandle e;
     Edge.label := Edge.label e;
     Edge.zIndex := Edge.zIndex e;
     Edge.data :=
       {| EdgeData.isManual := EdgeData.isManual d;
          EdgeData.id := EdgeData.id d;
          EdgeData.sourceLabel := EdgeData.sourceLabel d;
          EdgeData.targetLabel := EdgeData.targetLabel d;
          EdgeData.condition := EdgeData.condition d;
          EdgeData.action := EdgeData.action d;
          EdgeData.isHubConnection := EdgeData.isHubConnection d;
          EdgeData.isSelfLoop := EdgeData.isSelfLoop d;
          EdgeData.isNeighbor := EdgeData.isNeighbor d;
          EdgeData.hubId := EdgeData.hubId d;
          EdgeData.siblingCount := EdgeData.siblingCount d;
          EdgeData.siblingIndex := EdgeData.siblingIndex d;
          EdgeData.isStraight := Some v |} |}.

(** [{ ...e, type: ty }] *)
Definition withType (ty : string) (e : Edge.t) : Edge.t :=
  {| Edge.id := Edge.id e;
     Edge.source := Edge.source e;
     Edge.target := Edge.target e;
     Edge.type := ty;
     Edge.sourceHandle := Edge.sourceHandle e;
     Edge.targetHandle := Edge.targetHandle e;
     Edge.label := Edge.label e;
     Edge.zIndex := Edge.zIndex e;
     Edge.data := Edge.data e |}.

(** The edge processing of [updateGraph] and [handleAutoWire]. *)
Definition processEdge (e : Edge.t) : Edge.t :=
  if bool_decide (Edge.type e = "radial") then withIsStraight false e else e.

(** The callback that [handleSetEdgeStyle] maps over the edges. *)
Definition styleEdge (useCurve : bool) (selectedEdgeIds : list string) (e : Edge.t)
    : Edge.t :=
  if bool_decide (Edge.id e ∉ selectedEdgeIds) then e
  else if bool_decide (Edge.type e = "radial")
  then withIsStraight (negb useCurve) e
  else if EdgeData.isManual (Edge.data e)
          && bool_decide (Edge.type e ≠ "radial")
          && bool_decide (Edge.type e ≠ "draggable")
          && bool_decide (Edge.type e ≠ "stub")
  then withType (if useCurve then "default" else "straight") e
  else e.

Module App.
Record t := mk {
  history : History.t CanvasNode.t Edge.t;
  currentFSMData : option FSMData.t;
  isCurved : bool;
  isConnectMode : bool;
  selectedEdgeIds : list string;
  selectedNodeIds : list string
}.
End App.

Definition updateGraph (data : FSMData.t) (st : App.t) : App.t :=
  let out := getRadialLayoutElements data in
  {| App.history :=
       {| History.past := [];
          History.future := [];
          History.nodes := map CanvasNode.ofNode (nodes out);
          History.edges := map processEdge (edges out) |};
     App.currentFSMData := Some data;
     App.isCurved := true;
     App.isConnectMode := false;
     App.selectedEdgeIds := App.selectedEdgeIds st;
     App.selectedNodeIds := App.selectedNodeIds st |}.

Definition handleAutoWire (st : App.t) : App.t :=
  match App.currentFSMData st with
  | None => st
  | Some data =>
      let out := getRadialLayoutElements data in
      {| App.history :=
           History.act (map CanvasNode.ofNode (nodes out))
                       (map processEdge (edges out)) (App.history st);
         App.currentFSMData := App.currentFSMData st;
         App.isCurved := true;
         App.isConnectMode := false;
         App.selectedEdgeIds := App.selectedEdgeIds st;
         App.selectedNodeIds := App.selectedNodeIds st |}
  end.

Definition withHistory (h : History.t CanvasNode.t Edge.t) (st : App.t) : App.t :=
  {| App.history := h;
     App.currentFSMData := App.currentFSMData st;
     App.isCurved := App.isCurved st;
     App.isConnectMode := App.isConnectMode st;
     App.selectedEdgeIds := App.selectedEdgeIds st;
     App.selectedNodeIds := App.selectedNodeIds st |}.

Definition handleSetEdgeStyle (useCurve : bool) (st : App.t) : App.t :=
  let h := App.history st in
  {| App.history :=
       if bool_decide (0 < length (App.selectedEdgeIds st))
       then History.act (History.nodes h)
                        (map (styleEdge useCurve (App.selectedEdgeIds st))
                             (History.edges h)) h
       else h;
     App.currentFSMData := App.currentFSMData st;
     App.isCurved := useCurve;
     App.isConnectMode := App.isConnectMode st;
     App.selectedEdgeIds := App.selectedEdgeIds st;
     App.selectedNodeIds := App.selectedNodeIds st |}.

(** [now] is the value of [Date.now()]. *)
Definition handleGroupNodes (now : nat) (st : App.t) : App.t :=
  let h := App.history st in
  match groupedNodes ("group-" ++ pretty now) (App.selectedNodeIds st)
                     (History.nodes h) with
  | Some newNodes => withHistory (History.act newNodes (History.edges h) h) st
  | None => st
  end.

Definition handleUngroupNodes (st : App.t) : App.t :=
  let h := App.history st in
  match ungroupedNodes (App.selectedNodeIds st) (History.nodes h) with
  | Some newNodes => withHistory (History.act newNodes (History.edges h) h) st
  | None => st
  end.

Definition handleDeleteSelected (st : App.t) : App.t :=
  let h := App.history st in
  if bool_decide (length (App.selectedEdgeIds st) = 0
                  ∧ length (App.selectedNodeIds st) = 0) then st
  else
    {| App.history :=
         History.act
           (filter (λ n, CanvasNode.id n ∉ App.selectedNodeIds st) (History.nodes h))
           (filter (λ e, Edge.id e ∉ App.selectedEdgeIds st) (History.edges h)) h;
       App.currentFSMData := App.currentFSMData st;
       App.isCurved := App.isCurved st;
       App.isConnectMode := App.isConnectMode st;
       App.selectedEdgeIds := [];
       App.selectedNodeIds := [] |}.

(** [onSelectionChange], with the ids of the selected edges and nodes. *)
Definition onSelectionChange (edgeIds nodeIds : list string) (st : App.t) : App.t :=
  {| App.history := App.history st;
     App.currentFSMData := App.currentFSMData st;
     App.isCurved := App.isCurved st;
     App.isConnectMode := App.isConnectMode st;
     App.selectedEdgeIds := edgeIds;
     App.selectedNodeIds := nodeIds |}.

(** ** Highlighting on hover ([displayNodes], [displayEdges]) *)

Record HoverSets := mkHoverSets {
  neighborIds : gset string;
  connectedEdgeIds : gset string
}.

(** One call of the [forEach] callback that fills the two sets. *)
Definition hoverStep (hoveredNodeId : string) (sets : HoverSets) (edge : Edge.t)
    : HoverSets :=
  if bool_decide (Edge.source edge = hoveredNodeId) then
    {| neighborIds := {[ Edge.target edge ]} ∪ neighborIds sets;
       connectedEdgeIds := {[ Edge.id edge ]} ∪ connectedEdgeIds sets |}
  else if bool_decide (Edge.target edge = hoveredNodeId) then
    {| neighborIds := {[ Edge.source edge ]} ∪ neighborIds sets;
       connectedEdgeIds := {[ Edge.id edge ]} ∪ connectedEdgeIds sets |}
  else sets.

Definition hoverSets (hoveredNodeId : string) (edges : list Edge.t) : HoverSets :=
  foldl (hoverStep hoveredNodeId)
        {| neighborIds := ∅; connectedEdgeIds := ∅ |} edges.

(** The opacity given to a node and to an edge; [hoveredNodeId] is [None]
    when no node is hovered. *)
Definition nodeOpacity (hoveredNodeId : option string) (edges : list Edge.t)
    (node : CanvasNode.t) : R :=
  if negb (JS.truthy hoveredNodeId) then 1%R
  else
    let hovered := default "" hoveredNodeId in
    let isHighlight :=
      bool_decide (CanvasNode.id node = hovered)
      || bool_decide (CanvasNode.id node ∈ neighborIds (hoverSets hovered edges))
      || bool_decide (CanvasNode.type node = Some "group") in
    if isHighlight then 1%R else 0.2%R.

Definition edgeOpacity (hoveredNodeId : option string) (edges : list Edge.t)
    (edge : Edge.t) : R :=
  if negb (JS.truthy hoveredNodeId) then 1%R
  else
    let hovered := default "" hoveredNodeId in
    let isConnected :=
      bool_decide (Edge.id edge ∈ connectedEdgeIds (hoverSets hovered edges)) in
    if isConnected then 1%R else 0.1%R.

(** ** Vocabulary of the specification *)

(** Two labels are equal up to letter case. *)
Definition equalIgnoringCase (a b : string) : Prop :=
  JS.toUpperCase a = JS.toUpperCase b.

(** A label matches the reset/idle vocabulary. *)
Definition matchesHubLabel (l : string) : Prop :=
  ∃ w, w ∈ hubLabels ∧ equalIgnoringCase l w.

Definition degree (fsmData : FSMData.t) (s : FSMState.t) : nat :=
  getDegree (FSMState.id s) (FSMData.transitions fsmData).

(** [h], at position [i] of the state list, is the first state whose label
    matches the vocabulary. *)
Definition FirstLabelMatch (fsmData : FSMData.t) (i : nat) (h : FSMState.t) : Prop :=
  FSMData.states fsmData !! i = Some h
  ∧ matchesHubLabel (FSMState.label h)
  ∧ ∀ j s, j < i → FSMData.states fsmData !! j = Some s →
           ¬ matchesHubLabel (FSMState.label s).

(** [h], at position [i], has maximal degree and is the first such state. *)
Definition FirstMaxDegree (fsmData : FSMData.t) (i : nat) (h : FSMState.t) : Prop :=
  FSMData.states fsmData !! i = Some h
  ∧ (∀ s, s ∈ FSMData.states fsmData → degree fsmData s ≤ degree fsmData h)
  ∧ ∀ j s, j < i → FSMData.states fsmData !! j = Some s →
           degree fsmData s < degree fsmData h.

(** The hub designation of the specification: the hub id is the id of the
    first label match if there is one, and of the first state of maximal
    degree otherwise. *)
Definition HubDesignation (fsmData : FSMData.t) : Prop :=
  ∃ i h, hubId fsmData = Some (FSMState.id h)
         ∧ (FirstLabelMatch fsmData i h
            ∨ ((∀ s, s ∈ FSMData.states fsmData → ¬ matchesHubLabel (FSMState.label s))
               ∧ FirstMaxDegree fsmData i h)).

(** The comparator [(a, b) => key(b) - key(a)]: descending by [key]. *)
Definition byKeyDesc {A : Type} (key : A → nat) (a b : A) : Z :=
  (Z.of_nat (key b) - Z.of_nat (key a))%Z.

(** The loop leaves state [s] with the final variables [r]: either the
    guard fails at [s], or the pass from [s] runs into the [break]. *)
Definition RimExit (fsmData : FSMData.t) (s r : RimLoop) : Prop :=
  (¬ rimGuard fsmData s ∧ r = s)
  ∨ (rimGuard fsmData s ∧ rimBody fsmData s = inr r).

(** The states in which the loop guard is evaluated during a layout. *)
Inductive rimReach (fsmData : FSMData.t) : RimLoop → Prop :=
  | rimReach_init first rest :
      rimNodes fsmData = first :: rest →
      rimReach fsmData (rimInit fsmData first)
  | rimReach_step s s' :
      rimReach fsmData s → rimGuard fsmData s → rimBody fsmData s = inl s' →
      rimReach fsmData s'.

(** Every id that the traversal can meet: ids of states and ids named as
    the target of a transition. *)
Definition idUniverse (fsmData : FSMData.t) : gset string :=
  list_to_set (FSMState.id <$> FSMData.states fsmData)
  ∪ list_to_set (FSMTransition.target <$> FSMData.transitions fsmData).

(** Rim sorting by the fuel-bounded loop, with as many iterations allowed
    as there are rim nodes. *)
Definition rimSortingRun (fsmData : FSMData.t) : option (list FSMState.t) :=
  match rimNodes fsmData with
  | [] => Some []
  | first :: _ =>
      sortedRimNodes <$>
        rimRun fsmData (length (rimNodes fsmData)) (rimInit fsmData first)
  end.

(** What holds of the loop variables whenever the guard is evaluated. *)
Record RimInv (fsmData : FSMData.t) (s : RimLoop) : Prop := mkRimInv {
  inv_nodup : NoDup (FSMState.id <$> sortedRimNodes s);
  inv_sorted_visited : ∀ n, n ∈ sortedRimNodes s → FSMState.id n ∈ visited s;
  inv_sorted_rim : ∀ n, n ∈ sortedRimNodes s → n ∈ rimNodes fsmData;
  inv_universe : visited s ⊆ idUniverse fsmData
}.

(** Well-formed input: state ids are pairwise distinct, and every
    transition targets an existing state. *)
Definition uniqueIds (fsmData : FSMData.t) : Prop :=
  NoDup (FSMState.id <$> FSMData.states fsmData).

Definition targetsExist (fsmData : FSMData.t) : Prop :=
  ∀ t, t ∈ FSMData.transitions fsmData →
       FSMTransition.target t ∈ (FSMState.id <$> FSMData.states fsmData).

(** What ECMAScript requires of [Array.prototype.sort] when the comparator
    is [byKeyDesc key]: the result is in descending order of [key], and the
    sort is stable, that is, for every key value the elements with that key
    are the same, in the same order, as in the input. *)
Record SortsByKeyDesc {A : Type} (key : A → nat) (srt : list A → list A) : Prop :=
  mkSortsByKeyDesc {
    sort_descending : ∀ l, StronglySorted (λ a b, key b ≤ key a) (srt l);
    sort_stable : ∀ l k, filter (λ a, key a = k) (srt l) = filter (λ a, key a = k) l
  }.

(** The first and the last point of a path. *)
Definition pathStart (p : list PathCommand) : option (R * R) :=
  match p with
  | MoveTo px py :: _ => Some (px, py)
  | _ => None
  end.

Definition pathEnd (p : list PathCommand) : option (R * R) :=
  match last p with
  | Some (MoveTo px py) | Some (LineTo px py)
  | Some (QuadTo _ _ px py) | Some (CubicTo _ _ _ _ px py) => Some (px, py)
  | None => None
  end.

Definition distance (p q : R * R) : R :=
  sqrt ((p.1 - q.1) * (p.1 - q.1) + (p.2 - q.2) * (p.2 - q.2)).

(** The number of transitions in [l] with the endpoints of [t], and with
    the grouping key of [t]. *)
Definition countPair (t : FSMTransition.t) (l : list FSMTransition.t) : nat :=
  length (filter (λ t', FSMTransition.source t' = FSMTransition.source t
                        ∧ FSMTransition.target t' = FSMTransition.target t) l).

Definition countKey (key : string) (l : list FSMTransition.t) : nat :=
  length (filter (λ t', edgeKey t' = key) l).

(** Transitions with the same grouping key have the same endpoints. *)
Definition keysSeparatePairs (fsmData : FSMData.t) : Prop :=
  ∀ t1 t2, t1 ∈ FSMData.transitions fsmData → t2 ∈ FSMData.transitions fsmData →
           edgeKey t1 = edgeKey t2 →
           FSMTransition.source t1 = FSMTransition.source t2
           ∧ FSMTransition.target t1 = FSMTransition.target t2.

(** The string [s] contains the separator of the grouping key. *)
Definition containsArrow (s : string) : Prop :=
  ∃ p q, s = p ++ "->" ++ q.

(** The tables after the pre-processing pass has seen the transitions
    [pre]: a key seen [c > 0] times is mapped to [c], and the id of edge [j]
    is mapped to the number of earlier transitions with the key of
    transition [j]. *)
Definition TablesFor (pre : list FSMTransition.t) (tabs : EdgeTables) : Prop :=
  (∀ key, edgeGroups tabs !! key =
          if decide (countKey key pre = 0) then None else Some (countKey key pre))
  ∧ ∀ j, edgeIndices tabs !! edgeId j =
         (λ t, countKey (edgeKey t) (take j pre)) <$> pre !! j.

(** The sum of the curvature offsets of a group of [count] siblings. *)
Definition offsetSum (count : nat) (spacing : R) : R :=
  foldr Rplus 0%R
        ((λ index, getMultiEdgeCurvatureOffset index count (Some spacing))
           <$> seq 0 count).

(** The greedy rule that links a rim node [a] to its successor [b] on the
    ring, [placed] being the ring up to and including [a]: [b] is the target
    of the first transition out of [a] that leads to a non-hub state not yet
    placed, and the first rim node not yet placed when [a] has no such
    transition. *)
Definition ChainStep (fsmData : FSMData.t) (placed : list FSMState.t)
    (a b : FSMState.t) : Prop :=
  match neighbors fsmData (list_to_set (FSMState.id <$> placed)) (FSMState.id a) with
  | next :: _ => FSMState.id b = next
  | [] =>
      JS.find (λ n, FSMState.id n ∉ (list_to_set (FSMState.id <$> placed) : gset string))
              (rimNodes fsmData) = Some b
  end.

(** Every rim node of [l] is linked to its successor by the greedy rule. *)
Definition GreedyChain (fsmData : FSMData.t) (l : list FSMState.t) : Prop :=
  ∀ k a b, l !! k = Some a → l !! S k = Some b →
           ChainStep fsmData (take (S k) l) a b.

(** The current id of the loop is the one that the greedy rule selects
    after the rim node placed last. *)
Definition ChainPending (fsmData : FSMData.t) (s : RimLoop) : Prop :=
  match last (sortedRimNodes s) with
  | None => True
  | Some a =>
      match neighbors fsmData (visited s) (FSMState.id a) with
      | next :: _ => currentId s = next
      | [] => ∃ u, JS.find (λ n, FSMState.id n ∉ visited s) (rimNodes fsmData) = Some u
                   ∧ currentId s = FSMState.id u
      end
  end.

(** The character [c] does not occur in [s]. *)
Fixpoint avoids (c : ascii) (s : string) : Prop :=
  match s with
  | EmptyString => True
  | String d s' => d ≠ c ∧ avoids c s'
  end.

(** The half of the node in which a handle declared on [side] is expected. *)
Definition inHalf (side : Position) (p : R * R) : Prop :=
  match side with
  | Top => (snd p < handleC)%R
  | Bottom => (handleC < snd p)%R
  | Left => (fst p < handleC)%R
  | Right => (handleC < fst p)%R
  end.

(** A grouped node after its group has been dissolved again: it is the
    node as it was, outside every group and not selected. *)
Definition released (n : CanvasNode.t) : CanvasNode.t :=
  {| CanvasNode.id := CanvasNode.id n;
     CanvasNode.type := CanvasNode.type n;
     CanvasNode.data := CanvasNode.data n;
     CanvasNode.position := CanvasNode.position n;
     CanvasNode.sourcePosition := CanvasNode.sourcePosition n;
     CanvasNode.targetPosition := CanvasNode.targetPosition n;
     CanvasNode.parentNode := None;
     CanvasNode.extent := None;
     CanvasNode.selected := Some false;
     CanvasNode.width := CanvasNode.width n;
     CanvasNode.height := CanvasNode.height n;
     CanvasNode.style := CanvasNode.style n |}.

(** The id of a new group is fresh when no node has it as its id or as
    its parent. *)
Definition freshGroupId (groupId : string) (nodes : list CanvasNode.t) : Prop :=
  ∀ n, n ∈ nodes →
       CanvasNode.id n ≠ groupId ∧ CanvasNode.parentNode n ≠ Some groupId.

(** ** Sample inputs *)

Definition state (i l : string) : FSMState.t :=
  {| FSMState.id := i; FSMState.label := l;
     FSMState.type := None; FSMState.description := None |}.

Definition transition (s t : string) : FSMTransition.t :=
  {| FSMTransition.source := s; FSMTransition.target := t;
     FSMTransition.condition := ""; FSMTransition.action := None |}.

Definition fsm (ss : list FSMState.t) (ts : list FSMTransition.t) : FSMData.t :=
  {| FSMData.moduleName := "m"; FSMData.clockSignal := None;
     FSMData.resetSignal := None; FSMData.states := ss; FSMData.transitions := ts |}.

(** Scenario A of the specification. *)
Definition scenarioA : FSMData.t :=
  fsm [state "idle" "IDLE"; state "run" "RUN"; state "done" "DONE"]
      [transition "idle" "run"; transition "run" "done"; transition "done" "idle"].

(** A state labelled [IDLE] whose id is the empty string. *)
Definition emptyIdIdle : FSMData.t :=
  fsm [state "" "IDLE"; state "b" "BUSY"] [transition "b" "b"].

Definition scenarioAInit : RimLoop := rimInit scenarioA (state "run" "RUN").

(** A transition whose target is not a state. *)
Definition danglingTarget : FSMData.t :=
  fsm [state "h" "IDLE"; state "a" "A"; state "b" "B"] [transition "a" "x"].

(** Two states with the same id. *)
Definition duplicateIds : FSMData.t :=
  fsm [state "h" "IDLE"; state "a" "A"; state "a" "B"] [].

(** A self-loop on the hub. *)
Definition hubSelfLoop : FSMData.t :=
  fsm [state "idle" "IDLE"] [transition "idle" "idle"].

(** Two transitions with different endpoints and the same grouping key. *)
Definition collidingKeys : FSMData.t :=
  fsm [state "a" "A"; state "b->c" "B"; state "a->b" "C"; state "c" "D"]
      [transition "a" "b->c"; transition "a->b" "c"].

(** Scenario C of the specification. *)
Definition scenarioC : FSMData.t :=
  fsm [state "a" "A"; state "b" "B"]
      [transition "a" "b"; transition "a" "b"; transition "a" "b"].

(** Four nodes on the canvas; [c] already belongs to a group. *)
Definition canvasNode (id : string) (px py : R) (parent : option string)
    : CanvasNode.t :=
  {| CanvasNode.id := id;
     CanvasNode.type := Some "circular";
     CanvasNode.data := {| NodeData.label := id;
                           NodeData.description := None;
                           NodeData.isInitial := None |};
     CanvasNode.position := {| x := px; y := py |};
     CanvasNode.sourcePosition := None;
     CanvasNode.targetPosition := None;
     CanvasNode.parentNode := parent;
     CanvasNode.extent := None;
     CanvasNode.selected := None;
     CanvasNode.width := None;
     CanvasNode.height := None;
     CanvasNode.style := None |}.

Definition sampleCanvas : list CanvasNode.t :=
  [canvasNode "a" 0 0 None; canvasNode "b" 200 100 None;
   canvasNode "c" 50 50 (Some "old"); canvasNode "d" 500 500 None].

Definition sampleSelection : list string := ["a"; "b"; "c"].

(** The editor before anything has been visualised. *)
Definition emptyApp : App.t :=
  {| App.history := {| History.past := []; History.future := [];
                       History.nodes := []; History.edges := [] |};
     App.currentFSMData := None;
     App.isCurved := true;
     App.isConnectMode := false;
     App.selectedEdgeIds := [];
     App.selectedNodeIds := [] |}.

(** * Properties *)

(** ** Properties of the built-ins *)

Lemma toUpperCase_hubLabels w : w ∈ hubLabels → JS.toUpperCase w = w.
Proof.
  unfold hubLabels. rewrite !elem_of_cons, elem_of_nil.
  intros [->|[->|[->|[->|[->|[]]]]]]; reflexivity.
Qed.

Lemma matchesHubLabel_toUpperCase l :
  matchesHubLabel l ↔ JS.toUpperCase l ∈ hubLabels.
Proof.
  unfold matchesHubLabel, equalIgnoringCase. split.
  - intros (w & Hw & Heq). rewrite Heq, toUpperCase_hubLabels; done.
  - intros Hin. exists (JS.toUpperCase l). split; [done|].
    by rewrite (toUpperCase_hubLabels _ Hin).
Qed.

Lemma truthy_Some v : JS.truthy v = true ↔ ∃ s, v = Some s ∧ s ≠ "".
Proof.
  destruct v as [s|]; simpl.
  - rewrite negb_true_iff, String.eqb_neq. split; [eauto|].
    by intros (? & [= <-] & ?).
  - split; [done|]. by intros (? & ? & _).
Qed.

Lemma find_Some {A} (P : A → Prop) `{!∀ x, Decision (P x)} (l : list A) a :
  JS.find P l = Some a ↔
  ∃ i, l !! i = Some a ∧ P a ∧ ∀ j b, l !! j = Some b → j < i → ¬ P b.
Proof.
  unfold JS.find. split.
  - destruct (list_find P l) as [[i b]|] eqn:Hf; [|done].
    simpl. intros [= ->]. apply list_find_Some in Hf. eauto.
  - intros (i & Hf).
    assert (list_find P l = Some (i, a)) as -> by (by apply list_find_Some).
    done.
Qed.

Lemma find_None {A} (P : A → Prop) `{!∀ x, Decision (P x)} (l : list A) :
  JS.find P l = None ↔ ∀ a, a ∈ l → ¬ P a.
Proof.
  unfold JS.find. rewrite fmap_None, list_find_None, Forall_forall. done.
Qed.

Section SortHead.
Context {A : Type} (key : A → nat).

Lemma head_sort_insert x l :
  head (JS.sort_insert (byKeyDesc key) x l) =
  match head l with
  | None => Some x
  | Some m => if decide (key m ≤ key x) then Some x else Some m
  end.
Proof.
  destruct l as [|m l]; simpl; [done|]. unfold byKeyDesc.
  destruct (Z.leb_spec (Z.of_nat (key m) - Z.of_nat (key x)) 0);
    destruct (decide (key m ≤ key x)); simpl; try done; lia.
Qed.

Lemma sort_nil_inv l : JS.sort (byKeyDesc key) l = [] → l = [].
Proof.
  destruct l as [|x l]; [done|]. simpl.
  destruct (JS.sort (byKeyDesc key) l) as [|m s]; simpl; [done|].
  destruct (_ <=? _)%Z; done.
Qed.

(** The head of the sorted list is the first element of maximal key. *)
Lemma head_sort_first_max l h :
  head (JS.sort (byKeyDesc key) l) = Some h →
  ∃ i, l !! i = Some h
       ∧ (∀ s, s ∈ l → key s ≤ key h)
       ∧ ∀ j s, j < i → l !! j = Some s → key s < key h.
Proof.
  revert h. induction l as [|x l IH]; intros h; [done|].
  simpl. rewrite head_sort_insert.
  destruct (head (JS.sort (byKeyDesc key) l)) as [m|] eqn:Hm.
  - destruct (IH m eq_refl) as (i & Hi & Hmax & Hfirst).
    destruct (decide (key m ≤ key x)); intros [= <-].
    + exists 0. split_and!; [done| |intros; lia].
      intros s [->|Hs]%elem_of_cons; [lia|]. specialize (Hmax s Hs). lia.
    + exists (S i). split_and!; [done| |].
      * intros s [->|Hs]%elem_of_cons; [lia|auto].
      * intros [|j] s Hj Hs; simplify_eq/=; [lia|]. eapply Hfirst; [|done]. lia.
  - intros [= <-]. apply head_None, sort_nil_inv in Hm as ->.
    exists 0. split_and!; [done| |intros; lia].
    intros s ->%list_elem_of_singleton. lia.
Qed.

Lemma head_sort_is_Some l : l ≠ [] → is_Some (head (JS.sort (byKeyDesc key) l)).
Proof.
  destruct l as [|x l]; [done|]. intros _. simpl. rewrite head_sort_insert.
  destruct (head _); [destruct (decide _)|]; eauto.
Qed.
End SortHead.

(** ** Hub detection *)

Lemma sortedByDegree_eq fsmData :
  sortedByDegree fsmData = JS.sort (byKeyDesc (degree fsmData)) (FSMData.states fsmData).
Proof. reflexivity. Qed.

Lemma hubByLabel_Some fsmData v :
  hubByLabel fsmData = Some v ↔
  ∃ i h, FirstLabelMatch fsmData i h ∧ v = FSMState.id h.
Proof.
  unfold hubByLabel, FirstLabelMatch. rewrite fmap_Some. split.
  - intros (h & (i & Hi & Hm & Hfirst)%find_Some & ->). exists i, h.
    split_and!; [done|by apply matchesHubLabel_toUpperCase| |done].
    intros j s Hj Hs Hms%matchesHubLabel_toUpperCase. by eapply Hfirst.
  - intros (i & h & (Hi & Hm & Hfirst) & ->). exists h. split; [|done].
    apply find_Some. exists i.
    split_and!; [done|by apply matchesHubLabel_toUpperCase|].
    intros j s Hs Hj Hms%matchesHubLabel_toUpperCase. by eapply Hfirst.
Qed.

Lemma hubByLabel_None fsmData :
  hubByLabel fsmData = None ↔
  ∀ s, s ∈ FSMData.states fsmData → ¬ matchesHubLabel (FSMState.label s).
Proof.
  unfold hubByLabel. rewrite fmap_None, find_None.
  by setoid_rewrite matchesHubLabel_toUpperCase.
Qed.

(** The id chosen by the degree fallback. *)
Lemma hubByDegree_Some fsmData h :
  head (sortedByDegree fsmData) = Some h → ∃ i, FirstMaxDegree fsmData i h.
Proof. rewrite sortedByDegree_eq. apply head_sort_first_max. Qed.

Lemma hubId_None fsmData : hubId fsmData = None ↔ FSMData.states fsmData = [].
Proof.
  unfold hubId. split.
  - destruct (JS.truthy _) eqn:Ht.
    + apply truthy_Some in Ht as (s & -> & _). done.
    + rewrite fmap_None, sortedByDegree_eq. intros Hh.
      destruct (FSMData.states fsmData) as [|s l] eqn:Hs; [done|].
      destruct (head_sort_is_Some (degree fsmData) (s :: l)) as [m Hm]; [done|].
      congruence.
  - intros Hs. unfold hubByLabel, sortedByDegree. rewrite Hs. reflexivity.
Qed.

Lemma hubId_in_states fsmData v :
  hubId fsmData = Some v →
  ∃ s, s ∈ FSMData.states fsmData ∧ FSMState.id s = v.
Proof.
  unfold hubId. destruct (JS.truthy _).
  - intros (i & h & (Hi & _) & ->)%hubByLabel_Some.
    exists h. split; [|done]. by eapply list_elem_of_lookup_2.
  - intros (h & (i & Hi & _)%hubByDegree_Some & ->)%fmap_Some.
    exists h. split; [|done]. by eapply list_elem_of_lookup_2.
Qed.

(** When no state id is the empty string, the hub is designated as the
    specification says. *)
Lemma hubId_designation fsmData :
  FSMData.states fsmData ≠ [] →
  (∀ s, s ∈ FSMData.states fsmData → FSMState.id s ≠ "") →
  HubDesignation fsmData.
Proof.
  intros Hne Hids. unfold HubDesignation.
  destruct (hubByLabel fsmData) as [v|] eqn:Hl.
  - pose proof Hl as (i & h & Hfirst & ->)%hubByLabel_Some.
    exists i, h. split; [|by left].
    unfold hubId. rewrite Hl. simpl.
    destruct (String.eqb_spec (FSMState.id h) "") as [Hid|_]; [|done].
    exfalso. apply (Hids h); [|done].
    destruct Hfirst as (Hi & _). by eapply list_elem_of_lookup_2.
  - destruct (hubId fsmData) as [v|] eqn:Hh; [|by apply hubId_None in Hh].
    unfold hubId in Hh. rewrite Hl in Hh. simpl in Hh.
    apply fmap_Some in Hh as (h & Hhead & ->).
    apply hubByDegree_Some in Hhead as (i & Hi).
    exists i, h. split; [done|]. right. split; [|done].
    by apply hubByLabel_None.
Qed.

(** C1: the designation of the specification fails when the labelled
    state's id is the empty string: the falsy id makes the code fall through
    to the degree ranking, which picks the busier state [b] although the
    first state is labelled [IDLE]. *)
Theorem hub_label_priority_lost_on_empty_id :
  hubId emptyIdIdle = Some "b"
  ∧ FirstLabelMatch emptyIdIdle 0 (state "" "IDLE")
  ∧ ¬ HubDesignation emptyIdIdle.
Proof.
  assert (Hidle : matchesHubLabel "IDLE").
  { apply matchesHubLabel_toUpperCase. vm_compute. left. }
  split_and!.
  - vm_compute. reflexivity.
  - split_and!; [done|done|]. intros j s Hj. lia.
  - intros (i & h & Hhub & [(Hi & Hm & _)|[Hno _]]).
    + assert (hubId emptyIdIdle = Some "b") as Hb by (vm_compute; reflexivity).
      rewrite Hb in Hhub. injection Hhub as Hid.
      destruct i as [|[|i]]; simplify_eq/=.
      apply matchesHubLabel_toUpperCase in Hm. revert Hm.
      refine (proj1 (bool_decide_eq_false _) _). vm_compute. reflexivity.
    + apply (Hno (state "" "IDLE")); [left|done].
Qed.

(** ** The greedy chain traversal *)

Lemma rimWhile_eq fsmData st :
  rimWhile fsmData st =
  if decide (rimGuard fsmData st) then
    match rimBody fsmData st with
    | inl st' => rimWhile fsmData st'
    | inr st' => st'
    end
  else st.
Proof.
  funelim (rimWhile fsmData st); rewrite Heq; [done| |];
    clear Heq; by rewrite Hb.
Qed.

(** The invariant rule of the loop. *)
Lemma rimWhile_exit fsmData (I : RimLoop → Prop) st :
  (∀ s s', I s → rimGuard fsmData s → rimBody fsmData s = inl s' → I s') →
  I st →
  ∃ s, I s ∧ RimExit fsmData s (rimWhile fsmData st).
Proof.
  intros Hstep. funelim (rimWhile fsmData st); intros HI.
  - exists st. split; [done|]. by left.
  - apply H; [done|]. by eapply Hstep.
  - exists st. split; [done|]. by right.
Qed.

Lemma rimNodes_spec fsmData n :
  n ∈ rimNodes fsmData ↔
  n ∈ FSMData.states fsmData ∧ Some (FSMState.id n) ≠ hubId fsmData.
Proof. unfold rimNodes. rewrite list_elem_of_filter. tauto. Qed.

Lemma id_in_universe fsmData n :
  n ∈ FSMData.states fsmData → FSMState.id n ∈ idUniverse fsmData.
Proof.
  intros Hn. unfold idUniverse. apply elem_of_union_l, elem_of_list_to_set.
  by apply list_elem_of_fmap_2.
Qed.

Lemma target_in_universe fsmData t :
  t ∈ FSMData.transitions fsmData → FSMTransition.target t ∈ idUniverse fsmData.
Proof.
  intros Ht. unfold idUniverse. apply elem_of_union_r, elem_of_list_to_set.
  by apply list_elem_of_fmap_2.
Qed.

Lemma neighbors_spec fsmData vis cur i :
  i ∈ neighbors fsmData vis cur ↔
  ∃ t, t ∈ FSMData.transitions fsmData
       ∧ FSMTransition.source t = cur ∧ FSMTransition.target t = i
       ∧ (i ∉ vis) ∧ Some i ≠ hubId fsmData.
Proof.
  unfold neighbors. rewrite list_elem_of_fmap. split.
  - intros (t & -> & (Hp & Ht)%list_elem_of_filter). exists t. tauto.
  - intros (t & Ht & Hs & <- & Hv & Hh). exists t. split; [done|].
    apply list_elem_of_filter. tauto.
Qed.

(** The effect of "add current" on a current id that is not yet visited. *)
Lemma addCurrent_fresh fsmData s :
  currentId s ∉ visited s →
  visited (addCurrent fsmData s) = {[currentId s]} ∪ visited s
  ∧ currentId (addCurrent fsmData s) = currentId s
  ∧ (sortedRimNodes (addCurrent fsmData s) = sortedRimNodes s
       ∧ (∀ n, n ∈ rimNodes fsmData → FSMState.id n ≠ currentId s)
     ∨ ∃ node, sortedRimNodes (addCurrent fsmData s)
               = (sortedRimNodes s ++ [node])%list
               ∧ JS.find (λ n, FSMState.id n = currentId s) (rimNodes fsmData)
                 = Some node).
Proof.
  intros Hc. unfold addCurrent. rewrite decide_False by done. simpl.
  split_and!; [done|done|].
  destruct (JS.find _ _) as [node|] eqn:Hf.
  - right. eauto.
  - left. split; [done|]. exact (proj1 (find_None _ _) Hf).
Qed.

(** The two ways out of a pass through the loop body. *)
Lemma rimBody_inl fsmData s s' :
  rimBody fsmData s = inl s' →
  visited s' = visited (addCurrent fsmData s)
  ∧ sortedRimNodes s' = sortedRimNodes (addCurrent fsmData s)
  ∧ (currentId s' ∉ visited s')
  ∧ ((∃ t, t ∈ FSMData.transitions fsmData
           ∧ FSMTransition.target t = currentId s'
           ∧ Some (currentId s') ≠ hubId fsmData)
     ∨ ∃ n, n ∈ rimNodes fsmData ∧ FSMState.id n = currentId s').
Proof.
  unfold rimBody. cbv zeta.
  destruct (neighbors _ _ _) as [|next l] eqn:Hn.
  - destruct (JS.find _ _) as [u|] eqn:Hu; [|done].
    intros [= <-]. simpl. apply find_Some in Hu as (i & Hi & Hv & _).
    split_and!; [done|done|done|]. right. exists u. split; [|done].
    by eapply list_elem_of_lookup_2.
  - intros [= <-]. simpl.
    assert (next ∈ neighbors fsmData (visited (addCurrent fsmData s))
                             (currentId (addCurrent fsmData s))) as Hm
      by (rewrite Hn; left).
    apply neighbors_spec in Hm as (t & Ht & _ & Htgt & Hv & Hh).
    split_and!; [done|done|done|]. left. eauto.
Qed.

Lemma rimBody_inr fsmData s r :
  rimBody fsmData s = inr r →
  r = addCurrent fsmData s
  ∧ ∀ n, n ∈ rimNodes fsmData → FSMState.id n ∈ visited r.
Proof.
  unfold rimBody. cbv zeta.
  destruct (neighbors _ _ _) as [|next l]; [|done].
  destruct (JS.find _ _) as [u|] eqn:Hu; [done|].
  intros [= <-]. split; [done|]. intros n Hn.
  pose proof (proj1 (find_None _ _) Hu n Hn) as Hv.
  by apply dec_stable in Hv.
Qed.

Lemma rimInit_current fsmData first rest :
  rimNodes fsmData = first :: rest →
  ∃ n, n ∈ rimNodes fsmData ∧ FSMState.id n = currentId (rimInit fsmData first).
Proof.
  intros Hrim. unfold rimInit. simpl.
  destruct (JS.find _ _) as [i|] eqn:Hf; simpl.
  - destruct (String.eqb i ""); [exists first; rewrite Hrim; split; [left|done]|].
    apply find_Some in Hf as (_ & _ & (n & Hn & Hid)%Exists_exists & _). eauto.
  - exists first. rewrite Hrim. split; [left|done].
Qed.

Lemma RimInv_ext fsmData s s' :
  visited s' = visited s → sortedRimNodes s' = sortedRimNodes s →
  RimInv fsmData s → RimInv fsmData s'.
Proof. intros Hv Hs [????]. split; rewrite ?Hv, ?Hs; done. Qed.

Lemma addCurrent_inv fsmData s :
  RimInv fsmData s → currentId s ∉ visited s → currentId s ∈ idUniverse fsmData →
  RimInv fsmData (addCurrent fsmData s).
Proof.
  intros [Hnd Hsv Hsr Hu] Hc Hcu.
  destruct (addCurrent_fresh fsmData s Hc) as (Hv & _ & [[Hs _]|(node & Hs & Hf)]).
  - split; rewrite ?Hv, ?Hs; [done| |done|set_solver].
    intros n Hn. specialize (Hsv n Hn). set_solver.
  - apply find_Some in Hf as (i & Hi & Hid & _).
    apply list_elem_of_lookup_2 in Hi.
    split; rewrite ?Hv, ?Hs; [| | |set_solver].
    + rewrite fmap_app. apply NoDup_app. split_and!; [done| |apply NoDup_singleton].
      intros j (n & Hj & Hn)%list_elem_of_fmap Hj'%list_elem_of_singleton.
      apply Hc. rewrite <- Hid, <- Hj', Hj. auto.
    + intros n [Hn| ->%list_elem_of_singleton]%elem_of_app.
      * specialize (Hsv n Hn). set_solver.
      * rewrite Hid. set_solver.
    + intros n [Hn| ->%list_elem_of_singleton]%elem_of_app; auto.
Qed.

(** Whenever the guard is evaluated, the invariant holds and the current id
    is a known id that has not been visited. *)
Lemma rimReach_head fsmData s :
  rimReach fsmData s →
  RimInv fsmData s ∧ currentId s ∉ visited s ∧ currentId s ∈ idUniverse fsmData.
Proof.
  induction 1 as [first rest Hrim|s s' _ (Hinv & Hc & Hcu) Hg Hb].
  - split_and!.
    + split; simpl; [apply NoDup_nil_2|set_solver..].
    + simpl. set_solver.
    + destruct (rimInit_current _ _ _ Hrim) as (n & Hn & <-).
      apply rimNodes_spec in Hn as [Hn _]. by apply id_in_universe.
  - apply rimBody_inl in Hb as (Hv & Hs & Hc' & Hcur).
    split_and!; [|done|].
    + eapply RimInv_ext; [done|done|]. by apply addCurrent_inv.
    + destruct Hcur as [(t & Ht & <- & _)|(n & Hn & <-)].
      * by apply target_in_universe.
      * apply rimNodes_spec in Hn as [Hn _]. by apply id_in_universe.
Qed.

(** The final loop variables satisfy the invariant, and are reached from a
    state in which the guard was evaluated. *)
Lemma rimWhile_final fsmData first rest :
  rimNodes fsmData = first :: rest →
  RimInv fsmData (rimWhile fsmData (rimInit fsmData first))
  ∧ ∃ s, rimReach fsmData s
         ∧ RimExit fsmData s (rimWhile fsmData (rimInit fsmData first)).
Proof.
  intros Hrim.
  destruct (rimWhile_exit fsmData (rimReach fsmData) (rimInit fsmData first))
    as (s & Hreach & Hexit).
  { intros s s' ???. by eapply rimReach_step. }
  { by eapply rimReach_init. }
  split; [|eauto].
  destruct (rimReach_head _ _ Hreach) as (Hinv & Hc & Hcu).
  destruct Hexit as [[_ ->]|[_ [-> _]%rimBody_inr]]; [done|].
  by apply addCurrent_inv.
Qed.

Lemma rimSorting_NoDup fsmData :
  NoDup (FSMState.id <$> rimSorting fsmData).
Proof.
  unfold rimSorting. destruct (rimNodes fsmData) as [|first rest] eqn:Hrim.
  - apply NoDup_nil_2.
  - by destruct (rimWhile_final _ _ _ Hrim) as [[? _ _ _] _].
Qed.

Lemma rimSorting_rim fsmData n :
  n ∈ rimSorting fsmData → n ∈ rimNodes fsmData.
Proof.
  unfold rimSorting. destruct (rimNodes fsmData) as [|first rest] eqn:Hrim.
  - by intros ?%elem_of_nil.
  - destruct (rimWhile_final _ _ _ Hrim) as [[_ _ Hsr _] _]. rewrite <- Hrim. auto.
Qed.

(** A bounded run that ends agrees with the loop. *)
Lemma rimRun_Some fsmData fuel s r :
  rimRun fsmData fuel s = Some r → r = rimWhile fsmData s.
Proof.
  revert s. induction fuel as [|fuel IH]; intros s; simpl;
    rewrite (rimWhile_eq fsmData s); destruct (decide _); try congruence.
  destruct (rimBody fsmData s); [auto|congruence].
Qed.

(** A pass from an unvisited current id adds exactly that id. *)
Lemma rimBody_size fsmData s s' :
  currentId s ∉ visited s →
  rimBody fsmData s = inl s' ∨ rimBody fsmData s = inr s' →
  visited s' = {[currentId s]} ∪ visited s
  ∧ size (visited s') = S (size (visited s)).
Proof.
  intros Hc Hb. destruct (addCurrent_fresh fsmData s Hc) as (Hv & _).
  assert (visited s' = {[currentId s]} ∪ visited s) as ->.
  { destruct Hb as [(-> & _)%rimBody_inl|[-> _]%rimBody_inr]; done. }
  split; [done|]. rewrite size_union by set_solver. by rewrite size_singleton.
Qed.

(** As many iterations as ids are missing from [visited] are enough. *)
Lemma rimRun_enough fsmData fuel s :
  currentId s ∉ visited s →
  length (rimNodes fsmData) - size (visited s) ≤ fuel →
  rimRun fsmData fuel s = Some (rimWhile fsmData s).
Proof.
  revert s. induction fuel as [|fuel IH]; intros s Hc Hfuel; simpl;
    rewrite (rimWhile_eq fsmData s); destruct (decide _) as [Hg|Hg]; try done.
  - unfold rimGuard in Hg. lia.
  - destruct (rimBody fsmData s) as [s'|s'] eqn:Hb; [|done].
    destruct (rimBody_size fsmData s s' Hc) as [_ Hsz]; [by left|].
    apply IH; [|lia]. by apply rimBody_inl in Hb as (_ & _ & ? & _).
Qed.

(** C10: the traversal loop ends on every input, well-formed or not.  The
    bounded run that allows one iteration per rim node computes the rim
    order, so the loop never needs more; from every state in which the guard
    is evaluated, as many iterations as rim nodes are not yet counted in
    [visited] are enough; the visited set stays within the ids of states and
    transition targets; and a pass through the body adds exactly one id to
    it, whether it continues or breaks. *)
Theorem rim_traversal_terminates fsmData :
  rimSortingRun fsmData = Some (rimSorting fsmData)
  ∧ ∀ st, rimReach fsmData st →
      rimRun fsmData (length (rimNodes fsmData) - size (visited st)) st
        = Some (rimWhile fsmData st)
      ∧ visited st ⊆ idUniverse fsmData
      ∧ (rimGuard fsmData st →
         ∃ st', (rimBody fsmData st = inl st' ∨ rimBody fsmData st = inr st')
                ∧ visited st ⊂ visited st'
                ∧ visited st' ⊆ idUniverse fsmData
                ∧ size (visited st') = S (size (visited st))).
Proof.
  split.
  - unfold rimSortingRun, rimSorting.
    destruct (rimNodes fsmData) as [|first rest] eqn:Hrim; [done|].
    rewrite <- Hrim, rimRun_enough; [done|simpl; set_solver|lia].
  - intros st Hreach.
    destruct (rimReach_head _ _ Hreach) as ([_ _ _ Hu] & Hc & Hcu).
    split_and!; [by apply rimRun_enough|done|]. intros _.
    assert (∃ st', rimBody fsmData st = inl st' ∨ rimBody fsmData st = inr st')
      as (st' & Hb) by (destruct (rimBody fsmData st); eauto).
    exists st'. split; [done|].
    destruct (rimBody_size _ _ _ Hc Hb) as [Hv Hsz].
    split_and!; [|rewrite Hv|done]; set_solver.
Qed.

Lemma rim_traversal_terminates_witness :
  rimReach scenarioA scenarioAInit
  ∧ rimSortingRun scenarioA = Some (rimSorting scenarioA)
  ∧ rimRun scenarioA 2 scenarioAInit = Some (rimWhile scenarioA scenarioAInit)
  ∧ visited scenarioAInit ⊆ idUniverse scenarioA.
Proof.
  assert (rimReach scenarioA scenarioAInit) as Hreach.
  { apply (rimReach_init scenarioA (state "run" "RUN") [state "done" "DONE"]).
    vm_compute. reflexivity. }
  split; [exact Hreach|].
  destruct (rim_traversal_terminates scenarioA) as (Hsort & Hstates).
  destruct (Hstates scenarioAInit Hreach) as (Hrun & Hsub & _).
  split; [exact Hsort|]. split; [exact Hrun|exact Hsub].
Defined.

(** ** Ring completeness on well-formed input *)

Section WellFormed.
Context (fsmData : FSMData.t).
Hypothesis Hunique : uniqueIds fsmData.
Hypothesis Htargets : targetsExist fsmData.

Lemma rimNodes_NoDup_ids : NoDup (FSMState.id <$> rimNodes fsmData).
Proof.
  eapply sublist_NoDup; [exact Hunique|].
  apply fmap_sublist, sublist_filter.
Qed.

(** With existing targets every visited id has been pushed, and the
    current id is the id of a rim node. *)
Lemma addCurrent_pushed s :
  currentId s ∉ visited s →
  (∀ i, i ∈ visited s → i ∈ (FSMState.id <$> sortedRimNodes s)) →
  (∃ n, n ∈ rimNodes fsmData ∧ FSMState.id n = currentId s) →
  ∀ i, i ∈ visited (addCurrent fsmData s) →
       i ∈ (FSMState.id <$> sortedRimNodes (addCurrent fsmData s)).
Proof.
  intros Hc Hvis (n & Hn & Hid) i.
  destruct (addCurrent_fresh fsmData s Hc)
    as (-> & _ & [[_ Hnone]|(node & -> & Hf)]).
  { by destruct (Hnone n Hn). }
  apply find_Some in Hf as (_ & _ & Hnode & _). rewrite fmap_app. simpl.
  intros [->%elem_of_singleton|Hi]%elem_of_union; apply elem_of_app.
  - right. rewrite Hnode. left.
  - left. auto.
Qed.

Lemma rimReach_pushed s :
  rimReach fsmData s →
  (∀ i, i ∈ visited s → i ∈ (FSMState.id <$> sortedRimNodes s))
  ∧ ∃ n, n ∈ rimNodes fsmData ∧ FSMState.id n = currentId s.
Proof.
  induction 1 as [first rest Hrim|s s' Hreach [Hvis Hcur] Hg Hb].
  - split; [|by eapply rimInit_current]. simpl. set_solver.
  - destruct (rimReach_head _ _ Hreach) as (_ & Hc & _).
    apply rimBody_inl in Hb as (-> & -> & _ & Hnext).
    split; [by apply addCurrent_pushed|].
    destruct Hnext as [(t & Ht & Htgt & Hh)|?]; [|done].
    specialize (Htargets t Ht). rewrite Htgt in Htargets.
    apply list_elem_of_fmap in Htargets as (n & Hid & Hn).
    exists n. split; [|done]. apply rimNodes_spec. by rewrite <- Hid.
Qed.

Lemma rimSorting_Permutation : rimSorting fsmData ≡ₚ rimNodes fsmData.
Proof.
  pose proof (rimSorting_NoDup fsmData) as Hnd.
  pose proof (rimSorting_rim fsmData) as Hsub.
  apply submseteq_length_Permutation.
  { apply NoDup_submseteq; [by eapply NoDup_fmap_1|done]. }
  revert Hnd Hsub. unfold rimSorting.
  destruct (rimNodes fsmData) as [|first rest] eqn:Hrim; [done|].
  rewrite <- Hrim. intros Hnd Hsub.
  destruct (rimWhile_final _ _ _ Hrim) as (_ & s & Hreach & Hexit).
  destruct (rimReach_pushed _ Hreach) as [Hvis Hcur].
  destruct (rimReach_head _ _ Hreach) as (_ & Hc & _).
  set (r := rimWhile fsmData (rimInit fsmData first)) in *.
  rewrite <- (length_fmap FSMState.id (sortedRimNodes r)).
  destruct Hexit as [[Hg Hr]|[_ Hb]].
  - rewrite Hr in *. unfold rimGuard in Hg.
    rewrite <- (size_list_to_set (C:=gset string)
                  (FSMState.id <$> sortedRimNodes s)) by done.
    etrans; [|apply (subseteq_size (visited s))]; [lia|].
    intros i Hi. apply elem_of_list_to_set. auto.
  - apply rimBody_inr in Hb as [Hr Hall].
    rewrite <- (length_fmap FSMState.id (rimNodes fsmData)).
    apply submseteq_length, NoDup_submseteq; [apply rimNodes_NoDup_ids|].
    intros i (n & -> & Hn)%list_elem_of_fmap.
    rewrite Hr in *. apply addCurrent_pushed; auto.
Qed.
End WellFormed.

(** C2, as amended: on an input whose state ids are pairwise distinct and
    whose transitions all target existing states, the rim ordering is a
    permutation of the non-hub states: it has no duplicates, and a state
    occurs in it exactly when it is a state other than the hub. *)
Theorem rim_order_complete fsmData :
  uniqueIds fsmData → targetsExist fsmData →
  rimSorting fsmData ≡ₚ rimNodes fsmData
  ∧ NoDup (rimSorting fsmData)
  ∧ ∀ s, s ∈ rimSorting fsmData ↔
         s ∈ FSMData.states fsmData ∧ Some (FSMState.id s) ≠ hubId fsmData.
Proof.
  intros Hunique Htargets.
  pose proof (rimSorting_Permutation fsmData Hunique Htargets) as Hperm.
  split_and!; [done| |].
  - eapply NoDup_fmap_1, rimSorting_NoDup.
  - intros s. rewrite Hperm. apply rimNodes_spec.
Qed.

Lemma rim_order_complete_witness :
  uniqueIds scenarioA ∧ targetsExist scenarioA
  ∧ rimSorting scenarioA ≡ₚ rimNodes scenarioA.
Proof.
  assert (uniqueIds scenarioA) as Hu.
  { unfold uniqueIds. apply (bool_decide_unpack _). vm_compute. exact I. }
  assert (targetsExist scenarioA) as Ht.
  { unfold targetsExist. apply Forall_forall.
    apply (bool_decide_unpack _). vm_compute. exact I. }
  split; [exact Hu|]. split; [exact Ht|].
  exact (proj1 (rim_order_complete scenarioA Hu Ht)).
Defined.

(** C2, as stated, fails: a transition to an id that is no state makes the
    traversal count that id as visited, and the loop ends before state [b]
    is placed. *)
Lemma rim_order_omits_state :
  rimNodes danglingTarget = [state "a" "A"; state "b" "B"]
  ∧ rimSorting danglingTarget = [state "a" "A"]
  ∧ ¬ (rimSorting danglingTarget ≡ₚ rimNodes danglingTarget).
Proof.
  assert (rimNodes danglingTarget = [state "a" "A"; state "b" "B"]) as Hrim
    by (vm_compute; reflexivity).
  assert (rimSorting danglingTarget = [state "a" "A"]) as Hsort
    by (vm_compute; reflexivity).
  split_and!; [done|done|]. rewrite Hrim, Hsort.
  intros Hperm%Permutation_length. done.
Qed.

(** A second state with the id of an earlier one is never placed either. *)
Lemma rim_order_omits_duplicate :
  rimNodes duplicateIds = [state "a" "A"; state "a" "B"]
  ∧ rimSorting duplicateIds = [state "a" "A"].
Proof. split; vm_compute; reflexivity. Qed.

(** ** Degenerate inputs *)

Lemma hubId_single m c r s :
  hubId (FSMData.mk m c r [s] []) = Some (FSMState.id s).
Proof.
  unfold hubId, hubByLabel, JS.find, sortedByDegree. simpl.
  destruct (decide _); simpl; [|done].
  destruct (String.eqb_spec (FSMState.id s) ""); simpl; done.
Qed.

(** C8: the layout of the empty graph is empty, and the layout of a single
    state without transitions is that state as the hub at the origin, with
    an empty rim order and no edges. *)
Theorem degenerate_inputs m c r :
  getRadialLayoutElements (FSMData.mk m c r [] []) = {| nodes := []; edges := [] |}
  ∧ ∀ s, let single := FSMData.mk m c r [s] [] in
         hubId single = Some (FSMState.id s)
         ∧ rimSorting single = []
         ∧ getRadialLayoutElements single = {| nodes := [hubNode s]; edges := [] |}
         ∧ Node.id (hubNode s) = FSMState.id s
         ∧ Node.position (hubNode s) = {| x := 0%R; y := 0%R |}.
Proof.
  split; [reflexivity|]. intros s single.
  pose proof (hubId_single m c r s) as Hhub. fold single in Hhub.
  assert (rimNodes single = []) as Hrim.
  { unfold rimNodes. rewrite Hhub. unfold single. cbn [FSMData.states].
    rewrite filter_cons. by rewrite decide_False by auto. }
  assert (rimSorting single = []) as Hsort by (unfold rimSorting; by rewrite Hrim).
  split_and!; [done|done| |done|done].
  unfold getRadialLayoutElements, layoutedNodes, layoutedEdges, hubNodeData, JS.find.
  rewrite Hsort, Hhub. simpl. by rewrite decide_True by done.
Qed.

(** ** Edge classification *)

(** In a list without repeated ids, [findIndex] by id returns the position
    of the state with that id. *)
Lemma findIndex_by_id (sorted : list FSMState.t) a sa :
  NoDup (FSMState.id <$> sorted) → sorted !! a = Some sa →
  JS.findIndex (λ n, FSMState.id n = FSMState.id sa) sorted = Z.of_nat a.
Proof.
  intros Hnd Ha. unfold JS.findIndex.
  destruct (list_find _ sorted) as [[i n]|] eqn:Hf.
  - apply list_find_Some in Hf as (Hi & Hid & _). f_equal.
    eapply (NoDup_lookup _ i a (FSMState.id sa)); [done| |];
      rewrite list_lookup_fmap; [by rewrite Hi, <- Hid|by rewrite Ha].
  - apply list_find_None, Forall_forall with (x := sa) in Hf; [done|].
    by eapply list_elem_of_lookup_2.
Qed.

Lemma rimAdjacent_indices (sorted : list FSMState.t) a b sa sb :
  NoDup (FSMState.id <$> sorted) →
  sorted !! a = Some sa → sorted !! b = Some sb →
  rimAdjacent sorted (FSMState.id sa) (FSMState.id sb) = true ↔
  (Z.abs (Z.of_nat a - Z.of_nat b) = 1
   ∨ Z.abs (Z.of_nat a - Z.of_nat b) = Z.of_nat (length sorted) - 1)%Z.
Proof.
  intros Hnd Ha Hb. unfold rimAdjacent.
  rewrite (findIndex_by_id sorted a sa), (findIndex_by_id sorted b sb) by done.
  rewrite bool_decide_true by lia. apply bool_decide_eq_true.
Qed.

(** C9: the classification flags of the edge produced for transition [i].
    It is a hub connection exactly when its source or target is the hub id;
    self-loops and hub connections are never neighbours; and for any other
    transition whose endpoints sit at positions [a] and [b] of the rim
    ordering of length [n], it is a neighbour exactly when [a] and [b]
    differ by [1] or by [n - 1]. *)
Theorem edge_classification fsmData i trans :
  FSMData.transitions fsmData !! i = Some trans →
  let src := FSMTransition.source trans in
  let tgt := FSMTransition.target trans in
  let sorted := rimSorting fsmData in
  ∃ e, edges (getRadialLayoutElements fsmData) !! i = Some e
       ∧ Edge.source e = src ∧ Edge.target e = tgt
       ∧ (EdgeData.isSelfLoop (Edge.data e) = true ↔ src = tgt)
       ∧ (EdgeData.isHubConnection (Edge.data e) = true ↔
          hubId fsmData = Some src ∨ hubId fsmData = Some tgt)
       ∧ (EdgeData.isSelfLoop (Edge.data e) = true
          ∨ EdgeData.isHubConnection (Edge.data e) = true →
          EdgeData.isNeighbor (Edge.data e) = false)
       ∧ (EdgeData.isSelfLoop (Edge.data e) = false →
          EdgeData.isHubConnection (Edge.data e) = false →
          ∀ a b sa sb,
            sorted !! a = Some sa → FSMState.id sa = src →
            sorted !! b = Some sb → FSMState.id sb = tgt →
            EdgeData.isNeighbor (Edge.data e) = true ↔
            (Z.abs (Z.of_nat a - Z.of_nat b) = 1
             ∨ Z.abs (Z.of_nat a - Z.of_nat b) = Z.of_nat (length sorted) - 1)%Z).
Proof.
  intros Hi src tgt sorted. exists (layoutedEdge fsmData i trans).
  split_and!.
  - unfold getRadialLayoutElements, layoutedEdges. simpl.
    by rewrite list_lookup_imap, Hi.
  - done.
  - done.
  - simpl. apply bool_decide_eq_true.
  - simpl. rewrite bool_decide_eq_true. split; intros [?|?]; auto.
  - simpl. fold src tgt. intros [->| ->]; [|done].
    by rewrite andb_false_r.
  - simpl. fold src tgt. intros -> -> a b sa sb Ha <- Hb <-. simpl.
    apply rimAdjacent_indices; [apply rimSorting_NoDup|done..].
Qed.

Lemma edge_classification_witness :
  FSMData.transitions scenarioA !! 1 = Some (transition "run" "done")
  ∧ ∃ e, edges (getRadialLayoutElements scenarioA) !! 1 = Some e
         ∧ Edge.source e = "run" ∧ Edge.target e = "done".
Proof.
  split; [reflexivity|].
  destruct (edge_classification scenarioA 1 (transition "run" "done") eq_refl)
    as (e & He & Hs & Ht & _).
  exists e. split; [exact He|]. split; [exact Hs|exact Ht].
Defined.

(** ** Radial placement *)

Lemma hubNodeData_Some fsmData :
  FSMData.states fsmData ≠ [] →
  ∃ h, hubNodeData fsmData = Some h ∧ hubId fsmData = Some (FSMState.id h).
Proof.
  intros Hne. destruct (hubId fsmData) as [v|] eqn:Hh; [|by apply hubId_None in Hh].
  destruct (hubId_in_states _ _ Hh) as (s & Hs & Hid).
  destruct (hubNodeData fsmData) as [h|] eqn:Hd.
  - exists h. split; [done|]. unfold hubNodeData in Hd.
    apply find_Some in Hd as (_ & _ & Hid' & _). by rewrite Hid', Hh.
  - unfold hubNodeData in Hd.
    pose proof (proj1 (find_None _ _) Hd s Hs) as Hno. simpl in Hno.
    destruct Hno. by rewrite Hh, Hid.
Qed.

Lemma on_circle (r a : R) :
  (0 <= r)%R → sqrt ((r * cos a) * (r * cos a) + (r * sin a) * (r * sin a)) = r.
Proof.
  intros Hr.
  replace ((r * cos a) * (r * cos a) + (r * sin a) * (r * sin a))%R
    with ((r * r) * (Rsqr (sin a) + Rsqr (cos a)))%R by (unfold Rsqr; ring).
  rewrite sin2_cos2, Rmult_1_r. by apply sqrt_square.
Qed.

Lemma finalAngle_step len index :
  S index < len →
  (finalAngle len (S index) - finalAngle len index = 2 * PI / INR len)%R.
Proof.
  intros Hlt. unfold finalAngle. rewrite S_INR.
  assert (INR len ≠ 0%R) by (apply not_0_INR; lia). by field.
Qed.

Lemma finalAngle_wrap len index :
  S index = len →
  (finalAngle len 0 + 2 * PI - finalAngle len index = 2 * PI / INR len)%R.
Proof.
  intros <-. unfold finalAngle. rewrite S_INR. simpl INR.
  assert (INR index + 1 ≠ 0)%R by (pose proof (pos_INR index); lra). by field.
Qed.

(** C3: the hub node is placed at the origin; the rim node at ring index
    [i] of [n] rim nodes is placed at angle [2π·i/n − π/2] on the circle of
    radius [RADIUS = 380] around the origin, at distance [RADIUS] from it,
    and the next rim node, the first one after the last, sits [2π/n]
    further round the circle. *)
Theorem radial_placement fsmData :
  let sorted := rimSorting fsmData in
  let n := length sorted in
  let placed := nodes (getRadialLayoutElements fsmData) in
  RADIUS = 380%R
  ∧ (FSMData.states fsmData ≠ [] →
     ∃ h, hubNodeData fsmData = Some h
          ∧ hubId fsmData = Some (FSMState.id h)
          ∧ placed !! 0 = Some (hubNode h)
          ∧ Node.id (hubNode h) = FSMState.id h
          ∧ Node.position (hubNode h) = {| x := 0%R; y := 0%R |})
  ∧ ∀ i s, sorted !! i = Some s →
      let angle := (2 * PI * INR i / INR n - PI / 2)%R in
      ∃ node,
        placed !! (length (option_list (hubNodeData fsmData)) + i) = Some node
        ∧ Node.id node = FSMState.id s
        ∧ Node.position node = {| x := (RADIUS * cos angle)%R;
                                  y := (RADIUS * sin angle)%R |}
        ∧ sqrt (x (Node.position node) * x (Node.position node)
                + y (Node.position node) * y (Node.position node)) = RADIUS
        ∧ (S i < n →
           (finalAngle n (S i) - finalAngle n i = 2 * PI / INR n)%R)
        ∧ (S i = n →
           (finalAngle n 0 + 2 * PI - finalAngle n i = 2 * PI / INR n)%R).
Proof.
  intros sorted n placed. split_and!; [done| |].
  - intros Hne. destruct (hubNodeData_Some _ Hne) as (h & Hd & Hh).
    exists h. split_and!; try done.
    unfold placed, getRadialLayoutElements, layoutedNodes. simpl. by rewrite Hd.
  - intros i s Hi angle. exists (rimNode n i s). split_and!.
    + unfold placed, getRadialLayoutElements, layoutedNodes. simpl.
      fold sorted n. destruct (hubNodeData fsmData); simpl;
        by rewrite list_lookup_imap, Hi.
    + done.
    + done.
    + simpl. apply on_circle. unfold RADIUS. lra.
    + apply finalAngle_step.
    + apply finalAngle_wrap.
Qed.

Lemma radial_placement_witness :
  rimSorting scenarioA !! 0 = Some (state "run" "RUN")
  ∧ ∃ node, nodes (getRadialLayoutElements scenarioA) !! 1 = Some node
            ∧ Node.id node = "run"
            ∧ sqrt (x (Node.position node) * x (Node.position node)
                    + y (Node.position node) * y (Node.position node)) = RADIUS.
Proof.
  assert (rimSorting scenarioA !! 0 = Some (state "run" "RUN")) as Hrun
    by (vm_compute; reflexivity).
  split; [exact Hrun|].
  destruct (radial_placement scenarioA) as (_ & _ & Hrim).
  destruct (Hrim 0 (state "run" "RUN") Hrun) as (node & Hnode & Hid & _ & Hdist & _).
  exists node. split; [exact Hnode|]. split; [exact Hid|exact Hdist].
Defined.

(** ** Determinism *)

Section SortContract.
Context {A : Type} (key : A → nat).

Lemma sort_insert_filter k x s :
  filter (λ a, key a = k) (JS.sort_insert (byKeyDesc key) x s) =
  filter (λ a, key a = k) (x :: s).
Proof.
  induction s as [|y s IH]; simpl; [done|]. unfold byKeyDesc at 1.
  destruct (Z.leb_spec (Z.of_nat (key y) - Z.of_nat (key x)) 0); [done|].
  rewrite filter_cons, IH, !filter_cons.
  destruct (decide (key y = k)), (decide (key x = k)); try done. lia.
Qed.

Lemma sort_insert_elem b x s :
  b ∈ JS.sort_insert (byKeyDesc key) x s ↔ b = x ∨ b ∈ s.
Proof.
  induction s as [|y s IH]; simpl.
  - rewrite list_elem_of_singleton, elem_of_nil. tauto.
  - destruct (_ <=? _)%Z; rewrite !elem_of_cons, ?IH; tauto.
Qed.

Lemma sort_insert_sorted x s :
  StronglySorted (λ a b, key b ≤ key a) s →
  StronglySorted (λ a b, key b ≤ key a) (JS.sort_insert (byKeyDesc key) x s).
Proof.
  induction 1 as [|y s Hs IH Hy]; simpl.
  - by repeat constructor.
  - unfold byKeyDesc at 1.
    destruct (Z.leb_spec (Z.of_nat (key y) - Z.of_nat (key x)) 0).
    + constructor; [by constructor|].
      constructor; [lia|]. eapply Forall_impl; [exact Hy|]. simpl. lia.
    + constructor; [done|]. apply Forall_forall.
      intros b [->|Hb]%sort_insert_elem; [lia|].
      by eapply Forall_forall in Hy.
Qed.

(** The model of [sort] meets the contract. *)
Lemma sort_contract : SortsByKeyDesc key (JS.sort (byKeyDesc key)).
Proof.
  split.
  - induction l as [|x l IH]; simpl; [constructor|by apply sort_insert_sorted].
  - intros l k. induction l as [|x l IH]; simpl; [done|].
    by rewrite sort_insert_filter, !filter_cons, IH.
Qed.

(** The contract fixes the first element of the result. *)
Lemma sort_head_char srt l :
  SortsByKeyDesc key srt →
  match head (srt l) with
  | None => l = []
  | Some h => (∀ s, s ∈ l → key s ≤ key h)
              ∧ head (filter (λ a, key a = key h) l) = Some h
  end.
Proof.
  intros [Hdesc Hstable]. specialize (Hdesc l).
  destruct (srt l) as [|h r] eqn:Hr; simpl.
  - destruct l as [|s l]; [done|]. specialize (Hstable (s :: l) (key s)).
    rewrite Hr, filter_cons_True in Hstable by done. done.
  - split.
    + intros s Hs. assert (s ∈ h :: r) as [->|Hin]%elem_of_cons; [|done|].
      { rewrite <- Hr.
        eapply (list_elem_of_filter (λ a, key a = key s)).
        rewrite Hstable. by apply list_elem_of_filter. }
      apply StronglySorted_inv in Hdesc as [_ Hall].
      by eapply Forall_forall in Hall.
    + rewrite <- Hstable, Hr, filter_cons_True by done. done.
Qed.

Lemma sort_head_unique srt l :
  SortsByKeyDesc key srt → head (srt l) = head (JS.sort (byKeyDesc key) l).
Proof.
  intros Hsrt.
  pose proof (sort_head_char srt l Hsrt) as H1.
  pose proof (sort_head_char _ l sort_contract) as H2.
  destruct (head (srt l)) as [h1|], (head (JS.sort _ l)) as [h2|];
    try done; try (subst l; by destruct H1 || by destruct H2).
  destruct H1 as [Hmax1 Hf1], H2 as [Hmax2 Hf2].
  assert (h1 ∈ l ∧ h2 ∈ l) as [Hin1 Hin2].
  { split; eapply (list_elem_of_filter (λ a, key a = _));
      eapply head_Some_elem_of; eassumption. }
  assert (key h1 = key h2) as Hk
    by (specialize (Hmax1 h2 Hin2); specialize (Hmax2 h1 Hin1); lia).
  rewrite Hk in Hf1. congruence.
Qed.
End SortContract.

(** C4: two invocations on identical inputs produce equal outputs: the same
    hub, the same rim ordering, the same node coordinates, and the same
    edges with their classification flags and sibling ranks.  Nothing in
    the computation is left to the engine: bounded runs of the loop agree
    whatever their iteration budget, and every sort that meets the
    ECMAScript contract ranks the same state first. *)
Theorem layout_deterministic fsm1 fsm2 :
  fsm1 = fsm2 →
  hubId fsm1 = hubId fsm2
  ∧ rimSorting fsm1 = rimSorting fsm2
  ∧ Node.position <$> nodes (getRadialLayoutElements fsm1)
    = Node.position <$> nodes (getRadialLayoutElements fsm2)
  ∧ Edge.data <$> edges (getRadialLayoutElements fsm1)
    = Edge.data <$> edges (getRadialLayoutElements fsm2)
  ∧ getRadialLayoutElements fsm1 = getRadialLayoutElements fsm2
  ∧ (∀ fuel1 fuel2 st r1 r2,
       rimRun fsm1 fuel1 st = Some r1 → rimRun fsm2 fuel2 st = Some r2 → r1 = r2)
  ∧ (∀ srt, SortsByKeyDesc (degree fsm1) srt →
            head (srt (FSMData.states fsm1)) = head (sortedByDegree fsm2)).
Proof.
  intros <-. split_and!; try done.
  - intros fuel1 fuel2 st r1 r2 H1%rimRun_Some H2%rimRun_Some. congruence.
  - intros srt Hsrt. rewrite sortedByDegree_eq. by apply sort_head_unique.
Qed.

Lemma layout_deterministic_witness :
  hubId scenarioA = hubId scenarioA
  ∧ rimSorting scenarioA = rimSorting scenarioA
  ∧ getRadialLayoutElements scenarioA = getRadialLayoutElements scenarioA.
Proof.
  destruct (layout_deterministic scenarioA scenarioA eq_refl)
    as (Hhub & Hrim & _ & _ & Hall & _).
  split; [exact Hhub|]. split; [exact Hrim|exact Hall].
Defined.

(** ** Geometry primitives *)

Lemma jsdiv_Some a b : b ≠ 0%R → jsdiv a b = Some (a / b)%R.
Proof. intros Hb. unfold jsdiv. by rewrite decide_False. Qed.

Lemma jsdiv_zero a : jsdiv a 0 = None.
Proof. unfold jsdiv. by rewrite decide_True. Qed.

Lemma sqrt_sum_squares_zero (a b : R) :
  sqrt (a * a + b * b) = 0%R ↔ a = 0%R ∧ b = 0%R.
Proof.
  split.
  - intros Hs. apply sqrt_eq_0 in Hs; [|nra]. split; nra.
  - intros [-> ->]. rewrite Rmult_0_l, Rplus_0_l. apply sqrt_0.
Qed.

Lemma sqrt_sum_squares (a b len : R) :
  (0 <= len)%R → (len * len = a * a + b * b)%R → sqrt (a * a + b * b) = len.
Proof. intros Hlen <-. by apply sqrt_square. Qed.

(** [normalize] never divides by zero: it returns the zero vector for a
    vector of length zero, and a vector of length one otherwise. *)
Lemma normalize_spec (a b : R) :
  let len := sqrt (a * a + b * b) in
  ∃ v, normalize a b = Some v
       ∧ (len = 0%R → v = {| x := 0%R; y := 0%R |})
       ∧ (len ≠ 0%R →
          v = {| x := (a / len)%R; y := (b / len)%R |}
          ∧ (x v * x v + y v * y v = 1)%R).
Proof.
  intros len. unfold normalize. fold len.
  destruct (decide (len = 0%R)) as [Hz|Hnz].
  - eexists. split; [done|]. split; [done|]. by intros [].
  - rewrite !jsdiv_Some by done. simpl. eexists. split; [done|].
    split; [done|]. intros _. split; [done|]. simpl.
    assert (len * len = a * a + b * b)%R as Hsq by (apply sqrt_sqrt; nra).
    replace (a / len * (a / len) + b / len * (b / len))%R
      with ((a * a + b * b) / (len * len))%R by (by field).
    rewrite <- Hsq. by field.
Qed.

Lemma normalize_at (a b len : R) :
  (0 < len)%R → (len * len = a * a + b * b)%R →
  normalize a b = Some {| x := (a / len)%R; y := (b / len)%R |}.
Proof.
  intros Hpos Hsq. unfold normalize.
  rewrite (sqrt_sum_squares a b len) by (done || lra).
  rewrite decide_False by lra. by rewrite !jsdiv_Some by lra.
Qed.

Lemma normalize_origin : normalize 0 0 = Some {| x := 0%R; y := 0%R |}.
Proof.
  unfold normalize. rewrite decide_True; [done|].
  by apply sqrt_sum_squares_zero.
Qed.

Lemma getPointOnCircle_is_Some cx cy tx ty : is_Some (getPointOnCircle cx cy tx ty).
Proof.
  unfold getPointOnCircle.
  destruct (normalize_spec (tx - cx) (ty - cy)) as (v & -> & _). by eexists.
Qed.

Lemma getPointOnCircle_touching_source :
  getPointOnCircle 0 0 96 0 = Some {| x := 48%R; y := 0%R |}.
Proof.
  unfold getPointOnCircle. rewrite (normalize_at _ _ 96) by lra.
  cbn [mbind option_bind x y]. unfold NODE_RADIUS. do 2 f_equal; lra.
Qed.

Lemma getPointOnCircle_touching_target :
  getPointOnCircle 96 0 0 0 = Some {| x := 48%R; y := 0%R |}.
Proof.
  unfold getPointOnCircle. rewrite (normalize_at _ _ 96) by lra.
  cbn [mbind option_bind x y]. unfold NODE_RADIUS. do 2 f_equal; lra.
Qed.

(** C6: the curved branch divides by the length of the segment between the
    two anchors without testing it.  For two nodes whose centres are one
    node diameter apart both anchors are the point [(48, 0)], the segment
    has length zero, and the normal is computed by a division by zero;
    the straight branch, which does not compute a normal, is unaffected. *)
Theorem curved_connection_divides_by_zero :
  getPointOnCircle 0 0 96 0 = Some {| x := 48%R; y := 0%R |}
  ∧ getPointOnCircle 96 0 0 0 = Some {| x := 48%R; y := 0%R |}
  ∧ (∀ off, connectionGeometry 0 0 96 0 false off = None)
  ∧ (∀ off, is_Some (connectionGeometry 0 0 96 0 true off))
  ∧ (∀ data, EdgeData.isSelfLoop data = false → EdgeData.isStraight data = None →
             RadialEdge (Some 0%R) (Some 0%R) (Some 96%R) (Some 0%R) (Some data)
             = RenderDivisionByZero).
Proof.
  assert (∀ off, connectionGeometry 0 0 96 0 false off = None) as Hcurved.
  { intros off. unfold connectionGeometry.
    rewrite getPointOnCircle_touching_source, getPointOnCircle_touching_target.
    cbn [mbind option_bind x y].
    replace (sqrt ((48 - 48) * (48 - 48) + (0 - 0) * (0 - 0))) with 0%R
      by (symmetry; apply sqrt_sum_squares_zero; lra).
    rewrite !jsdiv_zero. reflexivity. }
  split_and!.
  - apply getPointOnCircle_touching_source.
  - apply getPointOnCircle_touching_target.
  - done.
  - intros off. unfold connectionGeometry.
    rewrite getPointOnCircle_touching_source, getPointOnCircle_touching_target.
    by eexists.
  - intros data Hself Hstraight. unfold RadialEdge, radialEdgeGeometry. simpl.
    by rewrite Hself, Hstraight, Hcurved.
Qed.

Lemma connection_curved_coincident sX sY tX tY off anchor :
  getPointOnCircle sX sY tX tY = Some anchor →
  getPointOnCircle tX tY sX sY = Some anchor →
  connectionGeometry sX sY tX tY false off = None.
Proof.
  intros Hs He. unfold connectionGeometry. rewrite Hs, He.
  cbn [mbind option_bind].
  replace (sqrt _) with 0%R by (symmetry; apply sqrt_sum_squares_zero; lra).
  rewrite !jsdiv_zero. reflexivity.
Qed.

(** ** Self-loops *)

(** The geometry of a self-loop on a node whose anchor is not the origin:
    both ends of the path are at distance [NODE_RADIUS] from the anchor, at
    the angle [OFFSET_ANGLE] to either side of the direction from the
    origin to the anchor. *)
Lemma selfLoopGeometry_on_rim sX sY siblingIndex :
  sX ≠ 0%R ∨ sY ≠ 0%R →
  let len := sqrt (sX * sX + sY * sY) in
  let ux := (sX / len)%R in
  let uy := (sY / len)%R in
  ∃ g startP endP,
    selfLoopGeometry sX sY siblingIndex = Some g
    ∧ pathStart (path g) = Some startP
    ∧ pathEnd (path g) = Some endP
    ∧ distance startP (sX, sY) = NODE_RADIUS
    ∧ distance endP (sX, sY) = NODE_RADIUS
    ∧ ((startP.1 - sX) * ux + (startP.2 - sY) * uy
       = NODE_RADIUS * cos OFFSET_ANGLE)%R
    ∧ ((endP.1 - sX) * ux + (endP.2 - sY) * uy
       = NODE_RADIUS * cos OFFSET_ANGLE)%R
    ∧ ((startP.1 - sX) * uy - (startP.2 - sY) * ux
       = NODE_RADIUS * sin OFFSET_ANGLE)%R
    ∧ ((endP.1 - sX) * uy - (endP.2 - sY) * ux
       = - (NODE_RADIUS * sin OFFSET_ANGLE))%R.
Proof.
  intros Hne len ux uy.
  destruct (normalize_spec sX sY) as (v & Hv & _ & Hunit). fold len in Hunit.
  destruct Hunit as [-> Hunit].
  { intros [-> ->]%sqrt_sum_squares_zero. by destruct Hne. }
  cbn [x y] in Hunit. fold ux uy in Hunit, Hv.
  unfold selfLoopGeometry. rewrite Hv. cbn [mbind option_bind x y].
  pose proof (sin2_cos2 OFFSET_ANGLE) as Htrig. unfold Rsqr in Htrig.
  set (c := cos OFFSET_ANGLE) in *. set (s := sin OFFSET_ANGLE) in *.
  eexists _, (_, _), (_, _). split; [reflexivity|].
  split; [reflexivity|]. split; [reflexivity|].
  unfold distance, NODE_RADIUS. cbn [fst snd].
  split_and!.
  - replace (_ + _)%R
      with ((48 * 48) * ((ux * ux + uy * uy) * (s * s + c * c)))%R by ring.
    rewrite Hunit, Htrig, !Rmult_1_r. apply sqrt_square. lra.
  - replace (_ + _)%R
      with ((48 * 48) * ((ux * ux + uy * uy) * (s * s + c * c)))%R by ring.
    rewrite Hunit, Htrig, !Rmult_1_r. apply sqrt_square. lra.
  - transitivity (48 * c * (ux * ux + uy * uy))%R; [ring|rewrite Hunit; ring].
  - transitivity (48 * c * (ux * ux + uy * uy))%R; [ring|rewrite Hunit; ring].
  - transitivity (48 * s * (ux * ux + uy * uy))%R; [ring|rewrite Hunit; ring].
  - transitivity (- (48 * s * (ux * ux + uy * uy)))%R; [ring|rewrite Hunit; ring].
Qed.

(** C5, as amended: the edge of a transition with source = target is
    flagged [isSelfLoop], and whenever the anchor [(sourceX, sourceY)] of
    its node is not the origin, [RadialEdge] draws a path whose first and
    last point both lie at distance [NODE_RADIUS] from the anchor, at the
    angle [OFFSET_ANGLE] to either side of the direction that points from
    the origin, where the hub is placed, to the anchor. *)
Theorem self_loop_on_rim fsmData i trans sX sY tX tY :
  FSMData.transitions fsmData !! i = Some trans →
  FSMTransition.source trans = FSMTransition.target trans →
  sX ≠ 0%R ∨ sY ≠ 0%R →
  let len := sqrt (sX * sX + sY * sY) in
  let ux := (sX / len)%R in
  let uy := (sY / len)%R in
  ∃ e g startP endP,
    edges (getRadialLayoutElements fsmData) !! i = Some e
    ∧ EdgeData.isSelfLoop (Edge.data e) = true
    ∧ RadialEdge (Some sX) (Some sY) (Some tX) (Some tY) (Some (Edge.data e))
      = RenderPath g
    ∧ pathStart (path g) = Some startP
    ∧ pathEnd (path g) = Some endP
    ∧ distance startP (sX, sY) = NODE_RADIUS
    ∧ distance endP (sX, sY) = NODE_RADIUS
    ∧ ((startP.1 - sX) * ux + (startP.2 - sY) * uy
       = NODE_RADIUS * cos OFFSET_ANGLE)%R
    ∧ ((endP.1 - sX) * ux + (endP.2 - sY) * uy
       = NODE_RADIUS * cos OFFSET_ANGLE)%R
    ∧ ((startP.1 - sX) * uy - (startP.2 - sY) * ux
       = NODE_RADIUS * sin OFFSET_ANGLE)%R
    ∧ ((endP.1 - sX) * uy - (endP.2 - sY) * ux
       = - (NODE_RADIUS * sin OFFSET_ANGLE))%R.
Proof.
  intros Hi Hself Hne len ux uy.
  set (e := layoutedEdge fsmData i trans).
  destruct (selfLoopGeometry_on_rim sX sY
              (default 0 (EdgeData.siblingIndex (Edge.data e))) Hne)
    as (g & startP & endP & Hg & Hrest).
  exists e, g, startP, endP.
  assert (EdgeData.isSelfLoop (Edge.data e) = true) as Hflag
    by (simpl; by apply bool_decide_eq_true).
  split_and!; [|done| |apply Hrest..].
  - unfold getRadialLayoutElements, layoutedEdges. simpl.
    by rewrite list_lookup_imap, Hi.
  - unfold RadialEdge, radialEdgeGeometry.
    cbn [fmap option_fmap option_map mbind option_bind default].
    rewrite Hflag. cbn [default]. fold e in Hg.
    destruct (EdgeData.siblingIndex (Edge.data e)); simpl in Hg |- *;
      by rewrite Hg.
Qed.

Lemma self_loop_on_rim_witness :
  FSMData.transitions hubSelfLoop !! 0 = Some (transition "idle" "idle")
  ∧ (48 ≠ 0 ∨ 48 ≠ 0)%R
  ∧ ∃ e g, edges (getRadialLayoutElements hubSelfLoop) !! 0 = Some e
           ∧ RadialEdge (Some 48%R) (Some 48%R) (Some 48%R) (Some 48%R)
                        (Some (Edge.data e)) = RenderPath g.
Proof.
  assert (48 ≠ 0 ∨ 48 ≠ 0)%R as Hne by (left; lra).
  split; [reflexivity|]. split; [exact Hne|].
  destruct (self_loop_on_rim hubSelfLoop 0 (transition "idle" "idle")
              48 48 48 48 eq_refl eq_refl Hne)
    as (e & g & _ & _ & He & _ & Hg & _).
  exists e, g. split; [exact He|exact Hg].
Defined.

(** C5, as stated, fails for a self-loop whose anchor [(sourceX, sourceY)]
    is the origin: the direction away from the hub is the zero vector there,
    and both ends of the path collapse onto the anchor instead of lying on
    the rim of the node. *)
Lemma self_loop_at_origin_collapses :
  ∃ e g startP endP,
    edges (getRadialLayoutElements hubSelfLoop) !! 0 = Some e
    ∧ EdgeData.isSelfLoop (Edge.data e) = true
    ∧ RadialEdge (Some 0%R) (Some 0%R) (Some 0%R) (Some 0%R) (Some (Edge.data e))
      = RenderPath g
    ∧ pathStart (path g) = Some startP
    ∧ pathEnd (path g) = Some endP
    ∧ distance startP (0%R, 0%R) = 0%R
    ∧ distance endP (0%R, 0%R) = 0%R
    ∧ distance startP (0%R, 0%R) ≠ NODE_RADIUS
    ∧ distance endP (0%R, 0%R) ≠ NODE_RADIUS.
Proof.
  set (e := layoutedEdge hubSelfLoop 0 (transition "idle" "idle")).
  assert (∀ p, distance p (0%R, 0%R) = 0%R → distance p (0%R, 0%R) ≠ NODE_RADIUS)
    as Hfar by (intros p ->; unfold NODE_RADIUS; lra).
  assert (∀ a b : R, a = 0%R → b = 0%R → distance (a, b) (0%R, 0%R) = 0%R)
    as Hzero.
  { intros a b -> ->. unfold distance. apply sqrt_sum_squares_zero.
    cbn [fst snd]. lra. }
  assert (∃ g a b c d,
            RadialEdge (Some 0%R) (Some 0%R) (Some 0%R) (Some 0%R) (Some (Edge.data e))
            = RenderPath g
            ∧ pathStart (path g) = Some (a, b) ∧ pathEnd (path g) = Some (c, d)
            ∧ a = 0%R ∧ b = 0%R ∧ c = 0%R ∧ d = 0%R)
    as (g & a & b & c & d & Hg & Hs & He & -> & -> & -> & ->).
  { eexists _, _, _, _, _. split.
    - unfold RadialEdge, radialEdgeGeometry, selfLoopGeometry.
      cbn [fmap option_fmap option_map mbind option_bind default
           EdgeData.isSelfLoop EdgeData.siblingIndex Edge.data e layoutedEdge].
      rewrite normalize_origin. reflexivity.
    - cbn [path pathStart pathEnd last x y mbind option_bind].
      split_and!; [reflexivity|reflexivity|ring..]. }
  exists e, g, (0%R, 0%R), (0%R, 0%R).
  split_and!; auto.
Qed.

(** ** Sibling ranks of parallel edges *)

Lemma edgeId_inj i j : edgeId i = edgeId j → i = j.
Proof.
  unfold edgeId. intros H. apply (pretty_nat_inj i j).
  do 7 (apply (f_equal (λ s, match s with String _ s' => s' | _ => s end)) in H;
        cbn [String.append] in H).
  exact H.
Qed.

Lemma countKey_snoc key pre t :
  countKey key (pre ++ [t]) =
  countKey key pre + (if decide (edgeKey t = key) then 1 else 0).
Proof.
  unfold countKey. rewrite filter_app, length_app, filter_cons, filter_nil.
  by destruct (decide _).
Qed.

Lemma groupStep_tables pre tabs t :
  TablesFor pre tabs → TablesFor (pre ++ [t]) (groupStep tabs (length pre) t).
Proof.
  intros [Hgroups Hindices].
  assert (default 0
            (match edgeGroups tabs !! edgeKey t with
             | Some (S _) => edgeGroups tabs
             | _ => <[edgeKey t := 0]> (edgeGroups tabs)
             end !! edgeKey t) = countKey (edgeKey t) pre) as Hcount.
  { rewrite (Hgroups (edgeKey t)).
    destruct (decide (countKey (edgeKey t) pre = 0)) as [->|Hne].
    - by rewrite lookup_insert_eq.
    - destruct (countKey (edgeKey t) pre) as [|c] eqn:Hc; [done|].
      rewrite (Hgroups (edgeKey t)), Hc. by rewrite decide_False by done. }
  unfold groupStep. cbv zeta. rewrite Hcount. split; simpl.
  - intros key. rewrite countKey_snoc.
    destruct (decide (edgeKey t = key)) as [<-|Hne].
    + rewrite lookup_insert_eq, decide_False by lia. f_equal. lia.
    + rewrite lookup_insert_ne by done. rewrite Nat.add_0_r, <- Hgroups.
      destruct (edgeGroups tabs !! edgeKey t) as [[|c]|];
        by rewrite ?lookup_insert_ne by done.
  - intros j. destruct (decide (j = length pre)) as [->|Hne].
    + rewrite lookup_insert_eq, list_lookup_middle by done. simpl.
      by rewrite take_app_length.
    + rewrite lookup_insert_ne by (intros ?%edgeId_inj; done).
      rewrite Hindices. destruct (decide (j < length pre)).
      * by rewrite lookup_app_l, take_app_le by lia.
      * rewrite !lookup_ge_None_2; [done|rewrite length_app; simpl|]; lia.
Qed.

Lemma groupEdges_tables ts pre tabs :
  TablesFor pre tabs → TablesFor (pre ++ ts) (groupEdges (length pre) ts tabs).
Proof.
  revert pre tabs. induction ts as [|t ts IH]; intros pre tabs Htabs; simpl.
  - by rewrite app_nil_r.
  - replace (pre ++ t :: ts)%list with ((pre ++ [t]) ++ ts)%list
      by (by rewrite <- app_assoc).
    replace (S (length pre)) with (length (pre ++ [t]))
      by (rewrite length_app; simpl; lia).
    by apply IH, groupStep_tables.
Qed.

Lemma edgeTables_spec fsmData :
  TablesFor (FSMData.transitions fsmData) (edgeTables fsmData).
Proof.
  apply (groupEdges_tables _ []). split; simpl; intros; apply lookup_empty.
Qed.

(** The sibling ranks that the layout computes, on every input: the number
    of transitions with the key of transition [i], and the number of those
    that precede it. *)
Lemma sibling_ranks_by_key fsmData i trans :
  FSMData.transitions fsmData !! i = Some trans →
  EdgeData.siblingCount (Edge.data (layoutedEdge fsmData i trans))
    = Some (countKey (edgeKey trans) (FSMData.transitions fsmData))
  ∧ EdgeData.siblingIndex (Edge.data (layoutedEdge fsmData i trans))
    = Some (countKey (edgeKey trans) (take i (FSMData.transitions fsmData))).
Proof.
  intros Hi. destruct (edgeTables_spec fsmData) as [Hgroups Hindices]. simpl.
  rewrite Hgroups, Hindices, Hi. simpl. split; [|done].
  assert (countKey (edgeKey trans) (FSMData.transitions fsmData) ≠ 0) as Hpos.
  { unfold countKey. intros Hlen%length_zero_iff_nil.
    assert (trans ∈ filter (λ t', edgeKey t' = edgeKey trans)
                           (FSMData.transitions fsmData)) as Hin.
    { apply list_elem_of_filter. split; [done|]. by eapply list_elem_of_lookup_2. }
    rewrite Hlen in Hin. by apply elem_of_nil in Hin. }
  rewrite decide_False by done.
  by destruct (countKey _ _).
Qed.

Lemma filter_ext_in {A} (P Q : A → Prop) `{!∀ a, Decision (P a), !∀ a, Decision (Q a)}
    (l : list A) :
  (∀ a, a ∈ l → P a ↔ Q a) → filter P l = filter Q l.
Proof.
  induction l as [|a l IH]; intros Hext; [done|].
  rewrite !filter_cons, IH by (intros; apply Hext; by right).
  destruct (decide (P a)), (decide (Q a)); try done;
    exfalso; specialize (Hext a); rewrite elem_of_cons in Hext; naive_solver.
Qed.

Lemma countKey_countPair fsmData trans l :
  keysSeparatePairs fsmData →
  trans ∈ FSMData.transitions fsmData →
  (∀ t, t ∈ l → t ∈ FSMData.transitions fsmData) →
  countKey (edgeKey trans) l = countPair trans l.
Proof.
  intros Hsep Hin Hl. unfold countKey, countPair. f_equal.
  apply filter_ext_in. intros t Ht. split.
  - intros Hkey. apply Hsep; auto.
  - intros [Hs Htgt]. unfold edgeKey. by rewrite Hs, Htgt.
Qed.

(** When distinct endpoint pairs have distinct keys, every edge of a group
    of [k] transitions with the same (source, target) pair carries
    [siblingCount = k], and its [siblingIndex] is the number of transitions
    of the group that precede it: [0 .. k-1] in input order. *)
Lemma sibling_ranks_by_pair fsmData i trans :
  keysSeparatePairs fsmData →
  FSMData.transitions fsmData !! i = Some trans →
  ∃ e, edges (getRadialLayoutElements fsmData) !! i = Some e
       ∧ EdgeData.siblingCount (Edge.data e)
         = Some (countPair trans (FSMData.transitions fsmData))
       ∧ EdgeData.siblingIndex (Edge.data e)
         = Some (countPair trans (take i (FSMData.transitions fsmData))).
Proof.
  intros Hsep Hi. exists (layoutedEdge fsmData i trans).
  pose proof (list_elem_of_lookup_2 _ _ _ Hi) as Hin.
  destruct (sibling_ranks_by_key fsmData i trans Hi) as [-> ->].
  split_and!.
  - unfold getRadialLayoutElements, layoutedEdges. simpl.
    by rewrite list_lookup_imap, Hi.
  - by erewrite countKey_countPair.
  - erewrite countKey_countPair; [done..|].
    intros t Ht. by eapply subseteq_take.
Qed.

(** ** Curvature offsets of parallel edges *)

Lemma foldr_Rplus_acc (l : list R) (b : R) :
  foldr Rplus b l = (foldr Rplus 0 l + b)%R.
Proof. induction l as [|a l IH]; simpl; [lra|rewrite IH; lra]. Qed.

Lemma centred_sum (c s : R) (n : nat) :
  foldr Rplus 0%R ((λ index, ((INR index - c) * s)%R) <$> seq 0 n)
  = ((INR n * (INR n - 1) / 2 - INR n * c) * s)%R.
Proof.
  induction n as [|n IH].
  - simpl. lra.
  - rewrite seq_S, fmap_app, foldr_app. simpl foldr at 2. simpl plus.
    rewrite foldr_Rplus_acc, IH, S_INR. field.
Qed.

Lemma offset_single index count spacing :
  count ≤ 1 → getMultiEdgeCurvatureOffset index count spacing = 0%R.
Proof.
  intros Hle. unfold getMultiEdgeCurvatureOffset.
  by destruct (Nat.leb_spec count 1); [|lia].
Qed.

Lemma offset_several index count spacing :
  1 < count →
  getMultiEdgeCurvatureOffset index count (Some spacing)
  = ((INR index - (INR count - 1) / 2) * spacing)%R.
Proof.
  intros Hlt. unfold getMultiEdgeCurvatureOffset.
  by destruct (Nat.leb_spec count 1); [lia|].
Qed.

(** The offsets of a group are centred on zero, and for three siblings
    they are [-spacing], [0] and [spacing]. *)
Lemma curvature_offsets_symmetric count spacing :
  offsetSum count spacing = 0%R
  ∧ (count ≤ 1 → ∀ index, getMultiEdgeCurvatureOffset index count (Some spacing) = 0%R)
  ∧ getMultiEdgeCurvatureOffset 0 3 (Some spacing) = (- spacing)%R
  ∧ getMultiEdgeCurvatureOffset 1 3 (Some spacing) = 0%R
  ∧ getMultiEdgeCurvatureOffset 2 3 (Some spacing) = spacing.
Proof.
  split_and!.
  - unfold offsetSum. destruct (decide (count ≤ 1)) as [Hle|Hgt].
    + destruct count as [|[|count]]; [simpl; lra| |lia].
      simpl. rewrite offset_single by lia. lra.
    + rewrite (list_fmap_ext _
                 (λ index, ((INR index - (INR count - 1) / 2) * spacing)%R)).
      * rewrite centred_sum. field.
      * intros _ index _. apply offset_several. lia.
  - intros Hle index. by apply offset_single.
  - rewrite offset_several by lia. simpl. lra.
  - rewrite offset_several by lia. simpl. lra.
  - rewrite offset_several by lia. simpl. lra.
Qed.

(** C7: grouping by the key [source->target] merges transitions with
    different endpoints whose keys coincide.  Both transitions of
    [collidingKeys] are alone with their (source, target) pair, yet both
    edges carry [siblingCount = 2], and the second one [siblingIndex = 1];
    in scenario C the three parallel transitions are ranked as specified. *)
Theorem sibling_groups_merge_on_key_collision :
  edgeKey (transition "a" "b->c") = edgeKey (transition "a->b" "c")
  ∧ countPair (transition "a" "b->c") (FSMData.transitions collidingKeys) = 1
  ∧ countPair (transition "a->b" "c") (FSMData.transitions collidingKeys) = 1
  ∧ (λ e, (EdgeData.siblingCount (Edge.data e), EdgeData.siblingIndex (Edge.data e)))
      <$> edges (getRadialLayoutElements collidingKeys)
    = [(Some 2, Some 0); (Some 2, Some 1)]
  ∧ (λ e, (EdgeData.siblingCount (Edge.data e), EdgeData.siblingIndex (Edge.data e)))
      <$> edges (getRadialLayoutElements scenarioC)
    = [(Some 3, Some 0); (Some 3, Some 1); (Some 3, Some 2)].
Proof. split_and!; vm_compute; reflexivity. Qed.

(** ** When keys separate pairs *)

Lemma containsArrow_tail c s : containsArrow s → containsArrow (String c s).
Proof. intros (p & q & ->). by exists (String c p), q. Qed.

Lemma key_inj s1 t1 s2 t2 :
  ¬ containsArrow s1 → ¬ containsArrow s2 →
  s1 ++ "->" ++ t1 = s2 ++ "->" ++ t2 → s1 = s2 ∧ t1 = t2.
Proof.
  revert s2. induction s1 as [|c1 s1 IH]; intros [|c2 s2] H1 H2 Heq.
  - by injection Heq.
  - exfalso. injection Heq as <- Heq. destruct s2 as [|d s2].
    + by injection Heq.
    + injection Heq as <- _. apply H2. by exists "", s2.
  - exfalso. injection Heq as -> Heq. destruct s1 as [|d s1].
    + by injection Heq.
    + injection Heq as -> _. apply H1. by exists "", s1.
  - injection Heq as -> Heq. destruct (IH s2) as [-> ->]; auto.
    + intros ?. by apply H1, containsArrow_tail.
    + intros ?. by apply H2, containsArrow_tail.
Qed.

(** Keys separate pairs as soon as no transition source contains [->]. *)
Lemma keys_separate_without_arrow fsmData :
  (∀ t, t ∈ FSMData.transitions fsmData → ¬ containsArrow (FSMTransition.source t)) →
  keysSeparatePairs fsmData.
Proof.
  intros Hfree t1 t2 Ht1 Ht2 Hkey. apply key_inj; auto.
Qed.

(** * Further properties of the layout *)

(** ** The placed nodes *)

Lemma rimNode_ids (sorted : list FSMState.t) len :
  Node.id <$> imap (rimNode len) sorted = FSMState.id <$> sorted.
Proof.
  apply list_eq. intros i.
  rewrite !list_lookup_fmap, list_lookup_imap. by destruct (sorted !! i).
Qed.

Lemma layoutedNodes_ids fsmData :
  Node.id <$> layoutedNodes fsmData
  = (option_list (FSMState.id <$> hubNodeData fsmData)
     ++ (FSMState.id <$> rimSorting fsmData))%list.
Proof.
  unfold layoutedNodes. rewrite fmap_app, rimNode_ids.
  by destruct (hubNodeData fsmData).
Qed.

Lemma hubNodeData_id fsmData h :
  hubNodeData fsmData = Some h → hubId fsmData = Some (FSMState.id h).
Proof. unfold hubNodeData. by intros (_ & _ & <- & _)%find_Some. Qed.

Lemma rimSorting_not_hub fsmData n :
  n ∈ rimSorting fsmData → Some (FSMState.id n) ≠ hubId fsmData.
Proof. intros Hn%rimSorting_rim. by apply rimNodes_spec in Hn as [_ ?]. Qed.

(** X1: on every input, well-formed or not, the placed nodes have pairwise
    distinct ids, and no rim node carries the id of the hub. *)
Theorem placed_node_ids_distinct fsmData :
  NoDup (Node.id <$> nodes (getRadialLayoutElements fsmData))
  ∧ ∀ node, node ∈ drop (length (option_list (hubNodeData fsmData)))
                        (nodes (getRadialLayoutElements fsmData)) →
            Some (Node.id node) ≠ hubId fsmData.
Proof.
  split.
  - simpl. rewrite layoutedNodes_ids. apply NoDup_app. split_and!.
    + destruct (hubNodeData fsmData); simpl; [apply NoDup_singleton|apply NoDup_nil_2].
    + destruct (hubNodeData fsmData) as [h|] eqn:Hh; simpl; [|by intros ? ?%elem_of_nil].
      intros i ->%list_elem_of_singleton (n & Hid & Hn)%list_elem_of_fmap.
      apply (rimSorting_not_hub _ _ Hn). by rewrite <- Hid, (hubNodeData_id _ _ Hh).
    + apply rimSorting_NoDup.
  - simpl. unfold layoutedNodes. intros node.
    rewrite drop_app_length'
      by (by destruct (hubNodeData fsmData)).
    intros (i & s & -> & Hs)%elem_of_lookup_imap. simpl.
    apply rimSorting_not_hub. by eapply list_elem_of_lookup_2.
Qed.

Lemma placed_node_ids_distinct_witness :
  ∃ node, drop (length (option_list (hubNodeData scenarioA)))
               (nodes (getRadialLayoutElements scenarioA)) !! 0 = Some node
          ∧ Some (Node.id node) ≠ hubId scenarioA.
Proof.
  eexists. split; [reflexivity|].
  apply (proj2 (placed_node_ids_distinct scenarioA)).
  apply (list_elem_of_lookup_2 _ 0). reflexivity.
Defined.

(** X2: the layout has a hub exactly when there is at least one state; the
    hub id is then the id of a state, and the first placed node is that
    state, at the origin. *)
Theorem hub_exists_iff_states fsmData :
  (hubId fsmData = None ↔ FSMData.states fsmData = [])
  ∧ (hubId fsmData = None → nodes (getRadialLayoutElements fsmData) = [])
  ∧ ∀ v, hubId fsmData = Some v →
         ∃ h, h ∈ FSMData.states fsmData ∧ FSMState.id h = v
              ∧ head (nodes (getRadialLayoutElements fsmData)) = Some (hubNode h).
Proof.
  split_and!.
  - apply hubId_None.
  - intros Hnone. simpl. unfold layoutedNodes, hubNodeData, rimSorting, rimNodes.
    apply hubId_None in Hnone. rewrite Hnone. reflexivity.
  - intros v Hv.
    assert (FSMData.states fsmData ≠ []) as Hne.
    { intros Hnil%hubId_None. congruence. }
    destruct (hubNodeData_Some _ Hne) as (h & Hh & Hid).
    exists h. split_and!.
    + unfold hubNodeData in Hh. apply find_Some in Hh as (i & Hi & _).
      by eapply list_elem_of_lookup_2.
    + congruence.
    + simpl. unfold layoutedNodes. by rewrite Hh.
Qed.

Lemma hub_exists_iff_states_witness : hubId (fsm [] []) = None.
Proof.
  apply (proj2 (proj1 (hub_exists_iff_states (fsm [] [])))). reflexivity.
Defined.

Lemma filter_none {A} (P : A → Prop) `{!∀ a, Decision (P a)} (l : list A) :
  (∀ a, a ∈ l → ¬ P a) → filter P l = [].
Proof.
  induction l as [|a l IH]; intros Hno; [done|].
  rewrite filter_cons, decide_False by (apply Hno; left).
  apply IH. intros b Hb. apply Hno. by right.
Qed.

Lemma filter_by_unique_key {A B} `{EqDecision B} (f : A → B) (v : B) (l : list A) :
  NoDup (f <$> l) →
  filter (λ a, f a = v) l = option_list (JS.find (λ a, f a = v) l).
Proof.
  unfold JS.find. induction l as [|a l IH]; [done|].
  rewrite fmap_cons, NoDup_cons. intros [Hnot Hnd].
  rewrite filter_cons. cbn [list_find]. destruct (decide (f a = v)) as [<-|Hne].
  - simpl. f_equal. apply filter_none.
    intros b Hb Heq. apply Hnot. rewrite <- Heq. by apply list_elem_of_fmap_2.
  - rewrite IH by done. by destruct (list_find _ l) as [[??]|].
Qed.

(** X3: on an input whose state ids are pairwise distinct and whose
    transitions all target existing states, every state is placed exactly
    once: the ids of the placed nodes are a permutation of the state ids. *)
Theorem every_state_placed_once fsmData :
  uniqueIds fsmData → targetsExist fsmData →
  Node.id <$> nodes (getRadialLayoutElements fsmData)
    ≡ₚ FSMState.id <$> FSMData.states fsmData
  ∧ length (nodes (getRadialLayoutElements fsmData))
    = length (FSMData.states fsmData).
Proof.
  intros Hunique Htargets.
  assert (Node.id <$> nodes (getRadialLayoutElements fsmData)
            ≡ₚ FSMState.id <$> FSMData.states fsmData) as Hperm.
  { simpl. rewrite layoutedNodes_ids.
    rewrite (rimSorting_Permutation fsmData Hunique Htargets).
    transitivity (FSMState.id <$>
                    (filter (λ s, Some (FSMState.id s) = hubId fsmData)
                            (FSMData.states fsmData)
                     ++ rimNodes fsmData)%list).
    - rewrite fmap_app. f_equiv. unfold hubNodeData.
      rewrite (filter_by_unique_key (λ s, Some (FSMState.id s))).
      + by destruct (JS.find _ _).
      + rewrite (list_fmap_compose FSMState.id Some).
        by apply (NoDup_fmap_2 Some).
    - f_equiv. apply filter_app_complement. }
  split; [done|].
  apply Permutation_length in Hperm. by rewrite !length_fmap in Hperm.
Qed.

Lemma every_state_placed_once_witness :
  uniqueIds scenarioA ∧ targetsExist scenarioA
  ∧ length (nodes (getRadialLayoutElements scenarioA)) = 3.
Proof.
  assert (uniqueIds scenarioA) as Hu.
  { unfold uniqueIds. apply (bool_decide_unpack _). vm_compute. exact I. }
  assert (targetsExist scenarioA) as Ht.
  { unfold targetsExist. apply Forall_forall.
    apply (bool_decide_unpack _). vm_compute. exact I. }
  split; [exact Hu|]. split; [exact Ht|].
  exact (proj2 (every_state_placed_once scenarioA Hu Ht)).
Defined.

(** ** The ring order *)





Section GreedyChain.
Context (fsmData : FSMData.t).
Hypothesis Hunique : uniqueIds fsmData.
Hypothesis Htargets : targetsExist fsmData.

Lemma rim_node_by_id n m :
  n ∈ rimNodes fsmData → m ∈ rimNodes fsmData →
  FSMState.id n = FSMState.id m → n = m.
Proof.
  intros [i Hi]%list_elem_of_lookup_1 [j Hj]%list_elem_of_lookup_1 Hid.
  assert (i = j) as ->; [|congruence].
  eapply (NoDup_lookup _ i j (FSMState.id n)).
  - by apply rimNodes_NoDup_ids.
  - by rewrite list_lookup_fmap, Hi.
  - by rewrite list_lookup_fmap, Hj, Hid.
Qed.

(** "Add current" places the rim node with the current id, and the ring
    so extended is still a greedy chain. *)
Lemma addCurrent_chain s :
  rimReach fsmData s →
  visited s = list_to_set (FSMState.id <$> sortedRimNodes s) →
  GreedyChain fsmData (sortedRimNodes s) →
  ChainPending fsmData s →
  ∃ n, sortedRimNodes (addCurrent fsmData s) = (sortedRimNodes s ++ [n])%list
       ∧ FSMState.id n = currentId s
       ∧ visited (addCurrent fsmData s)
         = list_to_set (FSMState.id <$> sortedRimNodes (addCurrent fsmData s))
       ∧ GreedyChain fsmData (sortedRimNodes (addCurrent fsmData s)).
Proof.
  intros Hreach Hvis Hchain Hpend.
  destruct (rimReach_head _ _ Hreach) as (_ & Hc & _).
  destruct (rimReach_pushed _ Hunique Htargets _ Hreach) as (_ & m & Hm & Hmid).
  destruct (addCurrent_fresh fsmData s Hc)
    as (Hv & _ & [[_ Hnone]|(n & Hs & Hf)]).
  { by destruct (Hnone m Hm). }
  apply find_Some in Hf as (i & Hi & Hid & _).
  apply list_elem_of_lookup_2 in Hi.
  exists n. rewrite Hs, Hv. split_and!; [done|done| |].
  - rewrite fmap_app, list_to_set_app_L, Hvis. simpl. rewrite Hid. set_solver.
  - intros k a b Ha Hb.
    assert (S k < length (sortedRimNodes s ++ [n])) as Hlen
      by (by eapply lookup_lt_Some).
    rewrite length_app in Hlen. simpl in Hlen.
    destruct (decide (S k < length (sortedRimNodes s))) as [Hlt|Hge].
    + rewrite lookup_app_l in Ha, Hb by lia. rewrite take_app_le by lia. auto.
    + assert (S k = length (sortedRimNodes s)) as Hk by lia.
      rewrite Hk, take_app_length.
      rewrite lookup_app_l in Ha by lia.
      rewrite lookup_app_r, Hk, Nat.sub_diag in Hb by lia.
      injection Hb as <-.
      unfold ChainPending in Hpend.
      rewrite last_lookup, <- Hk in Hpend. simpl in Hpend. rewrite Ha in Hpend.
      unfold ChainStep. rewrite <- Hvis.
      destruct (neighbors fsmData (visited s) (FSMState.id a)) as [|next ?];
        [|congruence].
      destruct Hpend as (u & Hu & Hcur). rewrite Hu. f_equal.
      apply rim_node_by_id; [|done|congruence].
      apply find_Some in Hu as (j & Hj & _). by eapply list_elem_of_lookup_2.
Qed.

Lemma rimReach_chain s :
  rimReach fsmData s →
  visited s = list_to_set (FSMState.id <$> sortedRimNodes s)
  ∧ GreedyChain fsmData (sortedRimNodes s)
  ∧ ChainPending fsmData s.
Proof.
  induction 1 as [first rest Hrim|s s' Hreach (Hvis & Hchain & Hpend) Hg Hb].
  - split_and!; [done| |done]. intros k a b Ha. by apply lookup_lt_Some in Ha; simpl in Ha; lia.
  - destruct (addCurrent_chain s Hreach Hvis Hchain Hpend)
      as (n & Hs & Hid & Hv1 & Hc1).
    pose proof Hb as (Hv' & Hs' & _)%rimBody_inl.
    split_and!; [congruence|by rewrite Hs'|].
    unfold ChainPending. rewrite Hs', Hs, last_snoc, Hv', Hid.
    assert (currentId (addCurrent fsmData s) = currentId s) as Hcur.
    { unfold addCurrent. by destruct (decide _). }
    unfold rimBody in Hb. cbv zeta in Hb. rewrite Hcur in Hb.
    destruct (neighbors fsmData (visited (addCurrent fsmData s)) (currentId s))
      as [|next ?]; [|by injection Hb as <-].
    destruct (JS.find _ _) as [u|]; [|done]. injection Hb as <-. eauto.
Qed.

Lemma rimSorting_chain : GreedyChain fsmData (rimSorting fsmData).
Proof.
  unfold rimSorting. destruct (rimNodes fsmData) as [|first rest] eqn:Hrim.
  { intros k a b Ha. by apply lookup_lt_Some in Ha; simpl in Ha; lia. }
  destruct (rimWhile_final _ _ _ Hrim) as (_ & s & Hreach & Hexit).
  destruct (rimReach_chain s Hreach) as (Hvis & Hchain & Hpend).
  destruct Hexit as [[_ ->]|[_ [-> _]%rimBody_inr]]; [done|].
  by destruct (addCurrent_chain s Hreach Hvis Hchain Hpend) as (_ & _ & _ & _ & ?).
Qed.
End GreedyChain.

(** X5: on well-formed input the ring order follows the transitions
    greedily.  After a rim node [a], the ring continues with the target of
    the first transition out of [a] that leads to a non-hub state not yet
    on the ring; when [a] has no such transition, it continues with the
    first non-hub state (in input order) not yet on the ring. *)
Theorem ring_follows_transitions fsmData k a b :
  uniqueIds fsmData → targetsExist fsmData →
  rimSorting fsmData !! k = Some a →
  rimSorting fsmData !! S k = Some b →
  ChainStep fsmData (take (S k) (rimSorting fsmData)) a b.
Proof. intros Hunique Htargets. by apply rimSorting_chain. Qed.

Lemma ring_follows_transitions_witness :
  uniqueIds scenarioA ∧ targetsExist scenarioA
  ∧ ChainStep scenarioA [state "run" "RUN"] (state "run" "RUN") (state "done" "DONE").
Proof.
  assert (uniqueIds scenarioA) as Hu.
  { unfold uniqueIds. apply (bool_decide_unpack _). vm_compute. exact I. }
  assert (targetsExist scenarioA) as Ht.
  { unfold targetsExist. apply Forall_forall.
    apply (bool_decide_unpack _). vm_compute. exact I. }
  split; [exact Hu|]. split; [exact Ht|].
  assert (rimSorting scenarioA = [state "run" "RUN"; state "done" "DONE"]) as Hs
    by (vm_compute; reflexivity).
  pose proof (ring_follows_transitions scenarioA 0 (state "run" "RUN")
                (state "done" "DONE") Hu Ht) as Hstep.
  rewrite Hs in Hstep. exact (Hstep eq_refl eq_refl).
Defined.

(** ** The produced edges *)

Lemma countKey_app key l1 l2 :
  countKey key (l1 ++ l2) = countKey key l1 + countKey key l2.
Proof. unfold countKey. by rewrite filter_app, length_app. Qed.

Lemma countKey_take_lt (l : list FSMTransition.t) i j t :
  l !! i = Some t → i < j →
  countKey (edgeKey t) (take i l) < countKey (edgeKey t) (take j l).
Proof.
  intros Hi Hlt.
  assert (take j l = take i l ++ t :: take (j - S i) (drop (S i) l))%list as ->.
  { rewrite <- (take_drop_middle l i t Hi) at 1.
    rewrite take_app_ge by (rewrite length_take; lia).
    rewrite length_take_le by (apply lookup_lt_Some in Hi; lia).
    f_equal. by replace (j - i) with (S (j - S i)) by lia. }
  rewrite countKey_app. unfold countKey at 3.
  rewrite filter_cons_True by done. simpl. lia.
Qed.

(** X6: on every input, the sibling index of an edge is smaller than its
    sibling count, and of two edges with the same grouping key the earlier
    one has the smaller index and both have the same count: the curvature
    offsets of the edges of a group are then pairwise different. *)
Theorem sibling_index_below_count fsmData i ti :
  FSMData.transitions fsmData !! i = Some ti →
  ∃ count index,
    EdgeData.siblingCount (Edge.data (layoutedEdge fsmData i ti)) = Some count
    ∧ EdgeData.siblingIndex (Edge.data (layoutedEdge fsmData i ti)) = Some index
    ∧ index < count
    ∧ ∀ j tj, FSMData.transitions fsmData !! j = Some tj →
              edgeKey ti = edgeKey tj → i < j →
              ∃ index',
                EdgeData.siblingCount (Edge.data (layoutedEdge fsmData j tj)) = Some count
                ∧ EdgeData.siblingIndex (Edge.data (layoutedEdge fsmData j tj))
                  = Some index'
                ∧ index < index'
                ∧ getMultiEdgeCurvatureOffset index count None
                  ≠ getMultiEdgeCurvatureOffset index' count None.
Proof.
  intros Hi. destruct (sibling_ranks_by_key fsmData i ti Hi) as [Hc Hx].
  eexists _, _. split; [exact Hc|]. split; [exact Hx|].
  assert (countKey (edgeKey ti) (take i (FSMData.transitions fsmData))
          < countKey (edgeKey ti) (FSMData.transitions fsmData)) as Hlt.
  { rewrite <- (firstn_all (FSMData.transitions fsmData)) at 2.
    eapply countKey_take_lt; [done|]. by eapply lookup_lt_Some. }
  split; [done|]. intros j tj Hj Hkey Hij.
  destruct (sibling_ranks_by_key fsmData j tj Hj) as [Hc' Hx'].
  rewrite <- Hkey in Hc', Hx'. eexists. split; [exact Hc'|]. split; [exact Hx'|].
  pose proof (countKey_take_lt _ i j ti Hi Hij) as Hlt'. split; [done|].
  assert (countKey (edgeKey ti) (take j (FSMData.transitions fsmData))
          < countKey (edgeKey ti) (FSMData.transitions fsmData)) as Hlt''.
  { rewrite Hkey. rewrite <- (firstn_all (FSMData.transitions fsmData)) at 2.
    eapply countKey_take_lt; [done|]. by eapply lookup_lt_Some. }
  unfold getMultiEdgeCurvatureOffset.
  destruct (Nat.leb_spec (countKey (edgeKey ti) (FSMData.transitions fsmData)) 1);
    [lia|].
  simpl. intros Heq. apply lt_INR in Hlt'. nra.
Qed.

Lemma sibling_index_below_count_witness :
  FSMData.transitions scenarioC !! 0 = Some (transition "a" "b")
  ∧ ∃ count index,
      EdgeData.siblingCount
        (Edge.data (layoutedEdge scenarioC 0 (transition "a" "b"))) = Some count
      ∧ EdgeData.siblingIndex
          (Edge.data (layoutedEdge scenarioC 0 (transition "a" "b"))) = Some index
      ∧ index < count.
Proof.
  split; [reflexivity|].
  destruct (sibling_index_below_count scenarioC 0 (transition "a" "b") eq_refl)
    as (count & index & Hc & Hx & Hlt & _).
  exists count, index. split; [exact Hc|]. split; [exact Hx|exact Hlt].
Defined.

Lemma rimAdjacent_sym sorted a b : rimAdjacent sorted a b = rimAdjacent sorted b a.
Proof.
  unfold rimAdjacent. cbv zeta.
  set (ia := JS.findIndex (λ n, FSMState.id n = a) sorted).
  set (ib := JS.findIndex (λ n, FSMState.id n = b) sorted).
  rewrite (bool_decide_ext (ia ≠ (-1)%Z ∧ ib ≠ (-1)%Z) (ib ≠ (-1)%Z ∧ ia ≠ (-1)%Z))
    by tauto.
  by replace (Z.abs (ib - ia)) with (Z.abs (ia - ib)) by lia.
Qed.

(** X7: a transition and its reverse are classified alike: the edges of
    [a -> b] and [b -> a] carry the same [isSelfLoop], [isHubConnection]
    and [isNeighbor] flags, wherever the two transitions stand in the
    input. *)
Theorem reverse_edge_same_class fsmData i j t1 t2 :
  FSMTransition.source t2 = FSMTransition.target t1 →
  FSMTransition.target t2 = FSMTransition.source t1 →
  let d1 := Edge.data (layoutedEdge fsmData i t1) in
  let d2 := Edge.data (layoutedEdge fsmData j t2) in
  EdgeData.isSelfLoop d1 = EdgeData.isSelfLoop d2
  ∧ EdgeData.isHubConnection d1 = EdgeData.isHubConnection d2
  ∧ EdgeData.isNeighbor d1 = EdgeData.isNeighbor d2.
Proof.
  intros Hs Ht. simpl. rewrite Hs, Ht.
  assert (bool_decide (FSMTransition.source t1 = FSMTransition.target t1)
          = bool_decide (FSMTransition.target t1 = FSMTransition.source t1)) as ->
    by (apply bool_decide_ext; split; congruence).
  assert (bool_decide (Some (FSMTransition.source t1) = hubId fsmData
                       ∨ Some (FSMTransition.target t1) = hubId fsmData)
          = bool_decide (Some (FSMTransition.target t1) = hubId fsmData
                         ∨ Some (FSMTransition.source t1) = hubId fsmData)) as ->
    by (apply bool_decide_ext; tauto).
  by rewrite rimAdjacent_sym.
Qed.

Lemma reverse_edge_same_class_witness :
  EdgeData.isNeighbor (Edge.data (layoutedEdge scenarioA 1 (transition "run" "done")))
  = EdgeData.isNeighbor (Edge.data (layoutedEdge scenarioA 7 (transition "done" "run"))).
Proof.
  exact (proj2 (proj2 (reverse_edge_same_class scenarioA 1 7
                         (transition "run" "done") (transition "done" "run")
                         eq_refl eq_refl))).
Defined.

Lemma pretty_N_go_avoids x s :
  avoids "_" s → avoids "_" (pretty_N_go x s).
Proof.
  revert s. induction (N.lt_wf_0 x) as [x _ IH]; intros s Hs.
  assert (x = 0 ∨ 0 < x)%N as [->|Hpos] by lia; [by rewrite pretty_N_go_0|].
  rewrite pretty_N_go_step by done. apply IH; [by apply N.div_lt|].
  split; [|done]. unfold pretty_N_char. by repeat case_match.
Qed.

Lemma pretty_nat_avoids (i : nat) : avoids "_" (pretty i).
Proof.
  unfold pretty, pretty_nat, pretty, pretty_N.
  case_decide; [by split|]. by apply pretty_N_go_avoids.
Qed.

Lemma separator_inj c d1 d2 r1 r2 :
  avoids c d1 → avoids c d2 →
  d1 ++ String c r1 = d2 ++ String c r2 → d1 = d2 ∧ r1 = r2.
Proof.
  revert d2. induction d1 as [|a d1 IH]; intros [|b d2]; simpl.
  - by intros _ _ [= ->].
  - intros _ [Hb _] [= ? _]. by destruct Hb.
  - intros [Ha _] _ [= ? _]. by destruct Ha.
  - intros [_ H1] [_ H2] [= -> Heq]. by destruct (IH d2 H1 H2 Heq) as [-> ->].
Qed.

(** X8: the edges mirror the transitions, on every input: there is one
    edge per transition, in input order, with the transition's source,
    target, condition and action and with the 1-based position as label;
    and no two edges have the same id or the same label. *)
Theorem edges_mirror_transitions fsmData :
  length (edges (getRadialLayoutElements fsmData))
  = length (FSMData.transitions fsmData)
  ∧ (∀ i t, FSMData.transitions fsmData !! i = Some t →
       ∃ e, edges (getRadialLayoutElements fsmData) !! i = Some e
            ∧ Edge.source e = FSMTransition.source t
            ∧ Edge.target e = FSMTransition.target t
            ∧ EdgeData.condition (Edge.data e) = FSMTransition.condition t
            ∧ EdgeData.action (Edge.data e) = FSMTransition.action t
            ∧ Edge.label e = pretty (i + 1)
            ∧ EdgeData.id (Edge.data e) = Edge.label e)
  ∧ ∀ i j ei ej,
      edges (getRadialLayoutElements fsmData) !! i = Some ei →
      edges (getRadialLayoutElements fsmData) !! j = Some ej →
      Edge.id ei = Edge.id ej ∨ Edge.label ei = Edge.label ej → i = j.
Proof.
  simpl. unfold layoutedEdges. split_and!.
  - apply length_imap.
  - intros i t Ht. exists (layoutedEdge fsmData i t).
    by rewrite list_lookup_imap, Ht.
  - intros i j ei ej. rewrite !list_lookup_imap.
    destruct (FSMData.transitions fsmData !! i) as [ti|]; [|done].
    destruct (FSMData.transitions fsmData !! j) as [tj|]; [|done].
    simpl. intros [= <-] [= <-]. simpl. intros [Hid|Hlabel].
    + do 7 (apply (f_equal (λ s, match s with String _ s' => s' | _ => s end)) in Hid;
            cbn [String.append] in Hid).
      apply separator_inj in Hid as [Hi _]; [|apply pretty_nat_avoids..].
      by apply (inj pretty) in Hi.
    + apply (inj pretty) in Hlabel. lia.
Qed.

Lemma edges_mirror_transitions_witness :
  ∃ e, edges (getRadialLayoutElements scenarioA) !! 2 = Some e
       ∧ Edge.source e = "done" ∧ Edge.target e = "idle".
Proof.
  destruct (edges_mirror_transitions scenarioA) as (_ & Hedge & _).
  destruct (Hedge 2 (transition "done" "idle") eq_refl)
    as (e & He & Hs & Ht & _).
  exists e. split; [exact He|]. split; [exact Hs|exact Ht].
Defined.

(** Every placed node shows the id and the label of a state. *)
Lemma placed_node_state fsmData node :
  node ∈ layoutedNodes fsmData →
  ∃ s, s ∈ FSMData.states fsmData
       ∧ Node.id node = FSMState.id s
       ∧ NodeData.label (Node.data node) = FSMState.label s.
Proof.
  unfold layoutedNodes. intros [Hhub|Hrim]%elem_of_app.
  - destruct (hubNodeData fsmData) as [h|] eqn:Hh; simpl in Hhub;
      [|by apply elem_of_nil in Hhub].
    apply list_elem_of_singleton in Hhub as ->. exists h. split; [|done].
    unfold hubNodeData in Hh. apply find_Some in Hh as (i & Hi & _).
    by eapply list_elem_of_lookup_2.
  - apply elem_of_lookup_imap in Hrim as (i & s & -> & Hs). exists s.
    split; [|done]. apply list_elem_of_lookup_2, rimSorting_rim in Hs.
    by apply rimNodes_spec in Hs as [? _].
Qed.

Lemma label_of_placed fsmData i s :
  uniqueIds fsmData → targetsExist fsmData →
  s ∈ FSMData.states fsmData → FSMState.id s = i →
  (NodeData.label ∘ Node.data) <$>
    JS.find (λ n, Node.id n = i) (layoutedNodes fsmData)
  = Some (FSMState.label s).
Proof.
  intros Hunique Htargets Hs Hid.
  destruct (JS.find _ _) as [node|] eqn:Hf.
  - apply find_Some in Hf as (k & Hk & Hnode & _).
    destruct (placed_node_state fsmData node) as (s' & Hs' & Hid' & Hlabel);
      [by eapply list_elem_of_lookup_2|].
    simpl. rewrite Hlabel. do 2 f_equal.
    apply list_elem_of_lookup_1 in Hs as [a Ha], Hs' as [b Hb].
    assert (a = b) as ->; [|congruence].
    eapply (NoDup_lookup _ a b i); [exact Hunique|..];
      rewrite list_lookup_fmap; [rewrite Ha|rewrite Hb]; simpl; congruence.
  - exfalso.
    assert (i ∈ Node.id <$> layoutedNodes fsmData) as (node & Hnode & Hin)%list_elem_of_fmap.
    { pose proof (every_state_placed_once fsmData Hunique Htargets) as [Hperm _].
      simpl in Hperm. rewrite Hperm, <- Hid. by apply list_elem_of_fmap_2. }
    by destruct (proj1 (find_None _ _) Hf node Hin).
Qed.

(** X9: on well-formed input an edge names its endpoints by their labels:
    [sourceLabel] is the label of the state with the transition's source
    id, and [targetLabel] the label of the state with its target id. *)
Theorem edge_endpoint_labels fsmData i t s :
  uniqueIds fsmData → targetsExist fsmData →
  s ∈ FSMData.states fsmData →
  (FSMState.id s = FSMTransition.source t →
   EdgeData.sourceLabel (Edge.data (layoutedEdge fsmData i t))
   = Some (FSMState.label s))
  ∧ (FSMState.id s = FSMTransition.target t →
     EdgeData.targetLabel (Edge.data (layoutedEdge fsmData i t))
     = Some (FSMState.label s)).
Proof.
  intros Hunique Htargets Hs. split; intros Hid; simpl;
    by apply label_of_placed.
Qed.

Lemma edge_endpoint_labels_witness :
  uniqueIds scenarioA ∧ targetsExist scenarioA
  ∧ EdgeData.sourceLabel (Edge.data (layoutedEdge scenarioA 1 (transition "run" "done")))
    = Some "RUN".
Proof.
  assert (uniqueIds scenarioA) as Hu.
  { unfold uniqueIds. apply (bool_decide_unpack _). vm_compute. exact I. }
  assert (targetsExist scenarioA) as Ht.
  { unfold targetsExist. apply Forall_forall.
    apply (bool_decide_unpack _). vm_compute. exact I. }
  split; [exact Hu|]. split; [exact Ht|].
  assert (state "run" "RUN" ∈ FSMData.states scenarioA) as Hs by (right; left).
  exact (proj1 (edge_endpoint_labels scenarioA 1 (transition "run" "done")
                  (state "run" "RUN") Hu Ht Hs) eq_refl).
Defined.

(** ** Spacing on the rim *)

Lemma chord_square (r a b : R) :
  ((r * cos b - r * cos a) * (r * cos b - r * cos a)
   + (r * sin b - r * sin a) * (r * sin b - r * sin a)
   = 2 * (r * r) * (1 - cos (b - a)))%R.
Proof.
  rewrite cos_minus.
  pose proof (sin2_cos2 a) as Ha. pose proof (sin2_cos2 b) as Hb.
  unfold Rsqr in Ha, Hb. nra.
Qed.

Lemma finalAngle_next_cos len index :
  index < len →
  cos (finalAngle len (S index mod len) - finalAngle len index)
  = cos (2 * PI / INR len).
Proof.
  intros Hlt. destruct (decide (S index < len)) as [Hs|Hs].
  - rewrite Nat.mod_small by done. by rewrite finalAngle_step.
  - assert (S index = len) as Hlen by lia.
    rewrite Hlen, Nat.Div0.mod_same.
    replace (finalAngle len 0 - finalAngle len index)%R
      with (2 * PI / INR len - 2 * PI)%R
      by (rewrite <- (finalAngle_wrap len index Hlen); ring).
    rewrite cos_minus, cos_2PI, sin_2PI. ring.
Qed.

(** X10: the rim nodes are equally spaced: the squared distance between
    a rim node and the next one round the ring (the first one after the
    last) is [2·RADIUS²·(1 − cos(2π/n))], the same for every pair. *)
Theorem rim_nodes_equally_spaced fsmData i s s' :
  let sorted := rimSorting fsmData in
  let n := length sorted in
  let k := length (option_list (hubNodeData fsmData)) in
  let placed := nodes (getRadialLayoutElements fsmData) in
  sorted !! i = Some s → sorted !! (S i mod n) = Some s' →
  ∃ p q,
    Node.position <$> placed !! (k + i) = Some p
    ∧ Node.position <$> placed !! (k + S i mod n) = Some q
    ∧ ((x q - x p) * (x q - x p) + (y q - y p) * (y q - y p)
       = 2 * (RADIUS * RADIUS) * (1 - cos (2 * PI / INR n)))%R.
Proof.
  intros sorted n k placed Hi Hnext.
  exists (Node.position (rimNode n i s)), (Node.position (rimNode n (S i mod n) s')).
  assert (∀ j t, sorted !! j = Some t → placed !! (k + j) = Some (rimNode n j t))
    as Hplaced.
  { intros j t Hj. unfold placed, k. simpl. unfold layoutedNodes.
    fold sorted n. destruct (hubNodeData fsmData); simpl;
      by rewrite list_lookup_imap, Hj. }
  rewrite (Hplaced _ _ Hi), (Hplaced _ _ Hnext). split_and!; [done|done|].
  simpl. rewrite chord_square, finalAngle_next_cos; [done|].
  by eapply lookup_lt_Some.
Qed.

Lemma rim_nodes_equally_spaced_witness :
  rimSorting scenarioA !! 1 = Some (state "done" "DONE")
  ∧ ∃ p q, Node.position <$> nodes (getRadialLayoutElements scenarioA) !! 2 = Some p
           ∧ Node.position <$> nodes (getRadialLayoutElements scenarioA) !! 1 = Some q.
Proof.
  assert (rimSorting scenarioA !! 1 = Some (state "done" "DONE")) as H1
    by (vm_compute; reflexivity).
  assert (rimSorting scenarioA !! (2 mod length (rimSorting scenarioA))
          = Some (state "run" "RUN")) as H0
    by (vm_compute; reflexivity).
  split; [exact H1|].
  destruct (rim_nodes_equally_spaced scenarioA 1 _ _ H1 H0) as (p & q & Hp & Hq & _).
  exists p, q. split; [exact Hp|exact Hq].
Defined.

(** * Further properties of the edge geometry *)

(** ** Anchors *)

Lemma getPointOnCircle_far cx cy tx ty :
  let d := sqrt ((tx - cx) * (tx - cx) + (ty - cy) * (ty - cy)) in
  d ≠ 0%R →
  getPointOnCircle cx cy tx ty
  = Some {| x := (cx + (tx - cx) / d * NODE_RADIUS)%R;
            y := (cy + (ty - cy) / d * NODE_RADIUS)%R |}.
Proof.
  intros d Hd. unfold getPointOnCircle.
  destruct (normalize_spec (tx - cx) (ty - cy)) as (v & -> & _ & Hv).
  by destruct (Hv Hd) as [-> _].
Qed.

Lemma getPointOnCircle_same cx cy :
  getPointOnCircle cx cy cx cy = Some {| x := cx; y := cy |}.
Proof.
  unfold getPointOnCircle.
  replace (cx - cx)%R with 0%R by ring. replace (cy - cy)%R with 0%R by ring.
  rewrite normalize_origin. cbn [mbind option_bind x y]. do 2 f_equal; ring.
Qed.

(** X11: the anchor of an edge on a node.  [getPointOnCircle] always
    returns a point; when the target differs from the centre, the point lies
    on the circle of radius [NODE_RADIUS] around the centre, on the ray
    from the centre to the target; when they coincide, it is the centre. *)
Theorem anchor_on_node_circle cx cy tx ty :
  let d := sqrt ((tx - cx) * (tx - cx) + (ty - cy) * (ty - cy)) in
  ∃ p, getPointOnCircle cx cy tx ty = Some p
       ∧ (d = 0%R → p = {| x := cx; y := cy |})
       ∧ (d ≠ 0%R →
          distance (x p, y p) (cx, cy) = NODE_RADIUS
          ∧ (x p - cx = NODE_RADIUS / d * (tx - cx))%R
          ∧ (y p - cy = NODE_RADIUS / d * (ty - cy))%R).
Proof.
  intros d. destruct (decide (d = 0%R)) as [Hz|Hnz].
  - unfold d in Hz. apply sqrt_sum_squares_zero in Hz as [Hx Hy].
    assert (tx = cx) as Htx by (clear - Hx; lra).
    assert (ty = cy) as Hty by (clear - Hy; lra).
    subst tx ty.
    eexists. split; [apply getPointOnCircle_same|]. split; [done|].
    intros Hd. exfalso. apply Hd. unfold d. apply sqrt_sum_squares_zero. lra.
  - eexists. split; [by apply getPointOnCircle_far|]. split; [done|]. intros _.
    fold d. cbn [x y]. split_and!; [|by field..].
    unfold distance. cbn [fst snd].
    assert (d * d = (tx - cx) * (tx - cx) + (ty - cy) * (ty - cy))%R as Hsq
      by (apply sqrt_sqrt; clear; generalize (tx - cx)%R (ty - cy)%R; intros; nra).
    replace (_ + _)%R
      with (NODE_RADIUS * NODE_RADIUS
            * (((tx - cx) * (tx - cx) + (ty - cy) * (ty - cy)) / (d * d)))%R
      by (by field).
    rewrite <- Hsq. replace (d * d / (d * d))%R with 1%R by (by field).
    rewrite Rmult_1_r. apply sqrt_square. unfold NODE_RADIUS. lra.
Qed.

Lemma anchor_on_node_circle_witness :
  ∃ p, getPointOnCircle 0 0 96 0 = Some p ∧ (x p - 0 = NODE_RADIUS / 96 * (96 - 0))%R.
Proof.
  destruct (anchor_on_node_circle 0 0 96 0) as (p & Hp & _ & Hfar).
  exists p. split; [exact Hp|].
  assert (sqrt ((96 - 0) * (96 - 0) + (0 - 0) * (0 - 0)) = 96%R) as Hd
    by (apply sqrt_sum_squares; lra).
  rewrite Hd in Hfar. apply Hfar. lra.
Defined.

(** ** Curved connections *)

Lemma connection_curved_None start end_ sX sY tX tY off :
  getPointOnCircle sX sY tX tY = Some start →
  getPointOnCircle tX tY sX sY = Some end_ →
  connectionGeometry sX sY tX tY false off = None ↔
  sqrt ((x end_ - x start) * (x end_ - x start)
        + (y end_ - y start) * (y end_ - y start)) = 0%R.
Proof.
  intros Hs He. unfold connectionGeometry. rewrite Hs, He.
  cbn [mbind option_bind]. unfold jsdiv.
  destruct (decide (sqrt _ = 0%R)) as [Hz|Hnz]; simpl; [done|].
  split; [done|]. intros Hz. by destruct Hnz.
Qed.

(** X12: when the curved branch divides by zero.  A curved connection has
    no defined path exactly when the two centres coincide or are one node
    diameter ([2 · NODE_RADIUS = 96]) apart; in every other position the
    path is defined. *)
Theorem curved_connection_undefined_iff sX sY tX tY off :
  let d := sqrt ((tX - sX) * (tX - sX) + (tY - sY) * (tY - sY)) in
  connectionGeometry sX sY tX tY false off = None ↔ d = 0%R ∨ d = 96%R.
Proof.
  intros d. destruct (decide (d = 0%R)) as [Hz|Hnz].
  - split; [by left|]. intros _.
    unfold d in Hz. apply sqrt_sum_squares_zero in Hz as [Hx Hy].
    assert (tX = sX) as Htx by (clear - Hx; lra).
    assert (tY = sY) as Hty by (clear - Hy; lra). subst tX tY.
    eapply connection_curved_coincident; apply getPointOnCircle_same.
  - assert (sqrt ((sX - tX) * (sX - tX) + (sY - tY) * (sY - tY)) = d) as Hrev.
    { unfold d. f_equal. ring. }
    pose proof (getPointOnCircle_far sX sY tX tY Hnz) as Hs. fold d in Hs.
    pose proof (getPointOnCircle_far tX tY sX sY) as He. cbv zeta in He.
    rewrite Hrev in He. specialize (He Hnz).
    rewrite (connection_curved_None _ _ _ _ _ _ off Hs He).
    cbn [x y]. rewrite sqrt_sum_squares_zero. unfold NODE_RADIUS.
    assert (d * d = (tX - sX) * (tX - sX) + (tY - sY) * (tY - sY))%R as Hsq.
    { apply sqrt_sqrt. clear. generalize (tX - sX)%R (tY - sY)%R. intros. nra. }
    set (a := (tX - sX)%R) in *. set (b := (tY - sY)%R) in *.
    replace (tX + (sX - tX) / d * 48 - (sX + a / d * 48))%R
      with (a * ((d - 96) / d))%R by (unfold a; by field).
    replace (tY + (sY - tY) / d * 48 - (sY + b / d * 48))%R
      with (b * ((d - 96) / d))%R by (unfold b; by field).
    split.
    + intros [Ha Hb]. right.
      destruct (decide (d = 96%R)) as [|Hne]; [done|]. exfalso.
      assert ((d - 96) / d ≠ 0)%R as Hq.
      { intros Hq. apply Hne. apply Rmult_eq_compat_r with (r := d) in Hq.
        field_simplify in Hq; [lra|done]. }
      apply Rmult_integral in Ha as [Ha|Ha]; [|done].
      apply Rmult_integral in Hb as [Hb|Hb]; [|done].
      apply Hnz. clearbody d a b. nra.
    + intros [Hd|Hd]; [done|]. rewrite Hd.
      replace ((96 - 96) / 96)%R with 0%R by lra. by rewrite !Rmult_0_r.
Qed.

Lemma curved_connection_undefined_iff_witness :
  connectionGeometry 0 0 96 0 false 0 = None.
Proof.
  apply (proj2 (curved_connection_undefined_iff 0 0 96 0 0)). right.
  replace ((96 - 0) * (96 - 0) + (0 - 0) * (0 - 0))%R with (96 * 96)%R by ring.
  apply sqrt_square. lra.
Defined.

(** X13: the shape of a curved connection, whenever its path is defined.
    The path runs from the anchor on the source node to the anchor on the
    target node; its control point is displaced from the midpoint of the
    two anchors at a right angle to the chord, by the arch height, which is
    [0.15] times the chord length clamped to [30, 80] plus the curvature
    offset; and the label sits halfway between midpoint and control
    point. *)
Theorem curved_connection_shape sX sY tX tY off g :
  connectionGeometry sX sY tX tY false off = Some g →
  ∃ start end_ cx cy,
    getPointOnCircle sX sY tX tY = Some start
    ∧ getPointOnCircle tX tY sX sY = Some end_
    ∧ path g = [MoveTo (x start) (y start); QuadTo cx cy (x end_) (y end_)]
    ∧ let mx := ((x start + x end_) / 2)%R in
      let my := ((y start + y end_) / 2)%R in
      let len := distance (x end_, y end_) (x start, y start) in
      let archHeight := (Rmin 80 (Rmax 30 (len * 0.15)) + off)%R in
      ((cx - mx) * (x end_ - x start) + (cy - my) * (y end_ - y start) = 0)%R
      ∧ ((cx - mx) * (cx - mx) + (cy - my) * (cy - my) = archHeight * archHeight)%R
      ∧ (30 + off <= archHeight <= 80 + off)%R
      ∧ labelX g = ((mx + cx) / 2)%R
      ∧ labelY g = ((my + cy) / 2)%R.
Proof.
  unfold connectionGeometry.
  destruct (getPointOnCircle_is_Some sX sY tX tY) as [start Hs].
  destruct (getPointOnCircle_is_Some tX tY sX sY) as [end_ He].
  rewrite Hs, He. cbn [mbind option_bind]. unfold jsdiv.
  set (dx := (x end_ - x start)%R). set (dy := (y end_ - y start)%R).
  set (len := sqrt (dx * dx + dy * dy)).
  destruct (decide (len = 0%R)) as [|Hlen]; [done|]. simpl. intros [= <-].
  eexists start, end_, _, _. split; [done|]. split; [done|]. split; [done|].
  cbn [labelX labelY]. unfold distance. cbn [fst snd]. fold dx dy len.
  assert (len * len = dx * dx + dy * dy)%R as Hsq.
  { apply sqrt_sqrt. clearbody dx dy. nra. }
  set (h := (Rmin 80 (Rmax 30 (len * 0.15)) + off)%R).
  split_and!.
  - by field.
  - replace (_ + _)%R with (h * h * ((dx * dx + dy * dy) / (len * len)))%R
      by (by field).
    rewrite <- Hsq. by field.
  - unfold h. apply Rplus_le_compat_r.
    apply Rmin_glb; [lra|]. etrans; [|apply Rmax_l]. lra.
  - unfold h. apply Rplus_le_compat_r. apply Rmin_l.
  - lra.
  - lra.
Qed.

Lemma curved_connection_shape_witness :
  ∃ g start end_,
    connectionGeometry 0 0 200 0 false 0 = Some g
    ∧ getPointOnCircle 0 0 200 0 = Some start
    ∧ getPointOnCircle 200 0 0 0 = Some end_.
Proof.
  destruct (connectionGeometry 0 0 200 0 false 0) as [g|] eqn:Hg.
  - destruct (curved_connection_shape 0 0 200 0 0 g Hg)
      as (start & end_ & _ & _ & Hs & He & _).
    exists g, start, end_. split; [reflexivity|]. split; [exact Hs|exact He].
  - exfalso. apply curved_connection_undefined_iff in Hg.
    assert (sqrt ((200 - 0) * (200 - 0) + (0 - 0) * (0 - 0)) = 200%R) as Hd
      by (apply sqrt_sum_squares; lra).
    rewrite Hd in Hg. lra.
Defined.



(** ** Straight connections *)

Lemma anchors_midpoint sX sY tX tY start end_ :
  getPointOnCircle sX sY tX tY = Some start →
  getPointOnCircle tX tY sX sY = Some end_ →
  (x start + x end_ = sX + tX)%R ∧ (y start + y end_ = sY + tY)%R.
Proof.
  set (d := sqrt ((tX - sX) * (tX - sX) + (tY - sY) * (tY - sY))).
  destruct (decide (d = 0%R)) as [Hz|Hnz].
  - unfold d in Hz. apply sqrt_sum_squares_zero in Hz as [Hx Hy].
    assert (tX = sX) as Htx by (clear - Hx; lra).
    assert (tY = sY) as Hty by (clear - Hy; lra). subst tX tY.
    rewrite getPointOnCircle_same. by intros [= <-] [= <-].
  - assert (sqrt ((sX - tX) * (sX - tX) + (sY - tY) * (sY - tY)) = d) as Hrev.
    { unfold d. f_equal. ring. }
    pose proof (getPointOnCircle_far sX sY tX tY Hnz) as Hs. fold d in Hs.
    pose proof (getPointOnCircle_far tX tY sX sY) as He. cbv zeta in He.
    rewrite Hrev in He. specialize (He Hnz). rewrite Hs, He.
    intros [= <-] [= <-]. cbn [x y]. split; by field.
Qed.

(** X15: a straight connection is always drawn, whatever the positions of
    the two nodes: its path is the segment between the anchors on the two
    nodes, and its label sits at the midpoint between the two centres.
    [RadialEdge] therefore never divides by zero for an edge in straight
    mode. *)
Theorem straight_connection_always_drawn sX sY tX tY off :
  (∃ g start end_,
     connectionGeometry sX sY tX tY true off = Some g
     ∧ getPointOnCircle sX sY tX tY = Some start
     ∧ getPointOnCircle tX tY sX sY = Some end_
     ∧ path g = [MoveTo (x start) (y start); LineTo (x end_) (y end_)]
     ∧ labelX g = ((sX + tX) / 2)%R
     ∧ labelY g = ((sY + tY) / 2)%R)
  ∧ ∀ data, EdgeData.isSelfLoop data = false →
            EdgeData.isStraight data = Some true →
            ∃ g, RadialEdge (Some sX) (Some sY) (Some tX) (Some tY) (Some data)
                 = RenderPath g.
Proof.
  destruct (getPointOnCircle_is_Some sX sY tX tY) as [start Hs].
  destruct (getPointOnCircle_is_Some tX tY sX sY) as [end_ He].
  destruct (anchors_midpoint _ _ _ _ _ _ Hs He) as [Hx Hy].
  assert (∀ o, connectionGeometry sX sY tX tY true o
               = Some {| path := [MoveTo (x start) (y start); LineTo (x end_) (y end_)];
                         labelX := ((x start + x end_) / 2)%R;
                         labelY := ((y start + y end_) / 2)%R |}) as Hgeo.
  { intros o. unfold connectionGeometry. by rewrite Hs, He. }
  split.
  - eexists _, start, end_. split; [apply Hgeo|]. cbn [path labelX labelY].
    split_and!; [done|done|done|by rewrite Hx|by rewrite Hy].
  - intros data Hself Hstraight. eexists.
    unfold RadialEdge, radialEdgeGeometry. simpl.
    by rewrite Hself, Hstraight, Hgeo.
Qed.

Lemma straight_connection_always_drawn_witness :
  ∃ g, RadialEdge (Some 0%R) (Some 0%R) (Some 0%R) (Some 0%R)
         (Some (Edge.data (withIsStraight true
                  (layoutedEdge scenarioA 0 (transition "idle" "run")))))
       = RenderPath g.
Proof.
  apply (proj2 (straight_connection_always_drawn 0 0 0 0 0)); reflexivity.
Defined.

(** ** Self-loops and sibling fans *)

Lemma cos_offset_angle_pos : (0 < cos OFFSET_ANGLE)%R.
Proof.
  pose proof PI2_1. unfold OFFSET_ANGLE. apply cos_gt_0; lra.
Qed.

(** X16: how self-loops stack.  For a node whose anchor is not the origin,
    the two control points of the loop lie at distance
    [NODE_RADIUS + 70 + 15·siblingIndex] from the anchor, and the label lies
    on the ray from the origin through the anchor, beyond the anchor by
    [(NODE_RADIUS + 0.75·(70 + 15·siblingIndex))·cos 0.6 > 0]: each further
    sibling loop reaches further out. *)
Theorem self_loops_stack_outward sX sY siblingIndex :
  sX ≠ 0%R ∨ sY ≠ 0%R →
  let len := sqrt (sX * sX + sY * sY) in
  let loopSize := (70 + INR siblingIndex * 15)%R in
  let reach := ((NODE_RADIUS + 0.75 * loopSize) * cos OFFSET_ANGLE)%R in
  ∃ g px py c1x c1y c2x c2y qx qy,
    selfLoopGeometry sX sY siblingIndex = Some g
    ∧ path g = [MoveTo px py; CubicTo c1x c1y c2x c2y qx qy]
    ∧ distance (c1x, c1y) (sX, sY) = (NODE_RADIUS + loopSize)%R
    ∧ distance (c2x, c2y) (sX, sY) = (NODE_RADIUS + loopSize)%R
    ∧ (labelX g - sX = reach * (sX / len))%R
    ∧ (labelY g - sY = reach * (sY / len))%R
    ∧ (0 < reach)%R.
Proof.
  intros Hne len loopSize reach.
  destruct (normalize_spec sX sY) as (v & Hv & _ & Hunit). fold len in Hunit.
  destruct Hunit as [-> Hunit].
  { intros [-> ->]%sqrt_sum_squares_zero. by destruct Hne. }
  cbn [x y] in Hunit. unfold selfLoopGeometry. rewrite Hv.
  cbn [mbind option_bind x y]. fold loopSize.
  pose proof (sin2_cos2 OFFSET_ANGLE) as Htrig. unfold Rsqr in Htrig.
  pose proof cos_offset_angle_pos as Hcos.
  assert (0 <= loopSize)%R as Hloop.
  { unfold loopSize. pose proof (pos_INR siblingIndex). lra. }
  unfold reach, NODE_RADIUS in *.
  set (c := cos OFFSET_ANGLE) in *. set (s := sin OFFSET_ANGLE) in *.
  set (ux := (sX / len)%R) in *. set (uy := (sY / len)%R) in *.
  clearbody c s ux uy loopSize.
  eexists _, _, _, _, _, _, _, _, _. split; [reflexivity|].
  split; [reflexivity|]. cbn [labelX labelY]. unfold distance. cbn [fst snd].
  split_and!.
  - replace (_ + _)%R
      with ((48 + loopSize) * (48 + loopSize)
            * ((ux * ux + uy * uy) * (s * s + c * c)))%R by ring.
    rewrite Hunit, Htrig, !Rmult_1_r. apply sqrt_square. lra.
  - replace (_ + _)%R
      with ((48 + loopSize) * (48 + loopSize)
            * ((ux * ux + uy * uy) * (s * s + c * c)))%R by ring.
    rewrite Hunit, Htrig, !Rmult_1_r. apply sqrt_square. lra.
  - lra.
  - lra.
  - nra.
Qed.

Lemma self_loops_stack_outward_witness :
  (48 ≠ 0 ∨ 48 ≠ 0)%R ∧ ∃ g, selfLoopGeometry 48 48 1 = Some g.
Proof.
  assert (48 ≠ 0 ∨ 48 ≠ 0)%R as Hne by (left; lra).
  split; [exact Hne|].
  destruct (self_loops_stack_outward 48 48 1 Hne) as (g & _ & _ & _ & _ & _ & _ & _ & _ & Hg & _).
  exists g. exact Hg.
Defined.

(** X17: the fan of sibling edges.  In a group of two or more siblings,
    consecutive siblings are offset by exactly the spacing ([50] when none
    is given, as in [RadialEdge]), and the offsets are mirror images: the
    sibling at index [count - 1 - index] has the opposite offset of the one
    at [index]. *)
Theorem sibling_fan_evenly_spaced index count spacing :
  1 < count →
  let step := default 50%R spacing in
  (getMultiEdgeCurvatureOffset (S index) count spacing
   - getMultiEdgeCurvatureOffset index count spacing = step)%R
  ∧ (index < count →
     getMultiEdgeCurvatureOffset (count - 1 - index) count spacing
     = (- getMultiEdgeCurvatureOffset index count spacing)%R).
Proof.
  intros Hcount step. unfold getMultiEdgeCurvatureOffset. fold step.
  destruct (Nat.leb_spec count 1); [lia|]. split.
  - rewrite S_INR. field.
  - intros Hlt. rewrite !minus_INR by lia. simpl INR. field.
Qed.

Lemma sibling_fan_evenly_spaced_witness :
  (getMultiEdgeCurvatureOffset 1 3 None - getMultiEdgeCurvatureOffset 0 3 None = 50)%R.
Proof.
  assert (1 < 3) as H by lia.
  exact (proj1 (sibling_fan_evenly_spaced 0 3 None H)).
Defined.

(** * Further properties of the other layouts *)

(** ** The linear layout *)

(** X18: the linear layout puts the states in one row, in input order:
    the node at position [i] carries the id of the [i]-th state, every
    node has the ordinate 300, and two nodes that are [j - i] places apart
    are [250 * (j - i)] apart, hence at least 250, so that no two nodes
    share a position. *)
Theorem linear_nodes_in_a_row fsmData i j n m :
  linearNodes (getLayoutedElements fsmData) !! i = Some n →
  linearNodes (getLayoutedElements fsmData) !! j = Some m →
  i < j →
  (FSMState.id <$> FSMData.states fsmData) !! i = Some (Node.id n)
  ∧ y (Node.position n) = 300%R
  ∧ y (Node.position m) = 300%R
  ∧ (x (Node.position m) - x (Node.position n) = 250 * INR (j - i))%R
  ∧ (250 <= x (Node.position m) - x (Node.position n))%R.
Proof.
  simpl. rewrite !list_lookup_imap, list_lookup_fmap.
  destruct (FSMData.states fsmData !! i) as [si|]; [|done].
  destruct (FSMData.states fsmData !! j) as [sj|]; [|done].
  simpl. intros [= <-] [= <-] Hlt. simpl.
  assert (1 <= INR (j - i))%R as Hgap by (apply (le_INR 1); lia).
  rewrite minus_INR in * by lia.
  repeat split; [ring|lra].
Qed.

Lemma linear_nodes_in_a_row_witness :
  ∃ n m, linearNodes (getLayoutedElements scenarioA) !! 0 = Some n
         ∧ linearNodes (getLayoutedElements scenarioA) !! 2 = Some m
         ∧ (250 <= x (Node.position m) - x (Node.position n))%R.
Proof.
  eexists _, _. split; [reflexivity|]. split; [reflexivity|].
  eapply (linear_nodes_in_a_row scenarioA 0 2); [reflexivity|reflexivity|lia].
Defined.

(** The edges of the linear layout mirror the transitions, on every
    input: one edge per transition, in input order, with the transition's
    source, target, condition and action and the 1-based position as
    label; and no two edges have the same id or the same label. *)
Lemma linear_edges_mirror_transitions fsmData :
  length (linearEdges (getLayoutedElements fsmData))
  = length (FSMData.transitions fsmData)
  ∧ (∀ i t, FSMData.transitions fsmData !! i = Some t →
       ∃ e, linearEdges (getLayoutedElements fsmData) !! i = Some e
            ∧ StubLayoutEdge.source e = FSMTransition.source t
            ∧ StubLayoutEdge.target e = FSMTransition.target t
            ∧ StubData.condition (StubLayoutEdge.data e)
              = FSMTransition.condition t
            ∧ StubData.action (StubLayoutEdge.data e) = FSMTransition.action t
            ∧ StubLayoutEdge.label e = pretty (i + 1)
            ∧ StubData.id (StubLayoutEdge.data e) = StubLayoutEdge.label e)
  ∧ ∀ i j ei ej,
      linearEdges (getLayoutedElements fsmData) !! i = Some ei →
      linearEdges (getLayoutedElements fsmData) !! j = Some ej →
      StubLayoutEdge.id ei = StubLayoutEdge.id ej
      ∨ StubLayoutEdge.label ei = StubLayoutEdge.label ej → i = j.
Proof.
  simpl. split_and!.
  - apply length_imap.
  - intros i t Ht. exists (linearEdge i t). by rewrite list_lookup_imap, Ht.
  - intros i j ei ej. rewrite !list_lookup_imap.
    destruct (FSMData.transitions fsmData !! i) as [ti|]; [|done].
    destruct (FSMData.transitions fsmData !! j) as [tj|]; [|done].
    simpl. intros [= <-] [= <-]. simpl. intros [Hid|Hlabel].
    + do 5 (apply (f_equal (λ s, match s with String _ s' => s' | _ => s end)) in Hid;
            cbn [String.append] in Hid).
      by apply (inj pretty) in Hid.
    + apply (inj pretty) in Hlabel. lia.
Qed.

(** * Further properties of the bus path *)

Lemma Rabs_half_nonneg (a : R) : (0 <= Rabs a / 2)%R.
Proof. pose proof (Rabs_pos a). lra. Qed.

(** X19: between two handles on the same side (both top or both bottom),
    with a corner radius that is not negative, [getBusPath] draws a path
    from the source point to the target point over the bus line
    [sourceY + offset], with the label over the middle of the bus.  The
    corner radius in use is at most the requested one, at most half the
    horizontal distance and at most half the height of the bus, so that
    the two rounded corners stay inside the rectangle spanned by the source
    point and the bus line: the vertical legs end between the source and
    the bus, and the horizontal run starts and ends between the two
    abscissas and never runs backwards. *)
Theorem bus_route_stays_in_box sX sY tX tY sp tp offset borderRadius :
  isBus sp tp = true →
  (0 <= default 15 borderRadius)%R →
  let busY := (sY + offset)%R in
  ∃ r x1 x2 y1,
    getBusPath (Some sX) sY (Some tX) tY sp tp offset borderRadius
    = BusRoute {| path := [MoveTo sX sY; LineTo sX y1;
                           QuadTo sX busY x1 busY; LineTo x2 busY;
                           QuadTo tX busY tX y1; LineTo tX tY];
                  labelX := ((sX + tX) / 2)%R;
                  labelY := busY |}
    ∧ (0 <= r <= default 15 borderRadius)%R
    ∧ (2 * r <= Rabs (tX - sX))%R
    ∧ (2 * r <= Rabs offset)%R
    ∧ Rabs (x1 - sX) = r ∧ Rabs (tX - x2) = r ∧ Rabs (busY - y1) = r
    ∧ (Rmin sX tX <= x1 <= Rmax sX tX)%R
    ∧ (Rmin sX tX <= x2 <= Rmax sX tX)%R
    ∧ (Rmin sY busY <= y1 <= Rmax sY busY)%R
    ∧ (0 <= (x2 - x1) * (tX - sX))%R.
Proof.
  intros Hbus Hrad busY.
  set (r := Rmin (default 15%R borderRadius)
                 (Rmin (Rabs (tX - sX) / 2) (Rabs (busY - sY) / 2))).
  assert (0 <= r)%R as Hr0.
  { unfold r. repeat apply Rmin_glb; auto using Rabs_half_nonneg. }
  assert (r <= default 15%R borderRadius)%R as Hr1 by apply Rmin_l.
  assert (2 * r <= Rabs (tX - sX))%R as Hr2.
  { pose proof (Rmin_r (default 15%R borderRadius)
                       (Rmin (Rabs (tX - sX) / 2) (Rabs (busY - sY) / 2))) as H1.
    pose proof (Rmin_l (Rabs (tX - sX) / 2) (Rabs (busY - sY) / 2)).
    fold r in H1. lra. }
  assert (2 * r <= Rabs (busY - sY))%R as Hr3.
  { pose proof (Rmin_r (default 15%R borderRadius)
                       (Rmin (Rabs (tX - sX) / 2) (Rabs (busY - sY) / 2))) as H1.
    pose proof (Rmin_r (Rabs (tX - sX) / 2) (Rabs (busY - sY) / 2)).
    fold r in H1. lra. }
  assert (getBusPath (Some sX) sY (Some tX) tY sp tp offset borderRadius
          = BusRoute (busRoute sX sY tX tY offset (default 15%R borderRadius)))
    as ->.
  { unfold getBusPath. by destruct sp, tp. }
  unfold busRoute. fold busY. fold r.
  eexists r, _, _, _. split; [reflexivity|].
  assert (busY - sY = offset)%R as Hoff by (unfold busY; ring).
  rewrite Hoff in Hr3.
  split; [done|]. split; [done|]. split; [done|].
  revert Hr2 Hr3. unfold Rmin, Rmax, Rabs.
  repeat (destruct (Rlt_dec _ _) || destruct (Rle_dec _ _)
          || destruct (Rcase_abs _)); intros;
    repeat split; try lra; try nra.
Qed.

Lemma bus_route_stays_in_box_witness :
  ∃ r, (0 <= r <= 15)%R ∧ (2 * r <= Rabs 40)%R.
Proof.
  destruct (bus_route_stays_in_box 0 0 100 0 Top Top 40 None eq_refl)
    as (r & _ & _ & _ & _ & Hr & _ & Hoff & _).
  - simpl. lra.
  - exists r. split; [exact Hr|exact Hoff].
Defined.

(** The other cases of [getBusPath]: without abscissas there is no path,
    a right-to-left connection is a Bezier curve of the rendering library
    whatever the offset, and every other combination of sides is a
    smooth-step path. *)
Lemma getBusPath_cases sX sY tX tY sp tp offset borderRadius :
  match getBusPath sX sY tX tY sp tp offset borderRadius with
  | BusEmpty => sX = None ∨ tX = None
  | BusBezier => sp = Right ∧ tp = Left
  | BusRoute _ => isBus sp tp = true
  | BusSmoothStep => isBus sp tp = false ∧ ¬ (sp = Right ∧ tp = Left)
  end.
Proof.
  unfold getBusPath. destruct sX, tX; [|by right|by left|by left].
  destruct sp, tp; simpl; try done; split; try done; by intros [? ?].
Qed.

(** * Further properties of the node handles *)

Lemma getPos_on_circle a :
  ((fst (getPos a) - handleC) * (fst (getPos a) - handleC)
   + (snd (getPos a) - handleC) * (snd (getPos a) - handleC)
   = NODE_RADIUS * NODE_RADIUS)%R.
Proof.
  unfold getPos, handleC, handleR, SIZE, NODE_RADIUS. simpl.
  pose proof (sin2_cos2 (a * PI / 180)) as H. unfold Rsqr in H.
  set (c := cos _) in *. set (s := sin _) in *. nra.
Qed.

Lemma sin_deg_pos a : (0 < a < 180)%R → (0 < sin (a * PI / 180))%R.
Proof. intros [H0 H1]. pose proof PI_RGT_0. apply sin_gt_0; nra. Qed.

Lemma sin_deg_neg a : (-180 < a < 0)%R → (sin (a * PI / 180) < 0)%R.
Proof.
  intros [H0 H1]. pose proof (sin_deg_pos (- a)) as H.
  replace (- a * PI / 180)%R with (- (a * PI / 180))%R in H by field.
  rewrite sin_neg in H. lra.
Qed.

Lemma cos_deg_pos a : (-90 < a < 90)%R → (0 < cos (a * PI / 180))%R.
Proof. intros [H0 H1]. pose proof PI_RGT_0. apply cos_gt_0; nra. Qed.

Lemma cos_deg_neg a : (90 < a < 270)%R → (cos (a * PI / 180) < 0)%R.
Proof. intros [H0 H1]. pose proof PI_RGT_0. apply cos_lt_0; nra. Qed.

Lemma getPos_cardinal :
  getPos (-90) = (48, 0)%R ∧ getPos 0 = (96, 48)%R
  ∧ getPos 90 = (48, 96)%R ∧ getPos 180 = (0, 48)%R.
Proof.
  unfold getPos, handleC, handleR, SIZE.
  replace (-90 * PI / 180)%R with (- (PI / 2))%R by field.
  replace (0 * PI / 180)%R with 0%R by field.
  replace (90 * PI / 180)%R with (PI / 2)%R by field.
  replace (180 * PI / 180)%R with PI by field.
  rewrite cos_neg, sin_neg, cos_PI2, sin_PI2, cos_0, sin_0, cos_PI, sin_PI.
  repeat split; f_equal; lra.
Qed.

(** X20: the twelve rim handles of a circular node.  Every handle sits on
    the boundary circle of the node, whose radius is the [NODE_RADIUS] that
    the edge geometry uses for its anchors; it sits in the half of the node
    named by the side it is declared on; and the handles [top], [right],
    [bottom] and [left] sit at the four extreme points of the circle. *)
Theorem handles_on_node_boundary h :
  h ∈ handles →
  let p := getPos (HandleSpec.angle h) in
  ((fst p - handleC) * (fst p - handleC) + (snd p - handleC) * (snd p - handleC)
   = NODE_RADIUS * NODE_RADIUS)%R
  ∧ inHalf (HandleSpec.pos h) p
  ∧ (HandleSpec.id h = "top" → p = (48, 0)%R)
  ∧ (HandleSpec.id h = "right" → p = (96, 48)%R)
  ∧ (HandleSpec.id h = "bottom" → p = (48, 96)%R)
  ∧ (HandleSpec.id h = "left" → p = (0, 48)%R).
Proof.
  intros Hin p. split; [apply getPos_on_circle|].
  destruct getPos_cardinal as (Ht & Hr & Hb & Hl).
  assert (0 < handleR)%R as HR by (unfold handleR, SIZE; lra).
  unfold handles in Hin.
  repeat (apply elem_of_cons in Hin as [->|Hin]);
    [..|by apply elem_of_nil in Hin];
    (split; [|by repeat split]);
    unfold p, inHalf, getPos; cbn [HandleSpec.pos HandleSpec.angle fst snd].
  all: try (assert (sin_neg_case : ∀ a, (-180 < a < 0)%R →
                      (handleC + handleR * sin (a * PI / 180) < handleC)%R)
              by (intros a Ha; pose proof (sin_deg_neg a Ha); nra);
            apply sin_neg_case; lra).
  all: try (assert (sin_pos_case : ∀ a, (0 < a < 180)%R →
                      (handleC < handleC + handleR * sin (a * PI / 180))%R)
              by (intros a Ha; pose proof (sin_deg_pos a Ha); nra);
            apply sin_pos_case; lra).
  all: try (assert (cos_pos_case : ∀ a, (-90 < a < 90)%R →
                      (handleC < handleC + handleR * cos (a * PI / 180))%R)
              by (intros a Ha; pose proof (cos_deg_pos a Ha); nra);
            apply cos_pos_case; lra).
  all: assert (cos_neg_case : ∀ a, (90 < a < 270)%R →
                 (handleC + handleR * cos (a * PI / 180) < handleC)%R)
         by (intros a Ha; pose proof (cos_deg_neg a Ha); nra);
       apply cos_neg_case; lra.
Qed.

Lemma handles_on_node_boundary_witness :
  getPos 90 = (48, 96)%R.
Proof.
  destruct (handles_on_node_boundary (HandleSpec.mk "bottom" 90 Bottom))
    as (_ & _ & _ & _ & Hb & _).
  - unfold handles. do 7 (apply elem_of_cons; right). apply elem_of_cons. by left.
  - exact (Hb eq_refl).
Defined.

(** * Further properties of the hierarchical layout *)

Lemma find_fmap {A B} (f : A → B) (P : B → Prop) `{!∀ b, Decision (P b)}
    (l : list A) :
  JS.find P (f <$> l) = f <$> JS.find (λ a, P (f a)) l.
Proof.
  unfold JS.find. rewrite list_find_fmap.
  by destruct (list_find _ l) as [[? ?]|].
Qed.

(** X21: the edges of the hierarchical layout do not depend on the
    coordinates computed by the layout library, and they mirror the
    transitions on every input: one edge per transition, in input order,
    with the transition's source, target, condition and action and the
    1-based position as label; no two edges have the same id or the same
    label; and the label shown for an endpoint is the label of the first
    state with that id, or its id when that label is empty. *)
Theorem auto_edges_mirror_transitions dagreNode fsmData :
  length (getAutoLayoutedElements dagreNode fsmData).2
  = length (FSMData.transitions fsmData)
  ∧ (∀ i t, FSMData.transitions fsmData !! i = Some t →
       ∃ e, (getAutoLayoutedElements dagreNode fsmData).2 !! i = Some e
            ∧ AutoEdge.source e = FSMTransition.source t
            ∧ AutoEdge.target e = FSMTransition.target t
            ∧ AutoEdgeData.condition (AutoEdge.data e) = FSMTransition.condition t
            ∧ AutoEdgeData.action (AutoEdge.data e) = FSMTransition.action t
            ∧ AutoEdge.label e = pretty (i + 1)
            ∧ AutoEdgeData.id (AutoEdge.data e) = AutoEdge.label e
            ∧ AutoEdgeData.sourceLabel (AutoEdge.data e)
              = (λ s, JS.or_else (Some (FSMState.label s)) (FSMState.id s))
                  <$> JS.find (λ s, FSMState.id s = FSMTransition.source t)
                              (FSMData.states fsmData))
  ∧ ∀ i j ei ej,
      (getAutoLayoutedElements dagreNode fsmData).2 !! i = Some ei →
      (getAutoLayoutedElements dagreNode fsmData).2 !! j = Some ej →
      AutoEdge.id ei = AutoEdge.id ej ∨ AutoEdge.label ei = AutoEdge.label ej →
      i = j.
Proof.
  simpl. unfold autoEdges. split_and!.
  - apply length_imap.
  - intros i t Ht. exists (autoEdge dagreNode fsmData i t).
    rewrite list_lookup_imap, Ht. simpl. repeat split.
    unfold autoNodes. change map with (@fmap list _) at 1.
    rewrite find_fmap. simpl. by destruct (JS.find _ _).
  - intros i j ei ej. rewrite !list_lookup_imap.
    destruct (FSMData.transitions fsmData !! i) as [ti|]; [|done].
    destruct (FSMData.transitions fsmData !! j) as [tj|]; [|done].
    simpl. intros [= <-] [= <-]. simpl. intros [Hid|Hlabel].
    + do 5 (apply (f_equal (λ s, match s with String _ s' => s' | _ => s end)) in Hid;
            cbn [String.append] in Hid).
      apply separator_inj in Hid as [Hi _]; [|apply pretty_nat_avoids..].
      by apply (inj pretty) in Hi.
    + apply (inj pretty) in Hlabel. lia.
Qed.

Lemma auto_edges_mirror_transitions_witness :
  ∃ e, (getAutoLayoutedElements (λ _ _, {| x := 0%R; y := 0%R |}) scenarioA).2 !! 2
       = Some e
       ∧ AutoEdge.source e = "done" ∧ AutoEdge.target e = "idle".
Proof.
  destruct (auto_edges_mirror_transitions (λ _ _, {| x := 0%R; y := 0%R |}) scenarioA)
    as (_ & Hedge & _).
  destruct (Hedge 2 (transition "done" "idle") eq_refl)
    as (e & He & Hs & Ht & _).
  exists e. split; [exact He|]. split; [exact Hs|exact Ht].
Defined.

(** * The handles named by the layouts *)

(** X22: every handle that a layout names on an edge is rendered by the
    circular node, and the handle ids of a node are pairwise distinct.
    The radial and the linear layout name a source handle at the source
    and a target handle at the target.  The hierarchical layout does so
    for self-loops only: for every other edge the handle it names at the
    target is [top], which the node renders as a source handle. *)
Theorem layout_handles_rendered dagreNode fsmData :
  NoDup (sourceHandleIds ++ targetHandleIds)%list
  ∧ (∀ e, e ∈ edges (getRadialLayoutElements fsmData) →
          Edge.sourceHandle e ∈ sourceHandleIds
          ∧ Edge.targetHandle e ∈ targetHandleIds)
  ∧ (∀ e, e ∈ linearEdges (getLayoutedElements fsmData) →
          StubLayoutEdge.sourceHandle e ∈ sourceHandleIds
          ∧ StubLayoutEdge.targetHandle e ∈ targetHandleIds)
  ∧ (∀ e, e ∈ (getAutoLayoutedElements dagreNode fsmData).2 →
          AutoEdge.sourceHandle e ∈ sourceHandleIds
          ∧ (AutoEdge.targetHandle e ∈ targetHandleIds
             ↔ AutoEdge.source e = AutoEdge.target e)
          ∧ (AutoEdge.source e ≠ AutoEdge.target e →
             AutoEdge.targetHandle e ∈ sourceHandleIds)).
Proof.
  split_and!.
  - by apply (bool_decide_unpack _).
  - intros e [i Hi]%list_elem_of_lookup. simpl in Hi. unfold layoutedEdges in Hi.
    rewrite list_lookup_imap in Hi.
    destruct (FSMData.transitions fsmData !! i); [|done].
    injection Hi as <-. simpl. split; by apply (bool_decide_unpack _).
  - intros e [i Hi]%list_elem_of_lookup. simpl in Hi.
    rewrite list_lookup_imap in Hi.
    destruct (FSMData.transitions fsmData !! i); [|done].
    injection Hi as <-. simpl. split; by apply (bool_decide_unpack _).
  - intros e [i Hi]%list_elem_of_lookup. simpl in Hi. unfold autoEdges in Hi.
    rewrite list_lookup_imap in Hi.
    destruct (FSMData.transitions fsmData !! i) as [t|]; [|done].
    injection Hi as <-. simpl. case_bool_decide as Hloop.
    + split_and!; [by apply (bool_decide_unpack _)| |done].
      split; [done|]. intros _. by apply (bool_decide_unpack _).
    + split_and!; [by apply (bool_decide_unpack _)| |].
      * split; [|done]. intros Hin. exfalso. revert Hin.
        by apply (bool_decide_eq_false_1 _).
      * intros _. by apply (bool_decide_unpack _).
Qed.

Lemma layout_handles_rendered_witness :
  ∃ e, edges (getRadialLayoutElements scenarioA) !! 0 = Some e
       ∧ Edge.targetHandle e ∈ targetHandleIds.
Proof.
  eexists. split; [reflexivity|].
  eapply (layout_handles_rendered (λ _ _, {| x := 0%R; y := 0%R |}) scenarioA).
  apply list_elem_of_lookup. exists 0. reflexivity.
Defined.

(** * Properties of undo and redo *)

Lemma undo_snoc {N E} (l : list (History.Snapshot N E)) s fut ns es :
  History.undo (History.mk (l ++ [s]) fut ns es)
  = History.mk l (History.mkSnapshot ns es :: fut)
               (History.snapNodes s) (History.snapEdges s).
Proof.
  unfold History.undo. simpl. rewrite length_app. simpl.
  rewrite bool_decide_eq_false_2 by lia.
  replace (length l + 1 - 1) with (length l) by lia.
  rewrite lookup_app_r by lia. rewrite Nat.sub_diag. simpl.
  by rewrite take_app_length.
Qed.

Lemma redo_cons {N E} (pst : list (History.Snapshot N E)) s fut ns es :
  History.redo (History.mk pst (s :: fut) ns es)
  = History.mk (pst ++ [History.mkSnapshot ns es]) fut
               (History.snapNodes s) (History.snapEdges s).
Proof. done. Qed.

(** X23: undo and redo are inverse to each other.  Where there is a state
    to go back to, redo after undo gives the history back unchanged, and
    where there is a state to go forward to, undo after redo does; without
    such a state undo and redo do nothing.  Neither of them drops a
    snapshot: the number of stored states stays the same. *)
Theorem undo_redo_round_trip {N E} (h : History.t N E) :
  (History.past h ≠ [] → History.redo (History.undo h) = h)
  ∧ (History.future h ≠ [] → History.undo (History.redo h) = h)
  ∧ (History.past h = [] → History.undo h = h)
  ∧ (History.future h = [] → History.redo h = h)
  ∧ length (History.past (History.undo h))
    + length (History.future (History.undo h))
    = length (History.past h) + length (History.future h)
  ∧ length (History.past (History.redo h))
    + length (History.future (History.redo h))
    = length (History.past h) + length (History.future h).
Proof.
  destruct h as [pst fut ns es]. simpl. split_and!.
  - intros Hne. destruct pst as [|s0 l _] using rev_ind; [done|].
    rewrite undo_snoc, redo_cons. by destruct s0.
  - intros Hne. destruct fut as [|s fut']; [done|].
    rewrite redo_cons, undo_snoc. by destruct s.
  - by intros ->.
  - by intros ->.
  - destruct pst as [|s0 l _] using rev_ind; [done|].
    rewrite undo_snoc. simpl. rewrite length_app. simpl. lia.
  - destruct fut as [|s fut']; [done|].
    rewrite redo_cons. simpl. rewrite length_app. simpl. lia.
Qed.

Lemma undo_redo_round_trip_witness :
  let h := History.mk [History.mkSnapshot [1] [2]] [] [3] [4] in
  History.redo (History.undo h) = h.
Proof.
  intros h. by apply (proj1 (undo_redo_round_trip h)).
Defined.

(** X24: every action can be undone.  After any sequence of actions, each
    of which takes a snapshot and then replaces the graph, as many undo
    steps as there were actions bring back the nodes, the edges and the
    undo stack from before the first action; one undo step after one
    action leaves exactly the replaced graph to be redone, and redo then
    gives the state after the action; and an action discards the states
    that could have been redone before it. *)
Theorem actions_are_undone {N E} (h : History.t N E)
    (steps : list (list N * list E)) :
  let run := foldl (λ h s, History.act s.1 s.2 h) h steps in
  let back := Nat.iter (length steps) History.undo run in
  (History.nodes back = History.nodes h
   ∧ History.edges back = History.edges h
   ∧ History.past back = History.past h)
  ∧ (∀ ns es,
       History.undo (History.act ns es h)
       = History.mk (History.past h) [History.mkSnapshot ns es]
                    (History.nodes h) (History.edges h)
       ∧ History.redo (History.undo (History.act ns es h)) = History.act ns es h
       ∧ History.future (History.act ns es h) = []).
Proof.
  cbv zeta. split.
  - revert h. induction steps as [|s steps IH]; intros h; [done|].
    cbn [foldl length]. rewrite Nat.iter_succ.
    specialize (IH (History.act s.1 s.2 h)).
    set (mid := Nat.iter _ _ _) in *. destruct IH as (Hn & He & Hp).
    destruct mid as [pst fut ns es].
    cbn [History.past History.nodes History.edges History.act
         History.takeSnapshot] in Hn, He, Hp. subst pst ns es.
    rewrite undo_snoc. by destruct h.
  - intros ns es. unfold History.act, History.takeSnapshot. simpl.
    rewrite undo_snoc, redo_cons. by destruct h.
Qed.

(** * Properties of grouping *)

Lemma minOf_le first rest v :
  v ∈ first :: rest → (minOf first rest <= v)%R.
Proof.
  unfold minOf. induction rest as [|a rest IH]; simpl.
  - intros ->%list_elem_of_singleton. lra.
  - rewrite !elem_of_cons. intros [->|[->|Hin]].
    + etrans; [apply Rmin_r|]. apply IH. by left.
    + apply Rmin_l.
    + etrans; [apply Rmin_r|]. apply IH. by right.
Qed.

Lemma maxOf_ge first rest v :
  v ∈ first :: rest → (v <= maxOf first rest)%R.
Proof.
  unfold maxOf. induction rest as [|a rest IH]; simpl.
  - intros ->%list_elem_of_singleton. lra.
  - rewrite !elem_of_cons. intros [->|[->|Hin]].
    + etrans; [|apply Rmax_r]. apply IH. by left.
    + apply Rmax_l.
    + etrans; [|apply Rmax_r]. apply IH. by right.
Qed.

Lemma filter_all {A} (P : A → Prop) `{!∀ a, Decision (P a)} (l : list A) :
  (∀ a, a ∈ l → P a) → filter P l = l.
Proof.
  induction l as [|a l IH]; intros Hall; [done|].
  rewrite filter_cons, decide_True by (apply Hall; left).
  f_equal. apply IH. intros b Hb. apply Hall. by right.
Qed.

Lemma groupedNodes_Some groupId sel ns res :
  groupedNodes groupId sel ns = Some res →
  ∃ first rest,
    nodesToGroup sel ns = first :: rest ∧ 1 ≤ length rest
    ∧ let minX := minOf (x (CanvasNode.position first))
                        (map (λ n, x (CanvasNode.position n)) rest) in
      let maxX := maxOf (rightOf first) (map rightOf rest) in
      let minY := minOf (y (CanvasNode.position first))
                        (map (λ n, y (CanvasNode.position n)) rest) in
      let maxY := maxOf (bottomOf first) (map bottomOf rest) in
      res = (otherNodes sel ns
             ++ groupNode groupId (minX - PADDING) (minY - PADDING)
                          ((maxX - minX) + (PADDING * 2))
                          ((maxY - minY) + (PADDING * 2))
                :: map (updatedChild groupId (minX - PADDING) (minY - PADDING))
                       (first :: rest))%list.
Proof.
  unfold groupedNodes.
  destruct (nodesToGroup sel ns) as [|first [|second rest]]; [done|done|].
  intros [= <-]. exists first, (second :: rest).
  split; [done|]. split; [simpl; lia|done].
Qed.

(** X25: the box of a new group.  When [handleGroupNodes] groups, there
    are at least two nodes to group; the node list becomes the unselected
    nodes, unchanged, followed by the group and by the grouped nodes; every
    grouped node keeps its place on the canvas, its position now being
    relative to the corner of the group; and the group box encloses every
    grouped node, taken with its width and height ([96] where they are
    missing or zero), with a margin of at least [PADDING] on each side. *)
Theorem group_box_encloses_children groupId sel ns res :
  groupedNodes groupId sel ns = Some res →
  ∃ gx gy gw gh,
    res = (otherNodes sel ns
           ++ groupNode groupId gx gy gw gh
              :: map (updatedChild groupId gx gy) (nodesToGroup sel ns))%list
    ∧ 2 ≤ length (nodesToGroup sel ns)
    ∧ ∀ n, n ∈ nodesToGroup sel ns →
        let c := updatedChild groupId gx gy n in
        (gx + x (CanvasNode.position c) = x (CanvasNode.position n))%R
        ∧ (gy + y (CanvasNode.position c) = y (CanvasNode.position n))%R
        ∧ (PADDING <= x (CanvasNode.position c))%R
        ∧ (PADDING <= y (CanvasNode.position c))%R
        ∧ (x (CanvasNode.position c) + numberOr (CanvasNode.width n) 96
           + PADDING <= gw)%R
        ∧ (y (CanvasNode.position c) + numberOr (CanvasNode.height n) 96
           + PADDING <= gh)%R.
Proof.
  intros (first & rest & Hgroup & Hlen & Hres)%groupedNodes_Some.
  cbv zeta in Hres. rewrite Hgroup.
  eexists _, _, _, _. split; [exact Hres|]. split; [simpl; lia|].
  intros n Hn. cbn [updatedChild CanvasNode.position x y].
  pose proof (minOf_le (x (CanvasNode.position first))
                (map (λ n, x (CanvasNode.position n)) rest)
                (x (CanvasNode.position n))) as HminX.
  pose proof (minOf_le (y (CanvasNode.position first))
                (map (λ n, y (CanvasNode.position n)) rest)
                (y (CanvasNode.position n))) as HminY.
  pose proof (maxOf_ge (rightOf first) (map rightOf rest) (rightOf n)) as HmaxX.
  pose proof (maxOf_ge (bottomOf first) (map bottomOf rest) (bottomOf n)) as HmaxY.
  assert (∀ {B} (f : CanvasNode.t → B), f n ∈ f first :: map f rest) as Hmem.
  { intros B f. change (f n ∈ f <$> first :: rest). by apply list_elem_of_fmap_2. }
  specialize (HminX (Hmem _ _)). specialize (HminY (Hmem _ _)).
  specialize (HmaxX (Hmem _ _)). specialize (HmaxY (Hmem _ _)).
  unfold rightOf, bottomOf, PADDING in *.
  repeat split; lra.
Qed.

Lemma group_box_encloses_children_witness :
  ∃ res, groupedNodes "group-7" sampleSelection sampleCanvas = Some res
         ∧ 2 ≤ length (nodesToGroup sampleSelection sampleCanvas).
Proof.
  eexists. split; [reflexivity|].
  destruct (group_box_encloses_children "group-7" sampleSelection sampleCanvas _
              eq_refl) as (gx & gy & gw & gh & _ & Hlen & _).
  exact Hlen.
Defined.

Lemma restored_updated groupId gx gy gw gh n :
  restoredChild (groupNode groupId gx gy gw gh) (updatedChild groupId gx gy n)
  = released n.
Proof.
  unfold restoredChild, updatedChild, released, groupNode. simpl.
  destruct n as [? ? ? [px py] ? ? ? ? ? ? ? ?]. simpl.
  do 2 f_equal; ring.
Qed.

Lemma nodesToGroup_spec sel ns n :
  n ∈ nodesToGroup sel ns
  ↔ (CanvasNode.id n ∈ sel ∧ CanvasNode.type n ≠ Some "group"
     ∧ JS.truthy (CanvasNode.parentNode n) = false) ∧ n ∈ ns.
Proof. unfold nodesToGroup. by rewrite list_elem_of_filter. Qed.

Lemma otherNodes_spec sel ns n :
  n ∈ otherNodes sel ns ↔ CanvasNode.id n ∉ sel ∧ n ∈ ns.
Proof. unfold otherNodes. by rewrite list_elem_of_filter. Qed.

Lemma ungroup_fresh_group groupId gx gy gw gh (others toGroup : list CanvasNode.t) :
  (∀ n, n ∈ others →
        CanvasNode.id n ≠ groupId ∧ CanvasNode.parentNode n ≠ Some groupId) →
  (∀ n, n ∈ toGroup → CanvasNode.id n ≠ groupId) →
  ungroupedNodes [groupId]
    (others ++ groupNode groupId gx gy gw gh
            :: map (updatedChild groupId gx gy) toGroup)%list
  = Some (others ++ map released toGroup)%list.
Proof.
  intros Hothers Hgroup.
  set (G := groupNode groupId gx gy gw gh).
  set (children := map (updatedChild groupId gx gy) toGroup).
  assert (∀ c, c ∈ children →
               CanvasNode.id c ≠ groupId
               ∧ CanvasNode.parentNode c = Some groupId) as Hchildren.
  { intros c (n & -> & Hn)%list_elem_of_fmap. split; [|done].
    cbn [updatedChild CanvasNode.id]. by apply Hgroup. }
  unfold ungroupedNodes, selectedGroups.
  rewrite filter_app, filter_cons.
  rewrite (filter_none _ others), (filter_none _ children); cycle 1.
  { intros c Hc [Hin _]. apply list_elem_of_singleton in Hin.
    by destruct (Hchildren c Hc). }
  { intros n Hn [Hin _]. apply list_elem_of_singleton in Hin.
    by destruct (Hothers n Hn). }
  rewrite decide_True by (split; [by apply list_elem_of_singleton|done]).
  cbn [app foldl]. f_equal. unfold ungroupStep. cbn [CanvasNode.id G groupNode].
  rewrite !filter_app, !filter_cons.
  rewrite decide_False by (intros [Hid _]; by apply Hid).
  rewrite decide_False by done.
  rewrite (filter_all _ others) by (intros n Hn; by apply Hothers).
  rewrite (filter_none _ children); cycle 1.
  { intros c Hc [_ Hp]. apply Hp. by destruct (Hchildren c Hc). }
  rewrite (filter_none _ others)
    by (intros n Hn; by destruct (Hothers n Hn)).
  rewrite (filter_all _ children)
    by (intros c Hc; by destruct (Hchildren c Hc)).
  cbn [app]. rewrite app_nil_r. f_equal.
  unfold children. rewrite map_map. apply map_ext. intros n.
  apply restored_updated.
Qed.

(** X26: ungrouping undoes grouping.  Let [handleGroupNodes] group the
    selected nodes under an id that no node uses yet, and let the new group
    then be selected and [handleUngroupNodes] be run.  The canvas then
    holds the unselected nodes, unchanged, followed by the grouped nodes,
    each at its original position, outside every group and not selected;
    the group itself is gone; and two undo steps bring back the node list
    from before the grouping. *)
Theorem ungroup_restores_grouped_nodes now st :
  let groupId := "group-" ++ pretty now in
  let sel := App.selectedNodeIds st in
  let ns := History.nodes (App.history st) in
  let st1 := handleGroupNodes now st in
  let st2 := handleUngroupNodes (onSelectionChange [] [groupId] st1) in
  2 ≤ length (nodesToGroup sel ns) →
  freshGroupId groupId ns →
  History.nodes (App.history st2)
  = (otherNodes sel ns ++ map released (nodesToGroup sel ns))%list
  ∧ History.edges (App.history st2) = History.edges (App.history st)
  ∧ History.nodes (History.undo (History.undo (App.history st2))) = ns
  ∧ History.past (History.undo (History.undo (App.history st2)))
    = History.past (App.history st).
Proof.
  intros groupId sel ns st1 st2 Hlen Hfresh.
  destruct (groupedNodes groupId sel ns) as [res|] eqn:Hres; cycle 1.
  { exfalso. unfold groupedNodes in Hres.
    destruct (nodesToGroup sel ns) as [|? [|? ?]]; simpl in Hlen; [lia|lia|done]. }
  pose proof Hres as (first & rest & Hgroup & _ & Heq)%groupedNodes_Some.
  cbv zeta in Heq. rewrite <- Hgroup in Heq.
  assert (ungroupedNodes [groupId] res
          = Some (otherNodes sel ns ++ map released (nodesToGroup sel ns))%list)
    as Hun.
  { rewrite Heq. apply ungroup_fresh_group.
    - intros n [_ Hn]%otherNodes_spec. by apply Hfresh.
    - intros n [_ Hn]%nodesToGroup_spec. by apply Hfresh. }
  assert (App.history st1
          = History.act res (History.edges (App.history st)) (App.history st))
    as Hst1.
  { unfold st1, handleGroupNodes. fold groupId sel ns. by rewrite Hres. }
  assert (App.history st2
          = History.act (otherNodes sel ns ++ map released (nodesToGroup sel ns))%list
                        (History.edges (App.history st)) (App.history st1))
    as Hst2.
  { unfold st2, handleUngroupNodes.
    cbn [onSelectionChange App.history App.selectedNodeIds].
    rewrite Hst1 at 1. cbn [History.act History.nodes].
    rewrite Hun. cbn [withHistory App.history onSelectionChange].
    by rewrite Hst1. }
  rewrite Hst2, Hst1. unfold History.act, History.takeSnapshot.
  cbn [History.nodes History.edges History.past History.future History.current].
  split; [done|]. split; [done|].
  rewrite !undo_snoc. by destruct (App.history st).
Qed.

Lemma ungroup_restores_grouped_nodes_witness :
  let st := App.mk (History.mk [] [] sampleCanvas []) None true false []
                   sampleSelection in
  History.nodes (App.history
    (handleUngroupNodes (onSelectionChange [] ["group-7"] (handleGroupNodes 7 st))))
  = (otherNodes sampleSelection sampleCanvas
     ++ map released (nodesToGroup sampleSelection sampleCanvas))%list.
Proof.
  intros st. apply (ungroup_restores_grouped_nodes 7 st).
  - vm_compute. lia.
  - intros n Hn. unfold sampleCanvas in Hn. simpl in Hn.
    repeat (apply elem_of_cons in Hn as [->|Hn]); [..|by apply elem_of_nil in Hn];
      by split.
Defined.

(** X27: grouping can lose nodes.  A node that is selected but cannot be
    grouped, because it is itself a group or already belongs to one, is
    neither kept with the unselected nodes nor added with the grouped
    ones: when the other selected nodes are grouped, no node with its id
    is left on the canvas. *)
Theorem grouping_drops_ungroupable_selection groupId sel ns res n :
  groupedNodes groupId sel ns = Some res →
  n ∈ ns →
  CanvasNode.id n ∈ sel →
  CanvasNode.type n = Some "group"
  ∨ JS.truthy (CanvasNode.parentNode n) = true →
  CanvasNode.id n ≠ groupId →
  (∀ m, m ∈ ns → CanvasNode.id m = CanvasNode.id n → m = n) →
  CanvasNode.id n ∉ (CanvasNode.id <$> res).
Proof.
  intros (first & rest & Hgroup & _ & Heq)%groupedNodes_Some Hn Hsel Hnot Hid Huniq.
  cbv zeta in Heq. rewrite <- Hgroup in Heq. rewrite Heq.
  rewrite fmap_app, fmap_cons, elem_of_app, elem_of_cons.
  intros [Hin|[Hin|Hin]].
  - apply list_elem_of_fmap in Hin as (m & Hm & [Hnsel _]%otherNodes_spec).
    apply Hnsel. by rewrite <- Hm.
  - done.
  - change map with (@fmap list _) in Hin. rewrite <- list_fmap_compose in Hin.
    apply list_elem_of_fmap in Hin as (m & Hm & [(_ & Hty & Hpar) Hmns]%nodesToGroup_spec).
    simpl in Hm. assert (m = n) as -> by (apply Huniq; done).
    destruct Hnot as [Hg|Ht]; [done|]. by rewrite Ht in Hpar.
Qed.

Lemma grouping_drops_ungroupable_selection_witness :
  ∃ res, groupedNodes "group-7" sampleSelection sampleCanvas = Some res
         ∧ "c" ∉ (CanvasNode.id <$> res).
Proof.
  eexists. split; [reflexivity|].
  apply (grouping_drops_ungroupable_selection "group-7" sampleSelection sampleCanvas
           _ (canvasNode "c" 50 50 (Some "old")) eq_refl).
  - unfold sampleCanvas. do 2 (apply elem_of_cons; right). apply elem_of_cons. by left.
  - by apply (bool_decide_unpack _).
  - by right.
  - done.
  - intros m Hm. unfold sampleCanvas in Hm.
    repeat (apply elem_of_cons in Hm as [->|Hm]); [..|by apply elem_of_nil in Hm];
      simpl; done.
Defined.

(** * From the visualised graph to the drawn edges *)

Lemma connection_defined_far sX sY tX tY straight off :
  let d := sqrt ((tX - sX) * (tX - sX) + (tY - sY) * (tY - sY)) in
  d ≠ 0%R → d ≠ 96%R →
  is_Some (connectionGeometry sX sY tX tY straight off).
Proof.
  intros d Hnz Hne. destruct straight.
  - destruct (getPointOnCircle_is_Some sX sY tX tY) as [start Hs].
    destruct (getPointOnCircle_is_Some tX tY sX sY) as [end_ He].
    unfold connectionGeometry. rewrite Hs, He. by eexists.
  - destruct (connectionGeometry sX sY tX tY false off) eqn:Hg; [by eexists|].
    exfalso.
    assert (sqrt ((sX - tX) * (sX - tX) + (sY - tY) * (sY - tY)) = d) as Hrev.
    { unfold d. f_equal. ring. }
    pose proof (getPointOnCircle_far sX sY tX tY Hnz) as Hs. fold d in Hs.
    pose proof (getPointOnCircle_far tX tY sX sY) as He. cbv zeta in He.
    rewrite Hrev in He. specialize (He Hnz).
    apply (connection_curved_None _ _ _ _ _ _ off Hs He) in Hg.
    cbn [x y] in Hg. apply sqrt_sum_squares_zero in Hg as [Ha Hb].
    unfold NODE_RADIUS in Ha, Hb.
    assert (d * d = (tX - sX) * (tX - sX) + (tY - sY) * (tY - sY))%R as Hsq.
    { apply sqrt_sqrt. clear. generalize (tX - sX)%R (tY - sY)%R. intros. nra. }
    set (a := (tX - sX)%R) in *. set (b := (tY - sY)%R) in *.
    replace (tX + (sX - tX) / d * 48 - (sX + a / d * 48))%R
      with (a * ((d - 96) / d))%R in Ha by (unfold a; by field).
    replace (tY + (sY - tY) / d * 48 - (sY + b / d * 48))%R
      with (b * ((d - 96) / d))%R in Hb by (unfold b; by field).
    assert ((d - 96) / d ≠ 0)%R as Hq.
    { intros Hq. apply Hne. apply Rmult_eq_compat_r with (r := d) in Hq.
      field_simplify in Hq; [lra|done]. }
    apply Rmult_integral in Ha as [Ha|Ha]; [|done].
    apply Rmult_integral in Hb as [Hb|Hb]; [|done].
    apply Hnz. clearbody d a b. nra.
Qed.

Lemma placed_position fsmData n :
  n ∈ layoutedNodes fsmData →
  (Some (Node.id n) = hubId fsmData
   ∧ Node.position n = {| x := 0%R; y := 0%R |})
  ∨ (Some (Node.id n) ≠ hubId fsmData
     ∧ (x (Node.position n) * x (Node.position n)
        + y (Node.position n) * y (Node.position n) = RADIUS * RADIUS)%R).
Proof.
  unfold layoutedNodes. intros [Hhub|Hrim]%elem_of_app.
  - destruct (hubNodeData fsmData) as [h|] eqn:Hh; simpl in Hhub;
      [|by apply elem_of_nil in Hhub].
    apply list_elem_of_singleton in Hhub as ->. left.
    split; [|done]. simpl. symmetry. by apply hubNodeData_id.
  - apply elem_of_lookup_imap in Hrim as (i & s & -> & Hs). right. split.
    + simpl. by apply rimSorting_not_hub, list_elem_of_lookup_2 with i.
    + simpl. set (a := finalAngle _ _).
      pose proof (sin2_cos2 a) as H. unfold Rsqr in H. nra.
Qed.

Lemma processEdge_layouted fsmData i t :
  processEdge (layoutedEdge fsmData i t)
  = withIsStraight false (layoutedEdge fsmData i t).
Proof. done. Qed.

(** X28: the hub connections of a visualised graph are always drawn.
    After [updateGraph] every edge is in curved mode.  For an edge between
    the hub and another state, drawn between the places that the layout
    gave to its two end nodes (moved by any common offset [cX], [cY]),
    [RadialEdge] returns a path: the two nodes are [RADIUS = 380] apart,
    which is neither zero nor the node diameter, so that the curved branch
    does not divide by zero. *)
Theorem hub_connections_always_drawn data st e ns nt cX cY :
  let st' := updateGraph data st in
  e ∈ History.edges (App.history st') →
  ns ∈ History.nodes (App.history st') →
  nt ∈ History.nodes (App.history st') →
  CanvasNode.id ns = Edge.source e →
  CanvasNode.id nt = Edge.target e →
  EdgeData.isHubConnection (Edge.data e) = true →
  EdgeData.isSelfLoop (Edge.data e) = false →
  EdgeData.isStraight (Edge.data e) = Some false
  ∧ ∃ g, RadialEdge (Some (x (CanvasNode.position ns) + cX)%R)
                    (Some (y (CanvasNode.position ns) + cY)%R)
                    (Some (x (CanvasNode.position nt) + cX)%R)
                    (Some (y (CanvasNode.position nt) + cY)%R)
                    (Some (Edge.data e))
         = RenderPath g.
Proof.
  intros st'. cbn [st' updateGraph App.history History.edges History.nodes
                   getRadialLayoutElements nodes edges].
  intros (e0 & -> & He0)%list_elem_of_fmap (n1 & -> & Hn1)%list_elem_of_fmap
         (n2 & -> & Hn2)%list_elem_of_fmap.
  unfold layoutedEdges in He0.
  apply elem_of_lookup_imap in He0 as (i & t & -> & Ht).
  rewrite processEdge_layouted.
  cbn [CanvasNode.ofNode CanvasNode.id CanvasNode.position withIsStraight
       Edge.source Edge.target Edge.data layoutedEdge
       EdgeData.isHubConnection EdgeData.isSelfLoop EdgeData.isStraight].
  intros Hsrc Htgt Hhub Hloop. split; [done|].
  apply bool_decide_eq_true in Hhub. apply bool_decide_eq_false in Hloop.
  set (d := sqrt ((x (Node.position n2) + cX - (x (Node.position n1) + cX))
                  * (x (Node.position n2) + cX - (x (Node.position n1) + cX))
                  + (y (Node.position n2) + cY - (y (Node.position n1) + cY))
                    * (y (Node.position n2) + cY - (y (Node.position n1) + cY)))).
  assert (d = RADIUS) as Hd.
  { unfold d.
    destruct (placed_position _ _ Hn1) as [[Hid1 Hp1]|[Hid1 Hp1]],
             (placed_position _ _ Hn2) as [[Hid2 Hp2]|[Hid2 Hp2]].
    - exfalso. apply Hloop. rewrite <- Hsrc, <- Htgt. congruence.
    - rewrite Hp1. cbn [x y].
      replace (_ + _)%R with (RADIUS * RADIUS)%R by (rewrite <- Hp2; ring).
      apply sqrt_square. unfold RADIUS. lra.
    - rewrite Hp2. cbn [x y].
      replace (_ + _)%R with (RADIUS * RADIUS)%R by (rewrite <- Hp1; ring).
      apply sqrt_square. unfold RADIUS. lra.
    - exfalso. rewrite <- Hsrc, <- Htgt in Hhub. by destruct Hhub. }
  assert (∀ off, is_Some (connectionGeometry
                            (x (Node.position n1) + cX) (y (Node.position n1) + cY)
                            (x (Node.position n2) + cX) (y (Node.position n2) + cY)
                            false off)) as Hall.
  { intros off. apply connection_defined_far; fold d; rewrite Hd;
      unfold RADIUS; lra. }
  unfold RadialEdge, radialEdgeGeometry.
  cbn [fmap option_fmap option_map mbind option_bind default
       EdgeData.isSelfLoop EdgeData.siblingCount EdgeData.siblingIndex
       EdgeData.isStraight].
  rewrite bool_decide_eq_false_2 by done. unfold Datatypes.id.
  match goal with
  | |- context [connectionGeometry _ _ _ _ _ ?o] => destruct (Hall o) as [g Hg]
  end.
  exists g. by rewrite Hg.
Qed.

Lemma hub_connections_always_drawn_witness :
  ∃ e, History.edges (App.history (updateGraph scenarioA emptyApp)) !! 0 = Some e
       ∧ EdgeData.isStraight (Edge.data e) = Some false.
Proof.
  eexists. split; [reflexivity|].
  eapply (hub_connections_always_drawn scenarioA emptyApp _ _ _ 48 48).
  - apply (list_elem_of_lookup_2 _ 0). reflexivity.
  - apply (list_elem_of_lookup_2 _ 0). vm_compute. reflexivity.
  - apply (list_elem_of_lookup_2 _ 1). vm_compute. reflexivity.
  - reflexivity.
  - reflexivity.
  - vm_compute. reflexivity.
  - reflexivity.
Defined.

(** * Switching edges between curved and straight *)

Lemma styleEdge_unselected b e : styleEdge b [] e = e.
Proof.
  unfold styleEdge. rewrite bool_decide_eq_true_2; [done|]. apply not_elem_of_nil.
Qed.

Lemma handleSetEdgeStyle_edges b st :
  History.edges (App.history (handleSetEdgeStyle b st))
  = map (styleEdge b (App.selectedEdgeIds st)) (History.edges (App.history st)).
Proof.
  unfold handleSetEdgeStyle. cbn [App.history].
  destruct (App.selectedEdgeIds st) as [|i sel] eqn:Hsel.
  - rewrite bool_decide_eq_false_2 by (simpl; lia).
    induction (History.edges (App.history st)) as [|e es IH]; [done|].
    simpl. by rewrite styleEdge_unselected, <- IH.
  - rewrite bool_decide_eq_true_2 by (simpl; lia). done.
Qed.

Lemma styleEdge_radial b sel e0 :
  Edge.type e0 = "radial" →
  styleEdge b sel (withIsStraight false e0)
  = withIsStraight (negb b && bool_decide (Edge.id e0 ∈ sel)) e0.
Proof.
  intros Hty. unfold styleEdge. cbn [withIsStraight Edge.id Edge.type].
  destruct (decide (Edge.id e0 ∈ sel)) as [Hsel|Hsel].
  - rewrite (bool_decide_eq_false_2 (_ ∉ _)) by (by intros ?).
    rewrite (bool_decide_eq_true_2 (_ = _)) by done.
    rewrite (bool_decide_eq_true_2 (_ ∈ _)) by done. by rewrite andb_true_r.
  - rewrite (bool_decide_eq_true_2 (_ ∉ _)) by done.
    rewrite (bool_decide_eq_false_2 (_ ∈ _)) by done. by rewrite andb_false_r.
Qed.

Lemma styleEdge_back sel e0 v :
  Edge.type e0 = "radial" →
  styleEdge true sel (withIsStraight (v && bool_decide (Edge.id e0 ∈ sel)) e0)
  = withIsStraight false e0.
Proof.
  intros Hty. unfold styleEdge. cbn [withIsStraight Edge.id Edge.type].
  destruct (decide (Edge.id e0 ∈ sel)) as [Hsel|Hsel].
  - rewrite (bool_decide_eq_false_2 (_ ∉ _)) by (by intros ?).
    by rewrite (bool_decide_eq_true_2 (_ = _)) by done.
  - rewrite (bool_decide_eq_true_2 (_ ∉ _)) by done.
    rewrite (bool_decide_eq_false_2 (_ ∈ _)) by done. by rewrite andb_false_r.
Qed.

(** X29: switching the selected edges of a visualised graph to straight
    and back.  After [updateGraph] and any selection,
    [handleSetEdgeStyle(false)] makes exactly the selected edges straight
    and leaves the nodes alone; a selected edge that is not a self-loop is
    then drawn by [RadialEdge] wherever its two nodes are, also where the
    curved branch would divide by zero; and [handleSetEdgeStyle(true)]
    afterwards gives back the edges as they were. *)
Theorem edge_style_round_trip data st0 edgeIds nodeIds :
  let st := onSelectionChange edgeIds nodeIds (updateGraph data st0) in
  let st1 := handleSetEdgeStyle false st in
  let st2 := handleSetEdgeStyle true st1 in
  History.edges (App.history st2) = History.edges (App.history st)
  ∧ History.nodes (App.history st1) = History.nodes (App.history st)
  ∧ App.isCurved st1 = false
  ∧ App.isCurved st2 = true
  ∧ (∀ e, e ∈ History.edges (App.history st1) →
          EdgeData.isStraight (Edge.data e)
          = Some (bool_decide (Edge.id e ∈ edgeIds)))
  ∧ (∀ e sX sY tX tY,
       e ∈ History.edges (App.history st1) →
       Edge.id e ∈ edgeIds →
       EdgeData.isSelfLoop (Edge.data e) = false →
       ∃ g, RadialEdge (Some sX) (Some sY) (Some tX) (Some tY)
                       (Some (Edge.data e)) = RenderPath g).
Proof.
  intros st st1 st2.
  assert (History.edges (App.history st1)
          = map (λ e0, withIsStraight (bool_decide (Edge.id e0 ∈ edgeIds)) e0)
                (layoutedEdges data)) as Hst1.
  { unfold st1. rewrite handleSetEdgeStyle_edges.
    cbn [st onSelectionChange updateGraph App.history App.selectedEdgeIds
         History.edges getRadialLayoutElements edges].
    rewrite map_map. apply map_ext_in. intros e0 He0.
    apply list_elem_of_In in He0. unfold layoutedEdges in He0.
    apply elem_of_lookup_imap in He0 as (i & t & -> & _).
    rewrite processEdge_layouted. by rewrite styleEdge_radial. }
  assert (∀ e, e ∈ History.edges (App.history st1) →
            ∃ i t, e = withIsStraight
                         (bool_decide (Edge.id (layoutedEdge data i t) ∈ edgeIds))
                         (layoutedEdge data i t)) as Hshape.
  { intros e. rewrite Hst1. intros (e0 & -> & He0)%list_elem_of_fmap.
    unfold layoutedEdges in He0.
    apply elem_of_lookup_imap in He0 as (i & t & -> & _). by exists i, t. }
  split_and!.
  - unfold st2. rewrite handleSetEdgeStyle_edges, Hst1.
    replace (App.selectedEdgeIds st1) with edgeIds by done.
    cbn [st onSelectionChange updateGraph App.history History.edges
         getRadialLayoutElements edges].
    rewrite map_map. apply map_ext_in. intros e0 He0.
    apply list_elem_of_In in He0. unfold layoutedEdges in He0.
    apply elem_of_lookup_imap in He0 as (i & t & -> & _).
    rewrite processEdge_layouted.
    by rewrite <- (andb_true_l (bool_decide _)), styleEdge_back.
  - unfold st1, handleSetEdgeStyle. cbn [App.history]. by case_bool_decide.
  - done.
  - done.
  - intros e (i & t & ->)%Hshape. done.
  - intros e sX sY tX tY (i & t & ->)%Hshape Hsel Hloop.
    cbn [withIsStraight Edge.id Edge.data layoutedEdge EdgeData.isSelfLoop]
      in Hsel, Hloop.
    destruct (getPointOnCircle_is_Some sX sY tX tY) as [start Hs].
    destruct (getPointOnCircle_is_Some tX tY sX sY) as [end_ He].
    eexists. unfold RadialEdge, radialEdgeGeometry.
    cbn [withIsStraight Edge.id Edge.data layoutedEdge
         fmap option_fmap option_map mbind option_bind default
         EdgeData.isSelfLoop EdgeData.siblingCount EdgeData.siblingIndex
         EdgeData.isStraight].
    unfold Datatypes.id. rewrite Hloop.
    rewrite bool_decide_eq_true_2 by done.
    unfold connectionGeometry. rewrite Hs, He. done.
Qed.

Lemma edge_style_round_trip_witness :
  ∃ e, History.edges (App.history
         (handleSetEdgeStyle false
            (onSelectionChange ["radial_0_idle_run"] []
               (updateGraph scenarioA emptyApp)))) !! 0 = Some e
       ∧ EdgeData.isStraight (Edge.data e) = Some true.
Proof.
  destruct (edge_style_round_trip scenarioA emptyApp ["radial_0_idle_run"] [])
    as (_ & _ & _ & _ & Hstraight & _).
  eexists. split; [reflexivity|].
  etrans; [apply Hstraight; apply (list_elem_of_lookup_2 _ 0); reflexivity|].
  vm_compute. reflexivity.
Defined.

(** * Highlighting on hover *)

Lemma hoverFold_spec hovered (es : list Edge.t) acc :
  let r := foldl (hoverStep hovered) acc es in
  (∀ i, i ∈ connectedEdgeIds r
        ↔ i ∈ connectedEdgeIds acc
          ∨ ∃ e, e ∈ es ∧ Edge.id e = i
                 ∧ (Edge.source e = hovered ∨ Edge.target e = hovered))
  ∧ (∀ v, v ∈ neighborIds r
          ↔ v ∈ neighborIds acc
            ∨ ∃ e, e ∈ es
                   ∧ ((Edge.source e = hovered ∧ Edge.target e = v)
                      ∨ (Edge.source e ≠ hovered ∧ Edge.target e = hovered
                         ∧ Edge.source e = v))).
Proof.
  revert acc. induction es as [|e es IH]; intros acc; simpl.
  - split; intros ?; (split; [by left|]); intros [?|(? & []%elem_of_nil & _)]; done.
  - destruct (IH (hoverStep hovered acc e)) as [IHc IHn]. split.
    + intros i. rewrite IHc. unfold hoverStep.
      repeat case_bool_decide; simpl; setoid_rewrite elem_of_cons;
        rewrite ?elem_of_union, ?elem_of_singleton; naive_solver.
    + intros v. rewrite IHn. unfold hoverStep.
      repeat case_bool_decide; simpl; setoid_rewrite elem_of_cons;
        rewrite ?elem_of_union, ?elem_of_singleton; naive_solver.
Qed.

Lemma NoDup_fmap_elem {A B} (f : A → B) (l : list A) a b :
  NoDup (f <$> l) → a ∈ l → b ∈ l → f a = f b → a = b.
Proof.
  intros Hnd [i Hi]%list_elem_of_lookup [j Hj]%list_elem_of_lookup Hf.
  assert (i = j) as ->; [|congruence].
  eapply NoDup_lookup; [exact Hnd| |]; rewrite list_lookup_fmap.
  - by rewrite Hi.
  - rewrite Hj. simpl. by rewrite Hf.
Qed.

(** X30: highlighting on hover.  While a node is hovered, and the edges
    have pairwise distinct ids, an edge is shown at full opacity exactly
    when it starts or ends at the hovered node, and then both of its end
    nodes are shown at full opacity too; groups always are.  While no node
    is hovered, every node and every edge is shown at full opacity. *)
Theorem hover_highlights_incident_edges hovered (es : list Edge.t) e :
  hovered ≠ "" →
  NoDup (Edge.id <$> es) →
  e ∈ es →
  (edgeOpacity (Some hovered) es e = 1%R
   ↔ Edge.source e = hovered ∨ Edge.target e = hovered)
  ∧ (edgeOpacity (Some hovered) es e = 1%R →
     ∀ n, CanvasNode.id n = Edge.source e ∨ CanvasNode.id n = Edge.target e →
          nodeOpacity (Some hovered) es n = 1%R)
  ∧ (∀ n, CanvasNode.type n = Some "group" →
          nodeOpacity (Some hovered) es n = 1%R)
  ∧ (∀ n e', nodeOpacity None es n = 1%R ∧ edgeOpacity None es e' = 1%R).
Proof.
  intros Hne Hnd He.
  assert (JS.truthy (Some hovered) = true) as Htruthy.
  { simpl. destruct (String.eqb_spec hovered ""); done. }
  destruct (hoverFold_spec hovered es
              {| neighborIds := ∅; connectedEdgeIds := ∅ |}) as [Hc Hn].
  fold (hoverSets hovered es) in Hc, Hn.
  assert (edgeOpacity (Some hovered) es e = 1%R
          ↔ Edge.source e = hovered ∨ Edge.target e = hovered) as Hedge.
  { unfold edgeOpacity. rewrite Htruthy. cbn [negb default].
    case_bool_decide as Hin.
    - split; [intros _|done]. apply Hc in Hin as [[]%elem_of_empty|Hin].
      destruct Hin as (e' & He' & Hid & Hinc).
      by rewrite <- (NoDup_fmap_elem Edge.id es e' e Hnd He' He Hid).
    - split; [intros ?; lra|]. intros Hinc. destruct Hin. apply Hc. right.
      by exists e. }
  split_and!; [exact Hedge| | |done].
  - intros Hop n Hend. apply Hedge in Hop.
    unfold nodeOpacity. rewrite Htruthy. cbn [negb default].
    destruct (decide (CanvasNode.id n = hovered)) as [Hh|Hh].
    { by rewrite (bool_decide_eq_true_2 _ Hh). }
    assert (CanvasNode.id n ∈ neighborIds (hoverSets hovered es)) as Hnb.
    { apply Hn. right. exists e. split; [done|].
      destruct (decide (Edge.source e = hovered)) as [Hs|Hs].
      - left. split; [done|]. destruct Hend as [Hend|Hend]; congruence.
      - right. destruct Hop as [Hop|Hop]; [done|].
        split; [done|]. split; [done|]. destruct Hend as [Hend|Hend]; congruence. }
    rewrite (bool_decide_eq_true_2 (_ ∈ _) Hnb).
    by destruct (bool_decide _), (bool_decide _).
  - intros n Hg. unfold nodeOpacity. rewrite Htruthy. cbn [negb default].
    rewrite (bool_decide_eq_true_2 (CanvasNode.type n = Some "group")) by done.
    by destruct (bool_decide _), (bool_decide _).
Qed.

Lemma hover_highlights_incident_edges_witness :
  ∃ e, edges (getRadialLayoutElements scenarioA) !! 0 = Some e
       ∧ edgeOpacity (Some "idle") (edges (getRadialLayoutElements scenarioA)) e
         = 1%R.
Proof.
  assert (NoDup (Edge.id <$> edges (getRadialLayoutElements scenarioA))) as Hnd.
  { assert (Edge.id <$> edges (getRadialLayoutElements scenarioA)
            = ["radial_0_idle_run"; "radial_1_run_done"; "radial_2_done_idle"])
      as -> by (vm_compute; reflexivity).
    repeat (apply NoDup_cons_2;
            [rewrite ?elem_of_cons, elem_of_nil; naive_solver|]).
    apply NoDup_nil_2. }
  eexists. split; [reflexivity|].
  refine (proj2 (proj1 (hover_highlights_incident_edges "idle" _ _ _ Hnd _)) _).
  - done.
  - apply (list_elem_of_lookup_2 _ 0). reflexivity.
  - by left.
Defined.
